(** * NavMesh2d: a shallow embedding of [src/nav-mesh-2d.ts]

    The repository ships two variants of the engine in the same file.  The
    embedding follows the later one (the three-argument [findPath], lines
    384-881 of the source).  The functions of the earlier variant (lines
    1-384) that differ from it, in their text or in the primitives they
    call, are embedded in [Module Early], [Module EarlyProjection],
    [Module EarlyFunnel] and [Module EarlyQuery]; [findTrianglePath] is the
    same in both.

    Numbers.  The structure of the engine (the search, the portals, the
    order of the waypoints, the branches of the query) is studied on exact
    rationals ([Q]): every comparison of the source is a comparison of
    rationals, and rounding is out of that model.  Where a property depends
    on what the doubles do, the model has it: the library's squared
    distance is a function of the provider with values in [Num.ext], finite
    or [Infinity], so that a distance that overflows is a value of the
    model, and the statements about exact geometry name the range of
    coordinates they hold on; [Module Double] embeds [triArea2],
    [pointsEqual] and the loop of the funnel on binary64 floats, with the
    rounding, the infinities and the NaN of IEEE 754. *)

From Stdlib Require PrimFloat FloatOps FloatAxioms SpecFloat.
From Stdlib Require Import QArith Qabs Qminmax Lqa Lia List ZArith Bool.
Import ListNotations.

Set Implicit Arguments.

(** ** Numbers *)

Module Num.

Definition ltb (a b : Q) : bool :=
  match a ?= b with Lt => true | _ => false end.
Definition leb (a b : Q) : bool :=
  match a ?= b with Gt => false | _ => true end.
Definition gtb (a b : Q) : bool := ltb b a.
Definition geb (a b : Q) : bool := leb b a.
Definition eqb (a b : Q) : bool :=
  match a ?= b with Eq => true | _ => false end.

(** [Math.max] and [Math.min] *)
Definition max (a b : Q) : Q := if ltb a b then b else a.
Definition min (a b : Q) : Q := if ltb b a then b else a.

(** A number that is not negative, as a squared distance and the running
    minimum of squared distances are: finite, or [Infinity]. *)
Inductive ext : Type :=
| Fin (q : Q)
| Infinity.

(** [d < m]; [Infinity < m] is false for every [m] *)
Definition lt_ext (d m : ext) : bool :=
  match d, m with
  | Fin a, Fin b => ltb a b
  | Fin _, Infinity => true
  | Infinity, _ => false
  end.

(** The doubles end at [Number.MAX_VALUE], which is 2^1024 - 2^971: a result
    at or beyond 2^1024 - 2^970 is rounded to [Infinity]. *)
Definition overflow : Q := inject_Z (2 ^ 1024 - 2 ^ 970).

(** the number computed for an exact value that is not negative *)
Definition ofExact (q : Q) : ext :=
  if leb overflow q then Infinity else Fin q.

(** Coordinates up to 2^510 in magnitude: their differences stay below
    2^511, the products of two differences below 2^1022 and the sums of two
    such products below 2^1023, so that no intermediate result of the
    geometric primitives overflows. *)
Definition bound : Q := inject_Z (2 ^ 510).

End Num.

Declare Scope num_scope.
Delimit Scope num_scope with num.
Infix "<?" := Num.ltb (at level 70, no associativity) : num_scope.
Infix "<=?" := Num.leb (at level 70, no associativity) : num_scope.
Infix ">?" := Num.gtb (at level 70, no associativity) : num_scope.
Infix ">=?" := Num.geb (at level 70, no associativity) : num_scope.

Open Scope Q_scope.

(** ** Points (the provider's [Point] class) *)

Module Point.

Record t : Type := new { x : Q; y : Q }.

(** the squared Euclidean distance of two points, in exact arithmetic *)
Definition squaredDistance (p q : t) : Q :=
  (x p - x q) * (x p - x q) + (y p - y q) * (y p - y q).

End Point.

Abbreviation Point := Point.t.

(** ** Geometric primitives of the later variant *)

Definition epsilon : Q := 1 # 1000000000.

(** [triArea2], lines 873-875 *)
Definition triArea2 (a b c : Point) : Q :=
  (Point.x c - Point.x a) * (Point.y b - Point.y a)
  - (Point.x b - Point.x a) * (Point.y c - Point.y a).

(** [pointsEqual], lines 877-880, on exact differences; [Double.pointsEqual]
    is the test on the rounded differences *)
Definition pointsEqual (p1 p2 : Point) : bool :=
  (Qabs (Point.x p1 - Point.x p2) <? epsilon)%num
  && (Qabs (Point.y p1 - Point.y p2) <? epsilon)%num.

(** [orientation], lines 864-868: 0 collinear, 1 clockwise, 2 counterclockwise *)
Definition orientation (p q r : Point) : nat :=
  let val := (Point.y q - Point.y p) * (Point.x r - Point.x q)
             - (Point.x q - Point.x p) * (Point.y r - Point.y q) in
  if (Qabs val <? (1 # 10000000000))%num then 0%nat
  else if (val >? 0)%num then 1%nat else 2%nat.

(** [getSegmentIntersectionPoint], lines 553-571 *)
Definition getSegmentIntersectionPoint (p1 q1 p2 q2 : Point) : option Point :=
  let r := Point.new (Point.x q1 - Point.x p1) (Point.y q1 - Point.y p1) in
  let s := Point.new (Point.x q2 - Point.x p2) (Point.y q2 - Point.y p2) in
  let rxs := Point.x r * Point.y s - Point.y r * Point.x s in
  if (Qabs rxs <? (1 # 100000000))%num then None
  else
    let qp := Point.new (Point.x p2 - Point.x p1) (Point.y p2 - Point.y p1) in
    let t := (Point.x qp * Point.y s - Point.y qp * Point.x s) / rxs in
    let u := (Point.x qp * Point.y r - Point.y qp * Point.x r) / rxs in
    if ((t >=? 0) && (t <=? 1) && (u >=? 0) && (u <=? 1))%num
    then Some (Point.new (Point.x p1 + t * Point.x r) (Point.y p1 + t * Point.y r))
    else None.

(** [closestPointOnSegment], lines 576-587, in exact arithmetic.  On doubles
    [atb2] overflows for a long segment and [t] is then 0: the statements
    about the nearest point are made for coordinates up to [Num.bound],
    where no intermediate result overflows. *)
Definition closestPointOnSegment (p a b : Point) : Point :=
  let a_to_p := Point.new (Point.x p - Point.x a) (Point.y p - Point.y a) in
  let a_to_b := Point.new (Point.x b - Point.x a) (Point.y b - Point.y a) in
  let atb2 := Point.x a_to_b * Point.x a_to_b + Point.y a_to_b * Point.y a_to_b in
  if Num.eqb atb2 0 then a
  else
    let dot := Point.x a_to_p * Point.x a_to_b + Point.y a_to_p * Point.y a_to_b in
    let t := Num.max 0 (Num.min 1 (dot / atb2)) in
    Point.new (Point.x a + Point.x a_to_b * t) (Point.y a + Point.y a_to_b * t).

(** [isPointOnSegment], lines 589-604 *)
Definition isPointOnSegment (p a b : Point) : bool :=
  let ab := Point.new (Point.x b - Point.x a) (Point.y b - Point.y a) in
  let ap := Point.new (Point.x p - Point.x a) (Point.y p - Point.y a) in
  let cross := Point.x ab * Point.y ap - Point.y ab * Point.x ap in
  if (Qabs cross >? (1 # 1000000000))%num then false
  else
    let dot := Point.x ap * Point.x ab + Point.y ap * Point.y ab in
    if ((dot <? 0)
        || (dot >? Point.x ab * Point.x ab + Point.y ab * Point.y ab))%num
    then false
    else true.

(** The primitives on which the earlier variant (lines 1-384) differs. *)
Module Early.

(** [triArea2], lines 373-375 *)
Definition triArea2 (a b c : Point) : Q :=
  (Point.x b - Point.x a) * (Point.y c - Point.y a)
  - (Point.x c - Point.x a) * (Point.y b - Point.y a).

Definition epsilon : Q := 1 # 10000000000.

(** [pointsEqual], lines 380-383 *)
Definition pointsEqual (p1 p2 : Point) : bool :=
  (Qabs (Point.x p1 - Point.x p2) <? epsilon)%num
  && (Qabs (Point.y p1 - Point.y p2) <? epsilon)%num.

(** [isPointInTriangle], lines 46-57, on the vertices of the triangle.  The
    barycentric coordinates are exact here; the doubles of the source round
    them, and a point of an edge can come out just below zero. *)
Definition isPointInTriangle (point : Point) (mainTriangle : Point * Point * Point)
  : bool :=
  let '(p0, p1, p2) := mainTriangle in
  let denom := (Point.y p1 - Point.y p2) * (Point.x p0 - Point.x p2)
               + (Point.x p2 - Point.x p1) * (Point.y p0 - Point.y p2) in
  if (Qabs denom <? (1 # 10000000000))%num then false
  else
    let a := ((Point.y p1 - Point.y p2) * (Point.x point - Point.x p2)
              + (Point.x p2 - Point.x p1) * (Point.y point - Point.y p2))
             / denom in
    let b := ((Point.y p2 - Point.y p0) * (Point.x point - Point.x p2)
              + (Point.x p0 - Point.x p2) * (Point.y point - Point.y p2))
             / denom in
    let c := 1 - a - b in
    ((a >=? 0) && (b >=? 0) && (c >=? 0))%num.

End Early.

(** ** The geometry provider

    [TPolygon], its fields and the three library functions below come from
    poly-math-2d.  Triangles are objects compared by reference ([===],
    [Set], [Map], [includes]): the provider is an interface whose triangle
    type has a decidable identity, and a connection is modelled by the
    [neighbor] it leads to.  [Point.getDistanceSquared] returns a number
    that the engine only compares with others: finite, or [Infinity] when
    the squared distance leaves the range of the doubles. *)

Class Provider : Type := {
  TPolygon : Type;
  TPolygon_eq_dec : forall t1 t2 : TPolygon, {t1 = t2} + {t1 <> t2};
  mainTriangle : TPolygon -> Point * Point * Point;
  centerPoint : TPolygon -> Point;
  connections : TPolygon -> list TPolygon;
  getDistanceQuick : Point -> Point -> Q;
  getDistanceSquared : Point -> Point -> Num.ext;
  pointInTriangle : Point -> Point * Point * Point -> bool
}.

Section NavMesh2d.

Context {provider : Provider}.

(** [t1 === t2] on triangle references *)
Definition same (t1 t2 : TPolygon) : bool :=
  if TPolygon_eq_dec t1 t2 then true else false.

(** [Array.prototype.includes] on triangle references *)
Definition includes (l : list TPolygon) (t : TPolygon) : bool :=
  existsb (same t) l.

(** The provider's [Polygon]: an outer ring, holes (polygons themselves, of
    which only [points] is read) and the triangles that cover it. *)
#[local] Unset Elimination Schemes.
Inductive Polygon : Type :=
| mkPolygon (points : list Point) (holes : list Polygon)
            (tpolygons : list TPolygon).
#[local] Set Elimination Schemes.

Definition points (p : Polygon) : list Point :=
  match p with mkPolygon ps _ _ => ps end.
Definition holes (p : Polygon) : list Polygon :=
  match p with mkPolygon _ hs _ => hs end.
Definition tpolygons (p : Polygon) : list TPolygon :=
  match p with mkPolygon _ _ ts => ts end.

Record PolygonMap : Type := { polygons : list Polygon }.

Record NavMesh2d : Type := {
  polygonMap : PolygonMap;
  triangles : list TPolygon
}.

(** [buildNavMesh], lines 411-418 *)
Definition buildNavMesh (pm : PolygonMap) : list TPolygon :=
  flat_map tpolygons (polygons pm).

(** the constructor, lines 404-406 *)
Definition newNavMesh2d (pm : PolygonMap) : NavMesh2d :=
  {| polygonMap := pm; triangles := buildNavMesh pm |}.

(** [getTriangleCenter], lines 423-425 *)
Definition getTriangleCenter (triangle : TPolygon) : Point :=
  centerPoint triangle.

(** [isPointInTriangle], lines 430-440 *)
Definition isPointInTriangle (point : Point) (triangle : TPolygon) : bool :=
  if pointInTriangle point (mainTriangle triangle) then true
  else
    let '(p1, p2, p3) := mainTriangle triangle in
    isPointOnSegment point p1 p2
    || isPointOnSegment point p2 p3
    || isPointOnSegment point p3 p1.

(** [findTriangleContainingPoint], lines 445-452 *)
Definition findTriangleContainingPoint (nm : NavMesh2d) (point : Point)
  : option TPolygon :=
  find (isPointInTriangle point) (triangles nm).

(** [isPointInNavMesh], lines 457-459 *)
Definition isPointInNavMesh (nm : NavMesh2d) (point : Point) : bool :=
  match findTriangleContainingPoint nm point with
  | Some _ => true
  | None => false
  end.

(** *** Goal projection *)

(** The edges [(edges[i], edges[(i + 1) % edges.length])] of a ring, in the
    order of the loops at lines 531-533, 627-629 and 636-638. *)
Definition ringEdges (ring : list Point) : list (Point * Point) :=
  match ring with
  | [] => []
  | first :: rest => combine ring (rest ++ [first])
  end.

(** The running minimum of [findIntersectionWithPolygon]:
    [(closestIntersection, minDistanceSq)]. *)
Definition Closest : Type := (option Point * Num.ext)%type.

(** [findOnEdges], lines 530-543 *)
Definition findOnEdges (p1 q1 : Point) (edges : list Point) (acc : Closest)
  : Closest :=
  fold_left
    (fun (acc : Closest) (e : Point * Point) =>
       match getSegmentIntersectionPoint p1 q1 (fst e) (snd e) with
       | Some intersection =>
           let distSq := getDistanceSquared p1 intersection in
           if Num.lt_ext distSq (snd acc)
           then (Some intersection, distSq)
           else acc
       | None => acc
       end)
    (ringEdges edges) acc.

(** [findIntersectionWithPolygon], lines 526-551 *)
Definition findIntersectionWithPolygon (p1 q1 : Point) (polygon : Polygon)
  : option Point :=
  let acc := findOnEdges p1 q1 (points polygon) (None, Num.Infinity) in
  let acc := fold_left (fun acc hole => findOnEdges p1 q1 (points hole) acc)
                       (holes polygon) acc in
  fst acc.

(** [checkPoint], lines 613-619, on the pair [(closestPoint, minDistanceSq)] *)
Definition checkPoint (target : Point) (acc : Point * Num.ext) (p : Point)
  : Point * Num.ext :=
  let d := getDistanceSquared target p in
  if Num.lt_ext d (snd acc) then (p, d) else acc.

(** the edge loops of lines 627-632 and 636-641 *)
Definition checkEdges (target : Point) (ring : list Point)
  (acc : Point * Num.ext) : Point * Num.ext :=
  fold_left
    (fun acc e => checkPoint target acc
                    (closestPointOnSegment target (fst e) (snd e)))
    (ringEdges ring) acc.

(** [findClosestPointInPolygon], lines 609-645 *)
Definition findClosestPointInPolygon (target : Point) (polygon : Polygon)
  : Point :=
  let acc := (target, Num.Infinity) in
  let acc := fold_left (checkPoint target) (points polygon) acc in
  let acc := checkEdges target (points polygon) acc in
  let acc := fold_left (fun acc holePolygon =>
                          checkEdges target (points holePolygon) acc)
                       (holes polygon) acc in
  fst acc.

(** The goal projector: the body of [if (!endTriangle)] in [findPath] that
    chooses [targetPoint], lines 481-491. *)
Definition projectGoal (a b : Point) (startPolygon : Polygon)
  (closestToStart : bool) : Point :=
  if closestToStart then
    match findIntersectionWithPolygon a b startPolygon with
    | Some intersectionPoint => intersectionPoint
    | None => findClosestPointInPolygon b startPolygon
    end
  else findClosestPointInPolygon b startPolygon.

(** *** A* over the triangle graph

    A [PathNode] is a mutable object shared by [openSet], [nodeMap] and the
    [parent] fields of other nodes.  [nodeMap] holds one node per triangle,
    so a node reference is modelled by its triangle and [nodeMap] is the
    store through which every field is read and written. *)

Record PathNode : Type := {
  triangle : TPolygon;
  gCost : Q;
  hCost : Q;
  fCost : Q;
  parent : option TPolygon
}.

Definition NodeMap : Type := list (TPolygon * PathNode).

(** [nodeMap.get] *)
Definition getNode (m : NodeMap) (t : TPolygon) : option PathNode :=
  match find (fun kv => same t (fst kv)) m with
  | Some kv => Some (snd kv)
  | None => None
  end.

(** [nodeMap.set] on a triangle that has no node yet *)
Definition setNode (m : NodeMap) (t : TPolygon) (n : PathNode) : NodeMap :=
  m ++ [(t, n)].

(** assignment to the fields of the node of [t] *)
Definition writeNode (m : NodeMap) (t : TPolygon) (n : PathNode) : NodeMap :=
  map (fun kv => if same t (fst kv) then (t, n) else kv) m.

Record AStarState : Type := {
  openSet : list TPolygon;
  closedSet : list TPolygon;
  nodeMap : NodeMap
}.

(** the sort key [fCost] of a node of [openSet] *)
Definition fCostOf (m : NodeMap) (t : TPolygon) : Q :=
  match getNode m t with
  | Some n => fCost n
  | None => 0
  end.

Fixpoint insertByFCost (m : NodeMap) (t : TPolygon) (l : list TPolygon)
  : list TPolygon :=
  match l with
  | [] => [t]
  | u :: l' =>
      if (fCostOf m t <=? fCostOf m u)%num then t :: u :: l'
      else u :: insertByFCost m t l'
  end.

(** [openSet.sort((a, b) => a.fCost - b.fCost)], a stable sort *)
Definition sortOpenSet (m : NodeMap) (l : list TPolygon) : list TPolygon :=
  fold_right (insertByFCost m) [] l.

(** the path reconstruction, lines 678-684 *)
Fixpoint reconstruct (fuel : nat) (m : NodeMap) (node : option TPolygon)
  (path : list TPolygon) : option (list TPolygon) :=
  match fuel with
  | O => None
  | S fuel' =>
      match node with
      | None => Some path
      | Some t =>
          match getNode m t with
          | None => None
          | Some n =>
              match parent n with
              | None => Some path
              | Some p => reconstruct fuel' m (Some p) (triangle n :: path)
              end
          end
      end
  end.

(** the body of the loop over [current.triangle.connections], lines 690-716 *)
Definition visitNeighbor (endCenter : Point) (closed : list TPolygon)
  (current : PathNode) (acc : NodeMap * list TPolygon) (neighbor : TPolygon)
  : NodeMap * list TPolygon :=
  let '(m, open) := acc in
  if includes closed neighbor then acc
  else
    let neighborCenter := getTriangleCenter neighbor in
    let currentCenter := getTriangleCenter (triangle current) in
    let tentativeGCost :=
      gCost current + getDistanceQuick currentCenter neighborCenter in
    match getNode m neighbor with
    | None =>
        let h := getDistanceQuick neighborCenter endCenter in
        let neighborNode :=
          {| triangle := neighbor; gCost := tentativeGCost; hCost := h;
             fCost := tentativeGCost + h;
             parent := Some (triangle current) |} in
        (setNode m neighbor neighborNode, open ++ [neighbor])
    | Some neighborNode =>
        if (tentativeGCost <? gCost neighborNode)%num then
          (writeNode m neighbor
             {| triangle := triangle neighborNode;
                gCost := tentativeGCost;
                hCost := hCost neighborNode;
                fCost := tentativeGCost + hCost neighborNode;
                parent := Some (triangle current) |},
           open)
        else acc
    end.

(** the [while (openSet.length > 0)] loop, lines 671-717; [None] when the
    iterations allowed by [fuel] are used up *)
Fixpoint astarLoop (fuel : nat) (end_ : TPolygon) (st : AStarState)
  : option (list TPolygon) :=
  match fuel with
  | O => None
  | S fuel' =>
      match sortOpenSet (nodeMap st) (openSet st) with
      | [] => Some []
      | cur :: rest =>
          match getNode (nodeMap st) cur with
          | None => None
          | Some current =>
              if same (triangle current) end_ then
                reconstruct (S (length (nodeMap st))) (nodeMap st) (Some cur) []
              else
                let closed := triangle current :: closedSet st in
                let '(m, open) :=
                  fold_left
                    (visitNeighbor (getTriangleCenter end_) closed current)
                    (connections (triangle current)) (nodeMap st, rest) in
                astarLoop fuel' end_
                  {| openSet := open; closedSet := closed; nodeMap := m |}
          end
      end
  end.

(** [findTrianglePath], lines 650-720 *)
Definition findTrianglePath (fuel : nat) (start end_ : TPolygon)
  : option (list TPolygon) :=
  let startCenter := getTriangleCenter start in
  let endCenter := getTriangleCenter end_ in
  let h := getDistanceQuick startCenter endCenter in
  let startNode :=
    {| triangle := start; gCost := 0; hCost := h; fCost := 0 + h;
       parent := None |} in
  astarLoop fuel end_
    {| openSet := [start]; closedSet := []; nodeMap := [(start, startNode)] |}.

(** *** Portals *)

(** A portal [{ left, right }]; the fields are [pleft] and [pright] here
    because the funnel has variables named [left] and [right]. *)
Record Portal : Type := mkPortal { pleft : Point; pright : Point }.

(** The array [sharedPoints] built by the nested loops of lines 803-810:
    the vertices of [triangle1], in order, that are equal up to [epsilon]
    to some vertex of [triangle2]. *)
Definition sharedPoints (triangle1 triangle2 : TPolygon) : list Point :=
  let '(a1, b1, c1) := mainTriangle triangle1 in
  let '(a2, b2, c2) := mainTriangle triangle2 in
  filter (fun p1 => existsb (pointsEqual p1) [a2; b2; c2]) [a1; b1; c1].

(** [getSharedEdge], lines 797-824 *)
Definition getSharedEdge (triangle1 triangle2 : TPolygon) : option Portal :=
  match sharedPoints triangle1 triangle2 with
  | [s0; s1] =>
      let center1 := getTriangleCenter triangle1 in
      let cross := triArea2 center1 s0 s1 in
      if (cross >? 0)%num
      then Some {| pleft := s0; pright := s1 |}
      else Some {| pleft := s1; pright := s0 |}
  | _ => None
  end.

(** [getPortalEdges], lines 788-795 *)
Fixpoint getPortalEdges (trianglePath : list TPolygon) : list Portal :=
  match trianglePath with
  | t1 :: (t2 :: _) as rest =>
      match getSharedEdge t1 t2 with
      | Some sharedEdge => sharedEdge :: getPortalEdges rest
      | None => getPortalEdges rest
      end
  | _ => []
  end.

(** *** The funnel *)

Record FunnelState : Type := {
  path : list Point;
  apex : Point;
  apexIndex : Z;
  left : Point;
  leftIndex : Z;
  right : Point;
  rightIndex : Z
}.

(** [path.push(p); apex = p; apexIndex = index; left = apex; ...], the
    restart of lines 751-758 and 768-775 *)
Definition restartAt (st : FunnelState) (p : Point) (index : Z) : FunnelState :=
  {| path := path st ++ [p];
     apex := p; apexIndex := index;
     left := p; leftIndex := index;
     right := p; rightIndex := index |}.

(** One pass through the body of the [for] loop, lines 743-778, for the
    portal at index [i]; the result is the state and the value of [i] when
    the body is left (by [continue] or at its end), before [i++].  In
    exact arithmetic; [Double.funnelBody] is the same body on doubles. *)
Definition funnelBody (i : Z) (portal : Portal) (st : FunnelState)
  : Z * FunnelState :=
  let pLeft := pleft portal in
  let pRight := pright portal in
  let afterRight : option FunnelState :=
    if (triArea2 (apex st) (right st) pRight <=? 0)%num then
      if pointsEqual (apex st) (right st)
         || (triArea2 (apex st) (left st) pRight >? 0)%num
      then Some {| path := path st; apex := apex st; apexIndex := apexIndex st;
                   left := left st; leftIndex := leftIndex st;
                   right := pRight; rightIndex := i |}
      else None
    else Some st in
  match afterRight with
  | None => (leftIndex st, restartAt st (left st) (leftIndex st))
  | Some st1 =>
      if (triArea2 (apex st1) (left st1) pLeft >=? 0)%num then
        if pointsEqual (apex st1) (left st1)
           || (triArea2 (apex st1) (right st1) pLeft <? 0)%num
        then (i, {| path := path st1; apex := apex st1;
                    apexIndex := apexIndex st1;
                    left := pLeft; leftIndex := i;
                    right := right st1; rightIndex := rightIndex st1 |})
        else (rightIndex st1, restartAt st1 (right st1) (rightIndex st1))
      else (i, st1)
  end.

(** The [for (let i = 0; i < portals.length; i++)] loop, lines 742-779.
    [None] when the iterations allowed by [fuel] are used up, or when
    [portals[i]] is read at a negative index (a [TypeError] in the source). *)
Fixpoint funnelLoop (fuel : nat) (portals : list Portal) (i : Z)
  (st : FunnelState) : option FunnelState :=
  match fuel with
  | O => None
  | S fuel' =>
      if (i <? Z.of_nat (length portals))%Z then
        if (i <? 0)%Z then None
        else
          match nth_error portals (Z.to_nat i) with
          | None => None
          | Some portal =>
              let '(i', st') := funnelBody i portal st in
              funnelLoop fuel' portals (i' + 1)%Z st'
          end
      else Some st
  end.

(** Iterations that suffice for [n] portals in exact arithmetic (see
    [funnelLoop_total]), and on doubles as long as no difference of
    coordinates overflows. *)
Definition funnelFuel (n : nat) : nat := S ((S n) * (S n)).

(** [funnel] on the portal list, lines 730-785, with [fuel] iterations *)
Definition funnelOn (fuel : nat) (start end_ : Point) (portals0 : list Portal)
  : option (list Point) :=
  let st := {| path := [start];
               apex := start; apexIndex := (-1)%Z;
               left := start; leftIndex := (-1)%Z;
               right := start; rightIndex := (-1)%Z |} in
  let portals := portals0 ++ [{| pleft := end_; pright := end_ |}] in
  match funnelLoop fuel portals 0%Z st with
  | None => None
  | Some st' =>
      if negb (pointsEqual (List.last (path st') start) end_)
      then Some (path st' ++ [end_])
      else Some (path st')
  end.

(** [funnel], lines 726-786.  The guard [if (!portals)] of line 728 is never
    taken: [getPortalEdges] returns an array, and an array is truthy. *)
Definition funnel (start end_ : Point) (trianglePath : list TPolygon)
  : option (list Point) :=
  let portals := getPortalEdges trianglePath in
  funnelOn (funnelFuel (S (length portals))) start end_ portals.

(** *** The query *)

(** The polygon that owns [startTriangle], line 478 *)
Definition findStartPolygon (nm : NavMesh2d) (startTriangle : TPolygon)
  : option Polygon :=
  find (fun p => includes (tpolygons p) startTriangle)
       (polygons (polygonMap nm)).

(** [(targetPoint, targetTriangle)] as lines 470-496 of [findPath] leave
    them; [None] where the source returns the empty path. *)
Definition resolveTarget (nm : NavMesh2d) (a b : Point)
  (closestToStart : bool) (startTriangle : TPolygon)
  : option (Point * TPolygon) :=
  match findTriangleContainingPoint nm b with
  | Some endTriangle => Some (b, endTriangle)
  | None =>
      match findStartPolygon nm startTriangle with
      | None => None
      | Some startPolygon =>
          let targetPoint := projectGoal a b startPolygon closestToStart in
          match findTriangleContainingPoint nm targetPoint with
          | None => None
          | Some targetTriangle => Some (targetPoint, targetTriangle)
          end
      end
  end.

(** [startTriangle.connections.some(c => c.neighbor === targetTriangle)] *)
Definition isNeighbor (startTriangle targetTriangle : TPolygon) : bool :=
  existsb (fun c => same c targetTriangle) (connections startTriangle).

(** [findPath], lines 464-524; [fuel] bounds the iterations of the A* loop *)
Definition findPath (fuel : nat) (nm : NavMesh2d) (a b : Point)
  (closestToStart : bool) : option (list Point) :=
  match findTriangleContainingPoint nm a with
  | None => Some []
  | Some startTriangle =>
      match resolveTarget nm a b closestToStart startTriangle with
      | None => Some []
      | Some (targetPoint, targetTriangle) =>
          if same startTriangle targetTriangle then Some [a; targetPoint]
          else
            match findTrianglePath fuel startTriangle targetTriangle with
            | None => None
            | Some [] =>
                if isNeighbor startTriangle targetTriangle
                then Some [a; targetPoint]
                else Some []
            | Some trianglePath =>
                let fullTrianglePath := startTriangle :: trianglePath in
                match funnel a targetPoint fullTrianglePath with
                | None => None
                | Some path =>
                    if (0 <? length path)%nat
                       && negb (pointsEqual (List.last path a) targetPoint)
                    then Some (path ++ [targetPoint])
                    else Some path
                end
            end
      end
  end.

(** *** Helpers of the class that no other method calls *)

(** the loop of [simplifyPath], lines 832-836: [rest] holds [path[i]],
    [path[i + 1]], ... and the loop stops at the last point *)
Fixpoint simplifyLoop (simplified : list Point) (first : Point)
  (rest : list Point) : list Point :=
  match rest with
  | p :: (next :: _) as rest' =>
      simplifyLoop
        (if (Qabs (triArea2 (List.last simplified first) p next)
             >? (1 # 1000000))%num
         then simplified ++ [p] else simplified)
        first rest'
  | _ => simplified
  end.

(** [simplifyPath], lines 829-839 *)
Definition simplifyPath (path : list Point) : list Point :=
  if (length path <? 3)%nat then path
  else
    match path with
    | [] => path
    | first :: rest =>
        simplifyLoop [first] first rest ++ [List.last path first]
    end.

(** [getTriangleEdges], lines 841-844; an edge [{ p1, p2 }] is the pair
    [(p1, p2)] *)
Definition getTriangleEdges (triangle : TPolygon) : list (Point * Point) :=
  let '(p1, p2, p3) := mainTriangle triangle in
  [(p1, p2); (p2, p3); (p3, p1)].

(** [isSameEdge], lines 846-849 *)
Definition isSameEdge (edgeA : Point * Point) (edgeB : Portal) : bool :=
  (pointsEqual (fst edgeA) (pleft edgeB) && pointsEqual (snd edgeA) (pright edgeB))
  || (pointsEqual (fst edgeA) (pright edgeB) && pointsEqual (snd edgeA) (pleft edgeB)).

(** [segmentsIntersect], lines 851-862 *)
Definition segmentsIntersect (p1 q1 p2 q2 : Point) : bool :=
  let o1 := orientation p1 q1 p2 in
  let o2 := orientation p1 q1 q2 in
  let o3 := orientation p2 q2 p1 in
  let o4 := orientation p2 q2 q1 in
  if negb (o1 =? o2)%nat && negb (o3 =? o4)%nat then true else false.

End NavMesh2d.

(** ** Goal projection in the earlier variant *)

Module EarlyProjection.

Section EarlyProjection.

Context {provider : Provider}.

(** [findClosestPointInPolygon], lines 130-145: the nearest triangle centre *)
Definition findClosestPointInPolygon (target : Point) (polygon : Polygon)
  : Point :=
  fst (fold_left
         (fun (acc : Point * Num.ext) triangle =>
            let center := getTriangleCenter triangle in
            let distance := getDistanceSquared target center in
            if Num.lt_ext distance (snd acc)
            then (center, distance)
            else acc)
         (tpolygons polygon) (target, Num.Infinity)).

End EarlyProjection.

End EarlyProjection.

(** ** A concrete provider and small meshes *)

Module Sample.

Definition P (a b : Q) : Point := Point.new a b.

(** Modelled from the spec: [pointInTriangle] of poly-math-2d is not under
    src/; section 4.1 gives it by barycentric coordinates with the
    degenerate-denominator gate, which is the test the earlier variant
    carries in its own [isPointInTriangle]. *)
Definition baryPointInTriangle (p : Point) (t : Point * Point * Point) : bool :=
  Early.isPointInTriangle p t.

(** A rational stand-in for [Point.getDistanceQuick]; every search below has
    a single route, so the costs decide nothing. *)
Definition manhattan (p q : Point) : Q :=
  Qabs (Point.x p - Point.x q) + Qabs (Point.y p - Point.y q).

(** Modelled from the spec: [Point.getDistanceSquared] of poly-math-2d is not
    under src/; section 6.1 names it as the squared Euclidean distance of
    two points.  As a double it is [Infinity] beyond the range. *)
Definition euclidean (p q : Point) : Num.ext :=
  Num.ofExact (Point.squaredDistance p q).

(** Triangles 0 and 1 split the square [0,10] x [0,10] along its diagonal and
    are neighbours of each other.  Triangle 2 has the vertices of triangle
    0; triangle 3 touches it at the single vertex (0,10) and the two are
    nevertheless listed as neighbours (broken neighbour data).  Triangles 4
    to 9 cover an L-shaped hexagon with its inner corner at (10,10). *)
Definition vertices (t : nat) : Point * Point * Point :=
  match t with
  | 0%nat => (P 0 0, P 10 0, P 0 10)
  | 1%nat => (P 10 0, P 10 10, P 0 10)
  | 2%nat => (P 0 0, P 10 0, P 0 10)
  | 3%nat => (P 0 10, P 10 20, P (-10) 20)
  | 4%nat => (P 10 0, P 20 0, P 20 10)
  | 5%nat => (P 10 0, P 20 10, P 10 10)
  | 6%nat => (P 0 0, P 10 0, P 10 10)
  | 7%nat => (P 0 0, P 10 10, P 0 10)
  | 8%nat => (P 0 10, P 10 10, P 10 20)
  | _ => (P 0 10, P 10 20, P 0 20)
  end.

Definition centroid (t : nat) : Point :=
  match t with
  | 0%nat => P (10 # 3) (10 # 3)
  | 1%nat => P (20 # 3) (20 # 3)
  | 2%nat => P (10 # 3) (10 # 3)
  | 3%nat => P 0 (50 # 3)
  | 4%nat => P (50 # 3) (10 # 3)
  | 5%nat => P (40 # 3) (20 # 3)
  | 6%nat => P (20 # 3) (10 # 3)
  | 7%nat => P (10 # 3) (20 # 3)
  | 8%nat => P (20 # 3) (40 # 3)
  | _ => P (10 # 3) (50 # 3)
  end.

Definition neighbors (t : nat) : list nat :=
  match t with
  | 0%nat => [1%nat]
  | 1%nat => [0%nat]
  | 2%nat => [3%nat]
  | 3%nat => [2%nat]
  | 4%nat => [5%nat]
  | 5%nat => [4%nat; 6%nat]
  | 6%nat => [5%nat; 7%nat]
  | 7%nat => [6%nat; 8%nat]
  | 8%nat => [7%nat; 9%nat]
  | _ => [8%nat]
  end.

#[export] Instance provider : Provider := {|
  TPolygon := nat;
  TPolygon_eq_dec := Nat.eq_dec;
  mainTriangle := vertices;
  centerPoint := centroid;
  connections := neighbors;
  getDistanceQuick := manhattan;
  getDistanceSquared := euclidean;
  pointInTriangle := baryPointInTriangle
|}.

Definition squareRing : list Point := [P 0 0; P 10 0; P 10 10; P 0 10].

(** the square, triangulated by triangles 0 and 1 *)
Definition square : Polygon := mkPolygon squareRing [] [0%nat; 1%nat].
Definition squareMesh : NavMesh2d := newNavMesh2d {| polygons := [square] |}.

(** triangles 2 and 3 *)
Definition bowtie : Polygon :=
  mkPolygon [P 0 0; P 10 0; P 0 10; P 10 20; P (-10) 20] [] [2%nat; 3%nat].
Definition bowtieMesh : NavMesh2d := newNavMesh2d {| polygons := [bowtie] |}.

(** the L-shaped hexagon *)
Definition ell : Polygon :=
  mkPolygon [P 0 0; P 20 0; P 20 10; P 10 10; P 10 20; P 0 20] []
            [4%nat; 5%nat; 6%nat; 7%nat; 8%nat; 9%nat].
Definition ellMesh : NavMesh2d := newNavMesh2d {| polygons := [ell] |}.

(** the rings of a square with a square hole (no triangles are listed: only
    the goal projection is run on it) *)
Definition holed : Polygon :=
  mkPolygon [P 0 0; P 50 0; P 50 50; P 0 50]
            [mkPolygon [P 15 15; P 35 15; P 35 35; P 15 35] [] []]
            [].

(** the ring of a strip of height 4 that reaches from x = -4 to x = 2^520
    (no triangles are listed either) *)
Definition strip : Polygon :=
  mkPolygon [P (-4) 0; P (inject_Z (2 ^ 520)) 0; P (inject_Z (2 ^ 520)) 4;
             P (-4) 4]
            [] [].

End Sample.

(** ** The portals and the funnel in the earlier variant

    Lines 226-324 of the source have the text of lines 726-824; they call
    [triArea2] and [pointsEqual] of the earlier variant (lines 373-383). *)

Module EarlyFunnel.

Section EarlyFunnel.

Context {provider : Provider}.

(** the array [sharedPoints] of lines 303-310 *)
Definition sharedPoints (triangle1 triangle2 : TPolygon) : list Point :=
  let '(a1, b1, c1) := mainTriangle triangle1 in
  let '(a2, b2, c2) := mainTriangle triangle2 in
  filter (fun p1 => existsb (Early.pointsEqual p1) [a2; b2; c2]) [a1; b1; c1].

(** [getSharedEdge], lines 297-324 *)
Definition getSharedEdge (triangle1 triangle2 : TPolygon) : option Portal :=
  match sharedPoints triangle1 triangle2 with
  | [s0; s1] =>
      let center1 := getTriangleCenter triangle1 in
      let cross := Early.triArea2 center1 s0 s1 in
      if (cross >? 0)%num
      then Some {| pleft := s0; pright := s1 |}
      else Some {| pleft := s1; pright := s0 |}
  | _ => None
  end.

(** [getPortalEdges], lines 288-295 *)
Fixpoint getPortalEdges (trianglePath : list TPolygon) : list Portal :=
  match trianglePath with
  | t1 :: (t2 :: _) as rest =>
      match getSharedEdge t1 t2 with
      | Some sharedEdge => sharedEdge :: getPortalEdges rest
      | None => getPortalEdges rest
      end
  | _ => []
  end.

(** the body of the [for] loop, lines 243-278 *)
Definition funnelBody (i : Z) (portal : Portal) (st : FunnelState)
  : Z * FunnelState :=
  let pLeft := pleft portal in
  let pRight := pright portal in
  let afterRight : option FunnelState :=
    if (Early.triArea2 (apex st) (right st) pRight <=? 0)%num then
      if Early.pointsEqual (apex st) (right st)
         || (Early.triArea2 (apex st) (left st) pRight >? 0)%num
      then Some {| path := path st; apex := apex st; apexIndex := apexIndex st;
                   left := left st; leftIndex := leftIndex st;
                   right := pRight; rightIndex := i |}
      else None
    else Some st in
  match afterRight with
  | None => (leftIndex st, restartAt st (left st) (leftIndex st))
  | Some st1 =>
      if (Early.triArea2 (apex st1) (left st1) pLeft >=? 0)%num then
        if Early.pointsEqual (apex st1) (left st1)
           || (Early.triArea2 (apex st1) (right st1) pLeft <? 0)%num
        then (i, {| path := path st1; apex := apex st1;
                    apexIndex := apexIndex st1;
                    left := pLeft; leftIndex := i;
                    right := right st1; rightIndex := rightIndex st1 |})
        else (rightIndex st1, restartAt st1 (right st1) (rightIndex st1))
      else (i, st1)
  end.

(** the [for] loop, lines 242-279 *)
Fixpoint funnelLoop (fuel : nat) (portals : list Portal) (i : Z)
  (st : FunnelState) : option FunnelState :=
  match fuel with
  | O => None
  | S fuel' =>
      if (i <? Z.of_nat (length portals))%Z then
        if (i <? 0)%Z then None
        else
          match nth_error portals (Z.to_nat i) with
          | None => None
          | Some portal =>
              let '(i', st') := funnelBody i portal st in
              funnelLoop fuel' portals (i' + 1)%Z st'
          end
      else Some st
  end.

(** [funnel] on the portal list, lines 230-285 *)
Definition funnelOn (fuel : nat) (start end_ : Point) (portals0 : list Portal)
  : option (list Point) :=
  let st := {| path := [start];
               apex := start; apexIndex := (-1)%Z;
               left := start; leftIndex := (-1)%Z;
               right := start; rightIndex := (-1)%Z |} in
  let portals := portals0 ++ [{| pleft := end_; pright := end_ |}] in
  match funnelLoop fuel portals 0%Z st with
  | None => None
  | Some st' =>
      if negb (Early.pointsEqual (List.last (path st') start) end_)
      then Some (path st' ++ [end_])
      else Some (path st')
  end.

(** [funnel], lines 226-286; the guard [if (!portals)] of line 228 is never
    taken, as in the later variant *)
Definition funnel (start end_ : Point) (trianglePath : list TPolygon)
  : option (list Point) :=
  let portals := getPortalEdges trianglePath in
  funnelOn (funnelFuel (S (length portals))) start end_ portals.

End EarlyFunnel.

End EarlyFunnel.

(** ** The query in the earlier variant *)

Module EarlyQuery.

Section EarlyQuery.

Context {provider : Provider}.

(** [isPointInTriangle], lines 46-57 *)
Definition isPointInTriangle (point : Point) (triangle : TPolygon) : bool :=
  Early.isPointInTriangle point (mainTriangle triangle).

(** [findTriangleContainingPoint], lines 62-69 *)
Definition findTriangleContainingPoint (nm : NavMesh2d) (point : Point)
  : option TPolygon :=
  find (isPointInTriangle point) (triangles nm).

(** [isPointInNavMesh], lines 74-76 *)
Definition isPointInNavMesh (nm : NavMesh2d) (point : Point) : bool :=
  match findTriangleContainingPoint nm point with
  | Some _ => true
  | None => false
  end.

(** [(targetPoint, targetTriangle)] as lines 87-103 of [findPath] leave
    them; [None] where the source returns the empty path. *)
Definition resolveTarget (nm : NavMesh2d) (b : Point) (startTriangle : TPolygon)
  : option (Point * TPolygon) :=
  match findTriangleContainingPoint nm b with
  | Some endTriangle => Some (b, endTriangle)
  | None =>
      match findStartPolygon nm startTriangle with
      | None => None
      | Some startPolygon =>
          let targetPoint :=
            EarlyProjection.findClosestPointInPolygon b startPolygon in
          match findTriangleContainingPoint nm targetPoint with
          | None => None
          | Some targetTriangle => Some (targetPoint, targetTriangle)
          end
      end
  end.

(** [findPath], lines 81-125; [fuel] bounds the iterations of the A* loop *)
Definition findPath (fuel : nat) (nm : NavMesh2d) (a b : Point)
  : option (list Point) :=
  match findTriangleContainingPoint nm a with
  | None => Some []
  | Some startTriangle =>
      match resolveTarget nm b startTriangle with
      | None => Some []
      | Some (targetPoint, targetTriangle) =>
          if same startTriangle targetTriangle then Some [a; targetPoint]
          else
            match findTrianglePath fuel startTriangle targetTriangle with
            | None => None
            | Some [] =>
                if isNeighbor startTriangle targetTriangle
                then Some [a; targetPoint]
                else Some []
            | Some trianglePath =>
                EarlyFunnel.funnel a targetPoint (startTriangle :: trianglePath)
            end
      end
  end.

End EarlyQuery.

End EarlyQuery.

(** ** The numeric kernels on doubles

    A JavaScript number is an IEEE 754 binary64 value, and so is a primitive
    float of Rocq: the operations below round to nearest, ties to even, and
    have the infinities and NaN of the source.  This module embeds over them
    the functions whose answers turn on rounding and overflow:
    [pointsEqual], [triArea2] and the loop of [funnel], which has the same
    text in both variants. *)

#[local] Set Warnings "-inexact-float".

Module Double.

Import PrimFloat.
#[local] Open Scope float_scope.

Record Point : Type := new { x : float; y : float }.

(** [triArea2], lines 873-875 *)
Definition triArea2 (a b c : Point) : float :=
  (x c - x a) * (y b - y a) - (x b - x a) * (y c - y a).

(** [const epsilon = 1e-9]: the double nearest to one billionth *)
Definition epsilon : float := 1e-9.

(** [pointsEqual], lines 877-880 *)
Definition pointsEqual (p1 p2 : Point) : bool :=
  (abs (x p1 - x p2) <? epsilon) && (abs (y p1 - y p2) <? epsilon).

(** [pointsEqual] of the earlier variant, lines 380-383 *)
Definition Early_pointsEqual (p1 p2 : Point) : bool :=
  (abs (x p1 - x p2) <? 1e-10) && (abs (y p1 - y p2) <? 1e-10).

Record Portal : Type := mkPortal { pleft : Point; pright : Point }.

Record FunnelState : Type := {
  path : list Point;
  apex : Point;
  apexIndex : Z;
  left : Point;
  leftIndex : Z;
  right : Point;
  rightIndex : Z
}.

(** the restart of lines 751-758 and 768-775 *)
Definition restartAt (st : FunnelState) (p : Point) (index : Z) : FunnelState :=
  {| path := path st ++ [p];
     apex := p; apexIndex := index;
     left := p; leftIndex := index;
     right := p; rightIndex := index |}.

(** the body of the [for] loop, lines 743-778 *)
Definition funnelBody (i : Z) (portal : Portal) (st : FunnelState)
  : Z * FunnelState :=
  let pLeft := pleft portal in
  let pRight := pright portal in
  let afterRight : option FunnelState :=
    if triArea2 (apex st) (right st) pRight <=? 0 then
      if pointsEqual (apex st) (right st)
         || (0 <? triArea2 (apex st) (left st) pRight)
      then Some {| path := path st; apex := apex st; apexIndex := apexIndex st;
                   left := left st; leftIndex := leftIndex st;
                   right := pRight; rightIndex := i |}
      else None
    else Some st in
  match afterRight with
  | None => (leftIndex st, restartAt st (left st) (leftIndex st))
  | Some st1 =>
      if 0 <=? triArea2 (apex st1) (left st1) pLeft then
        if pointsEqual (apex st1) (left st1)
           || (triArea2 (apex st1) (right st1) pLeft <? 0)
        then (i, {| path := path st1; apex := apex st1;
                    apexIndex := apexIndex st1;
                    left := pLeft; leftIndex := i;
                    right := right st1; rightIndex := rightIndex st1 |})
        else (rightIndex st1, restartAt st1 (right st1) (rightIndex st1))
      else (i, st1)
  end.

(** the [for] loop, lines 742-779; [None] when the iterations allowed by
    [fuel] are used up, or when [portals[i]] is read at a negative index *)
Fixpoint funnelLoop (fuel : nat) (portals : list Portal) (i : Z)
  (st : FunnelState) : option FunnelState :=
  match fuel with
  | O => None
  | S fuel' =>
      if (i <? Z.of_nat (length portals))%Z then
        if (i <? 0)%Z then None
        else
          match nth_error portals (Z.to_nat i) with
          | None => None
          | Some portal =>
              let '(i', st') := funnelBody i portal st in
              funnelLoop fuel' portals (i' + 1)%Z st'
          end
      else Some st
  end.

(** [funnel] on the portal list, lines 730-785, with [fuel] iterations *)
Definition funnelOn (fuel : nat) (start end_ : Point) (portals0 : list Portal)
  : option (list Point) :=
  let st := {| path := [start];
               apex := start; apexIndex := (-1)%Z;
               left := start; leftIndex := (-1)%Z;
               right := start; rightIndex := (-1)%Z |} in
  let portals := portals0 ++ [{| pleft := end_; pright := end_ |}] in
  match funnelLoop fuel portals 0%Z st with
  | None => None
  | Some st' =>
      if negb (pointsEqual (List.last (path st') start) end_)
      then Some (path st' ++ [end_])
      else Some (path st')
  end.

End Double.

(** Portal lists for the loop on doubles. *)
Module DoubleSample.

Import PrimFloat.
#[local] Open Scope float_scope.

(** the portals of the corridor of triangles 4 to 9 of the L-shaped mesh *)
Definition ellPortals : list Double.Portal :=
  [ {| Double.pleft := Double.new 10 0; Double.pright := Double.new 20 10 |};
    {| Double.pleft := Double.new 10 0; Double.pright := Double.new 10 10 |};
    {| Double.pleft := Double.new 0 0; Double.pright := Double.new 10 10 |};
    {| Double.pleft := Double.new 0 10; Double.pright := Double.new 10 10 |};
    {| Double.pleft := Double.new 0 10; Double.pright := Double.new 10 20 |} ].

(** a start and a portal end that are 2e308 apart *)
Definition farStart : Double.Point := Double.new (-1e308) 0.
Definition farEnd : Double.Point := Double.new 0 0.
Definition farPortal : Double.Portal :=
  {| Double.pleft := Double.new 1e308 1; Double.pright := Double.new 0 (-1) |}.


(** the portal list of that portal, with the portal appended for the goal *)
Definition farPortals : list Double.Portal :=
  [farPortal; {| Double.pleft := farEnd; Double.pright := farEnd |}].

End DoubleSample.

(** * The vocabulary of the statements *)

(** The sign convention of the specification,
    [(b.x - a.x)(c.y - a.y) - (c.x - a.x)(b.y - a.y)]: it is [triArea2] of the
    earlier variant and the opposite of [triArea2] of the later one. *)
Definition signedArea2 (a b c : Point) : Q := Early.triArea2 a b c.

(** [r] lies on the closed segment from [a] to [b]. *)
Definition onSegment (r a b : Point) : Prop :=
  exists t : Q,
    0 <= t /\ t <= 1
    /\ Point.x r == Point.x a + t * (Point.x b - Point.x a)
    /\ Point.y r == Point.y a + t * (Point.y b - Point.y a).

(** ** The funnel *)

(** the state in which the loop is entered *)
Definition initialFunnel (start : Point) : FunnelState :=
  {| path := [start];
     apex := start; apexIndex := (-1)%Z;
     left := start; leftIndex := (-1)%Z;
     right := start; rightIndex := (-1)%Z |}.

(** the portal appended for the goal *)
Definition sentinel (end_ : Point) : Portal :=
  {| pleft := end_; pright := end_ |}.

(** [q] is the start, the end, or an end of one of the portals *)
Definition givenPoint (start end_ : Point) (portals0 : list Portal)
  (q : Point) : Prop :=
  q = start \/ q = end_
  \/ exists portal, In portal portals0 /\ (q = pleft portal \/ q = pright portal).

(** The points the funnel holds are points it was given. *)
Definition heldFrom (ok : Point -> Prop) (st : FunnelState) : Prop :=
  ok (apex st) /\ ok (left st) /\ ok (right st) /\ Forall ok (path st).

(** Between two restarts both sides of the funnel are set at portals after
    the apex; right after a restart both sides sit on the apex. *)
Definition progress (i : Z) (st : FunnelState) : Prop :=
  (-1 <= apexIndex st)%Z /\
  ((left st = apex st /\ right st = apex st /\ i = (apexIndex st + 1)%Z)
   \/ (apexIndex st < leftIndex st < i /\ apexIndex st < rightIndex st < i)%Z).

(** The iterations still to come are bounded by this measure. *)
Definition remaining (portals : list Portal) (i : Z) (st : FunnelState) : Z :=
  let n := Z.of_nat (length portals) in
  ((n - 1 - apexIndex st) * (n + 1) + (n - i))%Z.

(** ** Goal projection *)

(** a point whose coordinates are at most [Num.bound] in magnitude *)
Definition inRange (p : Point) : bool :=
  ((Qabs (Point.x p) <=? Num.bound) && (Qabs (Point.y p) <=? Num.bound))%num.

Section ClosestBoundaryVocabulary.

Context {provider : Provider}.

(** the vertices of the outer ring and of every hole *)
Definition ringVertices (polygon : Polygon) : list Point :=
  points polygon ++ flat_map points (holes polygon).

(** On the points of [l] the library's squared distance from [p] is the
    Euclidean one, [Infinity] where it leaves the range of the doubles. *)
Definition euclideanOn (p : Point) (l : list Point) : Prop :=
  forall c, In c l ->
            getDistanceSquared p c = Num.ofExact (Point.squaredDistance p c).

Variable target : Point.

(** the closest points to [target] on the edges of a ring *)
Definition edgeProjections (ring : list Point) : list Point :=
  map (fun e => closestPointOnSegment target (fst e) (snd e)) (ringEdges ring).

(** the points [checkPoint] is called on, in the order of the calls *)
Definition checkedPoints (polygon : Polygon) : list Point :=
  points polygon
  ++ edgeProjections (points polygon)
  ++ flat_map (fun hole => edgeProjections (points hole)) (holes polygon).

(** the candidates the specification lists: the vertices of the outer ring
    and of every hole, and the projections on the edges of every ring *)
Definition boundaryCandidates (polygon : Polygon) : list Point :=
  points polygon
  ++ flat_map points (holes polygon)
  ++ edgeProjections (points polygon)
  ++ flat_map (fun hole => edgeProjections (points hole)) (holes polygon).

(** the edges of the outer ring and of the holes *)
Definition boundaryEdges (polygon : Polygon) : list (Point * Point) :=
  ringEdges (points polygon)
  ++ flat_map (fun hole => ringEdges (points hole)) (holes polygon).

(** [r] lies on an edge of the outer ring or of a hole *)
Definition onBoundary (polygon : Polygon) (r : Point) : Prop :=
  exists e, In e (boundaryEdges polygon) /\ onSegment r (fst e) (snd e).

(** [acc] is the running minimum over the points [seen]: a point of [seen]
    with its squared distance, which is finite and which that of no point
    of [seen] is below; or the pair the loop started from, when no point of
    [seen] is at a finite squared distance. *)
Definition nearestOf (seen : list Point) (acc : Point * Num.ext) : Prop :=
  match snd acc with
  | Num.Infinity =>
      fst acc = target
      /\ forall c, In c seen -> getDistanceSquared target c = Num.Infinity
  | Num.Fin m =>
      getDistanceSquared target (fst acc) = Num.Fin m
      /\ In (fst acc) seen
      /\ forall c, In c seen ->
                   Num.lt_ext (getDistanceSquared target c) (Num.Fin m) = false
  end.

End ClosestBoundaryVocabulary.

Section RayClipVocabulary.

Context {provider : Provider}.

Variables p1 q1 : Point.

(** the intersections of the segment from [p1] to [q1] with the edges of a
    ring, in the order of the loop *)
Definition ringIntersections (ring : list Point) : list Point :=
  flat_map (fun e => match getSegmentIntersectionPoint p1 q1 (fst e) (snd e) with
                     | Some intersection => [intersection]
                     | None => []
                     end)
           (ringEdges ring).

(** with the edges of the outer ring and of every hole ring *)
Definition edgeIntersections (polygon : Polygon) : list Point :=
  ringIntersections (points polygon)
  ++ flat_map (fun hole => ringIntersections (points hole)) (holes polygon).

(** [acc] is the running minimum over the intersections [seen] *)
Definition nearestHit (seen : list Point) (acc : Closest) : Prop :=
  match acc with
  | (None, Num.Infinity) =>
      forall c, In c seen -> getDistanceSquared p1 c = Num.Infinity
  | (Some r, Num.Fin m) =>
      getDistanceSquared p1 r = Num.Fin m
      /\ In r seen
      /\ forall c, In c seen ->
                   Num.lt_ext (getDistanceSquared p1 c) (Num.Fin m) = false
  | _ => False
  end.

End RayClipVocabulary.

(** ** The A* search *)

Section SearchVocabulary.

Context {provider : Provider}.

(** the parent of a node, when it has one, is a closed triangle *)
Definition parentIn (closed : list TPolygon) (n : PathNode) : Prop :=
  match parent n with
  | None => True
  | Some p => In p closed
  end.

(** [closed] lists the closed triangles, the latest first: each has a node
    whose parent was closed before it. *)
Inductive ranked (m : NodeMap) : list TPolygon -> Prop :=
| ranked_nil : ranked m []
| ranked_cons (c : TPolygon) (older : list TPolygon) (n : PathNode) :
    ranked m older -> getNode m c = Some n -> parentIn older n ->
    ranked m (c :: older).

Variable universe : list TPolygon.

(** [closed] are the closed triangles (latest first), [m] the node store and
    [open] the open set. *)
Definition searching (closed : list TPolygon) (m : NodeMap)
  (open : list TPolygon) : Prop :=
  NoDup open
  /\ (forall t, In t open -> ~ In t closed)
  /\ (forall t, In t open -> In t universe)
  /\ (forall t, In t open ->
                exists n, getNode m t = Some n /\ triangle n = t
                          /\ parentIn closed n)
  /\ ranked m closed
  /\ (length closed + length open = length m)%nat.

(** the invariant of the [while] loop *)
Definition wellSearched (st : AStarState) : Prop :=
  searching (closedSet st) (nodeMap st) (openSet st)
  /\ NoDup (closedSet st)
  /\ incl (closedSet st) universe.

(** every neighbour of a triangle of [l] is a triangle of [l] *)
Definition closedUnderConnections (l : list TPolygon)
  : bool :=
  forallb (fun t => forallb (includes l) (connections t)) l.

End SearchVocabulary.

(** ** Orientation and crossing *)

(** [orientation] with the first two points exchanged: clockwise and
    counterclockwise trade places *)
Definition flip (o : nat) : nat :=
  match o with 1%nat => 2%nat | 2%nat => 1%nat | _ => o end.

(** the cross product [rxs] of the directions of the two segments in
    [getSegmentIntersectionPoint] *)
Definition directionCross (p1 q1 p2 q2 : Point) : Q :=
  (Point.x q1 - Point.x p1) * (Point.y q2 - Point.y p2)
  - (Point.y q1 - Point.y p1) * (Point.x q2 - Point.x p2).

(** The segment from [p1] to [q1] and the edge [e] have the point [s] in
    common, and their directions are not parallel up to the tolerance of
    [getSegmentIntersectionPoint]. *)
Definition crosses (p1 q1 : Point) (e : Point * Point) (s : Point) : Prop :=
  1 # 100000000 <= Qabs (directionCross p1 q1 (fst e) (snd e))
  /\ onSegment s p1 q1 /\ onSegment s (fst e) (snd e).

(** ** Triangles and the graph of their connections *)

Section GraphVocabulary.

Context {provider : Provider}.

(** the three vertices of a triangle *)
Definition vertexList (triangle : TPolygon) : list Point :=
  let '(p1, p2, p3) := mainTriangle triangle in [p1; p2; p3].

(** [r] lies on one of the three edges of the triangle *)
Definition onTriangleEdge (r : Point) (triangle : TPolygon) : Prop :=
  let '(p1, p2, p3) := mainTriangle triangle in
  onSegment r p1 p2 \/ onSegment r p2 p3 \/ onSegment r p3 p1.

(** each triangle of [path] is a neighbour of the one before it, the first
    a neighbour of [from] *)
Fixpoint linked (from : TPolygon) (path : list TPolygon) : Prop :=
  match path with
  | [] => True
  | t :: rest => In t (connections from) /\ linked t rest
  end.

(** [t] can be reached from [s] by following connections *)
Inductive reachable (s : TPolygon) : TPolygon -> Prop :=
| reachable_here : reachable s s
| reachable_step (t u : TPolygon) :
    reachable s t -> In u (connections t) -> reachable s u.

(** every node is stored under its own triangle; the node without a parent
    is the start node, and the parent of any other node is a triangle it
    is a neighbour of *)
Definition nodesLinked (start : TPolygon) (m : NodeMap) : Prop :=
  forall t n, getNode m t = Some n ->
    triangle n = t
    /\ match parent n with
       | None => t = start
       | Some p => In t (connections p)
       end.

(** every triangle that has a node is open or closed, and every neighbour
    of a closed triangle is open or closed *)
Definition frontier (closed : list TPolygon) (m : NodeMap)
  (open : list TPolygon) : Prop :=
  (forall t n, getNode m t = Some n -> In t open \/ In t closed)
  /\ (forall c nb, In c closed -> In nb (connections c) ->
                   In nb closed \/ In nb open).

End GraphVocabulary.

(** The square and the L-shaped hexagon of the sample as two sheets of one
    mesh: no connection leads from one sheet to the other. *)
Definition twoSheets : NavMesh2d :=
  @newNavMesh2d Sample.provider {| polygons := [Sample.square; Sample.ell] |}.

(** ** The order of the waypoints *)

(** [p] is an end of the portal at index [k] *)
Definition atPortal (portals : list Portal) (k : Z) (p : Point) : Prop :=
  (0 <= k)%Z
  /\ exists portal, nth_error portals (Z.to_nat k) = Some portal
                    /\ (p = pleft portal \/ p = pright portal).

(** the points [pts] are ends of portals at indices that increase from
    above [k] up to at most [hi] *)
Fixpoint inPortalOrder (portals : list Portal) (k : Z) (pts : list Point)
  (hi : Z) : Prop :=
  match pts with
  | [] => (k <= hi)%Z
  | p :: rest =>
      exists j, (k < j)%Z /\ atPortal portals j p
                /\ inPortalOrder portals j rest hi
  end.

(** The path is the start followed by portal ends in the order of the
    portals, the last of them the apex; a side of the funnel that has left
    the apex sits on the portal of its index. *)
Definition trail (portals : list Portal) (start : Point) (st : FunnelState)
  : Prop :=
  (exists tl, path st = start :: tl
              /\ inPortalOrder portals (-1) tl (apexIndex st))
  /\ List.last (path st) start = apex st
  /\ (apexIndex st = (-1)%Z \/ atPortal portals (apexIndex st) (apex st))
  /\ ((apexIndex st < leftIndex st)%Z ->
      atPortal portals (leftIndex st) (left st))
  /\ ((apexIndex st < rightIndex st)%Z ->
      atPortal portals (rightIndex st) (right st)).

(** ** Straight corridors *)

(** [p] lies ahead of [start] in the direction of [end_] *)
Definition ahead (start end_ p : Point) : Prop :=
  0 < (Point.x p - Point.x start) * (Point.x end_ - Point.x start)
      + (Point.y p - Point.y start) * (Point.y end_ - Point.y start).

(** the segment from [start] to [end_] passes strictly between the ends of
    the portal: seen from [start], the left end is on the side of the goal
    that [triArea2] counts as positive, the right end on the other side,
    and both are ahead of [start] *)
Definition straddles (start end_ : Point) (portal : Portal) : Prop :=
  0 < triArea2 start (pleft portal) end_
  /\ 0 < triArea2 start end_ (pright portal)
  /\ ahead start end_ (pleft portal)
  /\ ahead start end_ (pright portal).

(** the funnel is open on [start] with both sides set on portals that the
    segment to [end_] passes through, and nothing has been emitted *)
Definition openOn (start end_ : Point) (st : FunnelState) : Prop :=
  path st = [start] /\ apex st = start
  /\ 0 < triArea2 start (left st) end_ /\ ahead start end_ (left st)
  /\ 0 < triArea2 start end_ (right st) /\ ahead start end_ (right st).

(** ** Path simplification *)

(** [kept] is [l] with some of its elements left out *)
Inductive keptFrom (A : Type) : list A -> list A -> Prop :=
| keptFrom_nil : keptFrom [] []
| keptFrom_keep (x : A) (kept l : list A) :
    keptFrom kept l -> keptFrom (x :: kept) (x :: l)
| keptFrom_drop (x : A) (kept l : list A) :
    keptFrom kept l -> keptFrom kept (x :: l).

(** [p] lies on the line through [origin] with direction [(dx, dy)] *)
Definition onLine (origin : Point) (dx dy : Q) (p : Point) : Prop :=
  exists t : Q,
    Point.x p == Point.x origin + t * dx
    /\ Point.y p == Point.y origin + t * dy.

(** ** The two variants of the funnel *)

(** a change of unit and a reflection: ten times the abscissa, minus ten
    times the ordinate *)
Definition mirror (p : Point) : Point :=
  Point.new (10 * Point.x p) (- (10 * Point.y p)).

Definition mirrorPortal (portal : Portal) : Portal :=
  {| pleft := mirror (pleft portal); pright := mirror (pright portal) |}.

Definition mirrorState (st : FunnelState) : FunnelState :=
  {| path := map mirror (path st);
     apex := mirror (apex st); apexIndex := apexIndex st;
     left := mirror (left st); leftIndex := leftIndex st;
     right := mirror (right st); rightIndex := rightIndex st |}.

(** the same triangles and connections, with every point mirrored *)
Definition mirrored (provider : Provider) : Provider :=
  {| TPolygon := @TPolygon provider;
     TPolygon_eq_dec := @TPolygon_eq_dec provider;
     mainTriangle := fun t =>
       let '(p1, p2, p3) := @mainTriangle provider t in
       (mirror p1, mirror p2, mirror p3);
     centerPoint := fun t => mirror (@centerPoint provider t);
     connections := @connections provider;
     getDistanceQuick := @getDistanceQuick provider;
     getDistanceSquared := @getDistanceSquared provider;
     pointInTriangle := @pointInTriangle provider |}.

(** ** The cost of a corridor *)

Section CostVocabulary.

Context {provider : Provider}.

(** the cost A* counts for the step from [u] to its neighbour [v] *)
Definition stepCost (u v : TPolygon) : Q :=
  getDistanceQuick (getTriangleCenter u) (getTriangleCenter v).

(** the cost of the chain that leaves [from] and goes through [path] *)
Fixpoint chainCost (from : TPolygon) (path : list TPolygon) : Q :=
  match path with
  | [] => 0
  | t :: rest => stepCost from t + chainCost t rest
  end.

(** the estimate [hCost] of the cost from [t] to the goal *)
Definition heuristic (end_ t : TPolygon) : Q :=
  getDistanceQuick (getTriangleCenter t) (getTriangleCenter end_).

(** the estimate obeys the triangle inequality along every connection *)
Definition consistent (end_ : TPolygon) : Prop :=
  forall u v, In v (connections u) ->
    heuristic end_ u <= stepCost u v + heuristic end_ v.

(** no chain from [start] to [c] costs less than [g] *)
Definition cheapestTo (start c : TPolygon) (g : Q) : Prop :=
  forall chain, linked start chain -> List.last chain start = c ->
                g <= chainCost start chain.

(** The state of the search: every node holds its triangle, its estimate
    and the sum of its costs; its [gCost] is the cost of the chain of its
    parents, which are closed; every node is open or closed; the [gCost] of
    a closed triangle is the least cost of a chain to it; every connection
    out of a closed triangle that is [done] leads to a closed triangle or
    to an open one whose [gCost] accounts for it; the start is closed, or
    open at cost 0. *)
Definition settled (start end_ : TPolygon) (closed : list TPolygon)
  (done : TPolygon -> TPolygon -> Prop) (m : NodeMap) (open : list TPolygon)
  : Prop :=
  (forall t n, getNode m t = Some n ->
     triangle n = t /\ hCost n = heuristic end_ t
     /\ fCost n = gCost n + hCost n)
  /\ (forall t n, getNode m t = Some n ->
        match parent n with
        | None => t = start /\ gCost n == 0
        | Some p =>
            In p closed /\ In t (connections p)
            /\ exists np, getNode m p = Some np
                          /\ gCost n == gCost np + stepCost p t
        end)
  /\ (forall t n, getNode m t = Some n -> In t open \/ In t closed)
  /\ (forall c, In c closed ->
        exists nc, getNode m c = Some nc /\ cheapestTo start c (gCost nc))
  /\ (forall c v, In c closed -> In v (connections c) -> done c v ->
        In v closed
        \/ (In v open
            /\ exists nc nv, getNode m c = Some nc /\ getNode m v = Some nv
                             /\ gCost nv <= gCost nc + stepCost c v))
  /\ (In start closed
      \/ (In start open
          /\ exists n, getNode m start = Some n /\ gCost n <= 0)).

End CostVocabulary.

(** ** Doubles *)

Module DoubleVocabulary.

Import PrimFloat SpecFloat FloatOps.

(** the value of a finite double as a rational; 0 stands for NaN and the
    infinities *)
Definition exact (f : float) : Q :=
  match Prim2SF f with
  | S754_finite s m e =>
      (if s then - inject_Z (Zpos m) else inject_Z (Zpos m)) * Qpower 2 e
  | _ => 0
  end.

(** the differences of the coordinates, from [a] to [c], are finite doubles *)
Definition finiteDifference (a c : Double.Point) : bool :=
  is_finite (Double.x c - Double.x a) && is_finite (Double.y c - Double.y a).

(** no difference of coordinates between two points of [pts] overflows *)
Definition tame (pts : list Double.Point) : bool :=
  forallb (fun a => forallb (finiteDifference a) pts) pts.

(** the ends of the portals *)
Definition portalEnds (portals : list Double.Portal) : list Double.Point :=
  flat_map (fun portal => [Double.pleft portal; Double.pright portal]) portals.

(** a double that is neither NaN nor an infinity *)
Definition regular (s : spec_float) : Prop :=
  match s with
  | S754_zero _ | S754_finite _ _ _ => True
  | _ => False
  end.

(** a zero of either sign *)
Definition isZero (s : spec_float) : Prop :=
  match s with
  | S754_zero _ => True
  | _ => False
  end.

(** [progress] and [remaining] on the states of the loop on doubles *)
Definition progress (i : Z) (st : Double.FunnelState) : Prop :=
  (-1 <= Double.apexIndex st)%Z /\
  ((Double.left st = Double.apex st /\ Double.right st = Double.apex st
    /\ i = (Double.apexIndex st + 1)%Z)
   \/ (Double.apexIndex st < Double.leftIndex st < i
       /\ Double.apexIndex st < Double.rightIndex st < i)%Z).

Definition remaining (portals : list Double.Portal) (i : Z)
  (st : Double.FunnelState) : Z :=
  let n := Z.of_nat (length portals) in
  ((n - 1 - Double.apexIndex st) * (n + 1) + (n - i))%Z.

(** the points the loop holds are among [pts] *)
Definition holds (pts : list Double.Point) (st : Double.FunnelState) : Prop :=
  In (Double.apex st) pts /\ In (Double.left st) pts /\ In (Double.right st) pts.

(** the two states between which the loop goes to and fro on the portal
    list of [DoubleSample.farPortal], whatever the path is *)
Definition turning (i : Z) (st : Double.FunnelState) : Prop :=
  Double.apex st = DoubleSample.farStart /\ Double.apexIndex st = (-1)%Z
  /\ Double.left st = DoubleSample.farStart /\ Double.leftIndex st = (-1)%Z
  /\ ((i = 0%Z /\ Double.right st = DoubleSample.farStart
       /\ Double.rightIndex st = (-1)%Z)
      \/ (i = 1%Z /\ Double.right st = Double.pright DoubleSample.farPortal
          /\ Double.rightIndex st = 0%Z)).

End DoubleVocabulary.

(** * Properties *)

(** ** Comparisons *)

Lemma ltb_lt (a b : Q) : (a <? b)%num = true <-> a < b.
Proof.
  unfold Num.ltb. rewrite Qlt_alt.
  destruct (a ?= b); split; intro H; try reflexivity; discriminate H.
Qed.

Lemma ltb_ge (a b : Q) : (a <? b)%num = false <-> b <= a.
Proof.
  split; intro H.
  - apply Qnot_lt_le. intro L. apply ltb_lt in L. congruence.
  - destruct (a <? b)%num eqn:E; [|reflexivity].
    apply ltb_lt in E. exfalso. apply (Qlt_not_le _ _ E H).
Qed.

Lemma leb_le (a b : Q) : (a <=? b)%num = true <-> a <= b.
Proof.
  unfold Num.leb. rewrite Qle_alt.
  destruct (a ?= b); split; intro H; try reflexivity;
    try discriminate H; try (intro K; discriminate K).
  exfalso. apply H. reflexivity.
Qed.

Lemma leb_gt (a b : Q) : (a <=? b)%num = false <-> b < a.
Proof.
  split; intro H.
  - apply Qnot_le_lt. intro L. apply leb_le in L. congruence.
  - destruct (a <=? b)%num eqn:E; [|reflexivity].
    apply leb_le in E. exfalso. apply (Qlt_not_le _ _ H E).
Qed.

Lemma gtb_gt (a b : Q) : (a >? b)%num = true <-> b < a.
Proof. apply ltb_lt. Qed.

Lemma gtb_le (a b : Q) : (a >? b)%num = false <-> a <= b.
Proof. apply ltb_ge. Qed.

Lemma geb_ge (a b : Q) : (a >=? b)%num = true <-> b <= a.
Proof. apply leb_le. Qed.

Lemma geb_lt (a b : Q) : (a >=? b)%num = false <-> a < b.
Proof. apply leb_gt. Qed.

Lemma eqb_eq (a b : Q) : Num.eqb a b = true <-> a == b.
Proof.
  unfold Num.eqb. rewrite Qeq_alt.
  destruct (a ?= b); split; intro H; try reflexivity; discriminate H.
Qed.

Lemma eqb_neq (a b : Q) : Num.eqb a b = false <-> ~ a == b.
Proof.
  rewrite <- eqb_eq. destruct (Num.eqb a b); split; intro H;
    try reflexivity; try discriminate H; try (intro K; discriminate K).
  exfalso. apply H. reflexivity.
Qed.

(** ** Point equality *)

Lemma pointsEqual_true (p q : Point) :
  pointsEqual p q = true <->
  Qabs (Point.x p - Point.x q) < epsilon /\
  Qabs (Point.y p - Point.y q) < epsilon.
Proof.
  unfold pointsEqual. rewrite andb_true_iff, !ltb_lt. reflexivity.
Qed.

(** In exact arithmetic the earlier variant tells points apart with a
    tolerance ten times smaller. *)
Lemma Early_pointsEqual_iff (p q : Point) :
  Early.pointsEqual p q = true <->
  Qabs (Point.x p - Point.x q) < 1 # 10000000000 /\
  Qabs (Point.y p - Point.y q) < 1 # 10000000000.
Proof.
  unfold Early.pointsEqual, Early.epsilon.
  rewrite andb_true_iff, !ltb_lt. reflexivity.
Qed.

Lemma pointsEqual_refl (p : Point) : pointsEqual p p = true.
Proof.
  apply pointsEqual_true. unfold epsilon.
  assert (E : forall a : Q, Qabs (a - a) < 1 # 1000000000).
  { intro a. apply Qabs_Qlt_condition. split; lra. }
  split; apply E.
Qed.

Lemma triArea2_apex_twice (a c : Point) : triArea2 a a c == 0.
Proof. unfold triArea2. ring. Qed.

Lemma triArea2_Early (a b c : Point) :
  triArea2 a b c == - Early.triArea2 a b c.
Proof. unfold triArea2, Early.triArea2. ring. Qed.

(** ** The funnel loop *)

Section FunnelLoop.

Variable portals : list Portal.

(** Case analysis on the branches of [funnelBody]. *)
Ltac body_cases :=
  unfold funnelBody, restartAt;
  repeat match goal with
         | |- context [if ?c then _ else _] => destruct c eqn:?
         end; cbn [fst snd path apex apexIndex left leftIndex right rightIndex].

(** An invariant of the state that every pass through the body preserves
    holds when the loop is left. *)
Lemma funnelLoop_preserves (I : FunnelState -> Prop) :
  (forall i portal st, In portal portals -> I st ->
                       I (snd (funnelBody i portal st))) ->
  forall fuel i st st',
    I st -> funnelLoop fuel portals i st = Some st' -> I st'.
Proof.
  intros Hbody. induction fuel as [|fuel IH]; intros i st st' HI Hrun.
  - discriminate Hrun.
  - cbn [funnelLoop] in Hrun.
    destruct (i <? Z.of_nat (length portals))%Z.
    + destruct (i <? 0)%Z; [discriminate Hrun|].
      destruct (nth_error portals (Z.to_nat i)) as [portal|] eqn:Hnth;
        [|discriminate Hrun].
      specialize (Hbody i portal st (nth_error_In _ _ Hnth) HI).
      destruct (funnelBody i portal st) as [i' st1].
      exact (IH _ _ _ Hbody Hrun).
    + injection Hrun as <-. exact HI.
Qed.

(** The body only appends to [path]. *)
Lemma funnelBody_path (i : Z) (portal : Portal) (st : FunnelState) :
  let st' := snd (funnelBody i portal st) in
  path st' = path st
  \/ path st' = path st ++ [left st]
  \/ path st' = path st ++ [pright portal]
  \/ path st' = path st ++ [right st].
Proof.
  body_cases; auto.
Qed.


Lemma funnelBody_heldFrom (ok : Point -> Prop) i portal st :
  ok (pleft portal) -> ok (pright portal) ->
  heldFrom ok st -> heldFrom ok (snd (funnelBody i portal st)).
Proof.
  intros HL HR (Ha & Hl & Hr & Hp). unfold heldFrom.
  body_cases; repeat split; auto;
    apply Forall_app; split; auto.
Qed.

Lemma funnelLoop_heldFrom (ok : Point -> Prop) :
  (forall portal, In portal portals -> ok (pleft portal) /\ ok (pright portal)) ->
  forall fuel i st st',
    heldFrom ok st -> funnelLoop fuel portals i st = Some st' ->
    heldFrom ok st'.
Proof.
  intros Hok. apply funnelLoop_preserves.
  intros i portal st Hin Hst. destruct (Hok portal Hin).
  now apply funnelBody_heldFrom.
Qed.

(** The path keeps its first point. *)
Lemma funnelLoop_head (start : Point) :
  forall fuel i st st',
    (exists tl, path st = start :: tl) ->
    funnelLoop fuel portals i st = Some st' ->
    exists tl, path st' = start :: tl.
Proof.
  apply (funnelLoop_preserves (fun st => exists tl, path st = start :: tl)).
  intros i portal st _ [tl Htl].
  destruct (funnelBody_path i portal st) as [E|[E|[E|E]]];
    cbv zeta in E; rewrite E, Htl; cbn [app]; eauto.
Qed.

(** *** Termination *)


Lemma le0_of_eq0 (q : Q) : q == 0 -> (q <=? 0)%num = true.
Proof. intro H. apply leb_le. rewrite H. apply Qle_refl. Qed.

Lemma ge0_of_eq0 (q : Q) : q == 0 -> (q >=? 0)%num = true.
Proof. intro H. apply geb_ge. rewrite H. apply Qle_refl. Qed.

Lemma funnelBody_progress (i : Z) (portal : Portal) (st : FunnelState) :
  progress i st ->
  let '(i', st') := funnelBody i portal st in
  progress (i' + 1) st' /\
  ((i' = i /\ apexIndex st' = apexIndex st)
   \/ (apexIndex st < apexIndex st' <= i /\ i' = apexIndex st')%Z).
Proof.
  intros [Hlow [(HL & HR & Hi)|(HL & HR)]].
  - (* just restarted: the body tightens both sides and goes on *)
    unfold funnelBody.
    rewrite HR, HL.
    rewrite (le0_of_eq0 (triArea2_apex_twice _ _)), pointsEqual_refl.
    cbn [orb apex left right].
    rewrite (ge0_of_eq0 (triArea2_apex_twice _ _)), pointsEqual_refl.
    cbn [orb]. unfold progress.
    cbn [apexIndex leftIndex rightIndex left right apex].
    split; [split; [assumption|right; lia]|left; split; reflexivity].
  - unfold progress. body_cases; (split; [split; [lia|]|]);
      try (left; repeat split; reflexivity);
      try (right; lia);
      try (left; split; [reflexivity|lia]);
      try (left; split; reflexivity).
Qed.


Lemma funnelLoop_enough_fuel :
  forall fuel i st,
    progress i st ->
    (i <= Z.of_nat (length portals))%Z ->
    (remaining portals i st < Z.of_nat fuel)%Z ->
    exists st', funnelLoop fuel portals i st = Some st'.
Proof.
  induction fuel as [|fuel IH]; intros i st Hp Hi Hfuel.
  - exfalso. unfold remaining in Hfuel.
    destruct Hp as [Hlow [(_ & _ & E)|(HL & _)]]; nia.
  - cbn [funnelLoop].
    destruct (i <? Z.of_nat (length portals))%Z eqn:Hlt.
    + apply Z.ltb_lt in Hlt.
      assert (0 <= i)%Z as Hi0
          by (destruct Hp as [Hlow [(_ & _ & E)|(HL & _)]]; lia).
      destruct (i <? 0)%Z eqn:Hneg; [apply Z.ltb_lt in Hneg; lia|].
      destruct (nth_error portals (Z.to_nat i)) as [portal|] eqn:Hnth.
      * pose proof (@funnelBody_progress i portal st Hp) as Hstep.
        destruct (funnelBody i portal st) as [i' st1].
        destruct Hstep as [Hp' Hcase].
        apply IH; [assumption| |].
        -- destruct Hcase as [[-> _]|[? ->]]; lia.
        -- unfold remaining in *.
           destruct Hcase as [[-> ->]|[? ->]]; [lia|].
           destruct Hp as [Hlow _]. nia.
      * exfalso. apply nth_error_None in Hnth. lia.
    + eauto.
Qed.

(** More fuel than needed does not change the result. *)
Lemma funnelLoop_more_fuel :
  forall fuel i st st',
    funnelLoop fuel portals i st = Some st' ->
    forall fuel', (fuel <= fuel')%nat ->
                  funnelLoop fuel' portals i st = Some st'.
Proof.
  induction fuel as [|fuel IH]; intros i st st' Hrun fuel' Hle.
  - discriminate Hrun.
  - destruct fuel' as [|fuel']; [lia|].
    cbn [funnelLoop] in *.
    destruct (i <? Z.of_nat (length portals))%Z; [|assumption].
    destruct (i <? 0)%Z; [discriminate Hrun|].
    destruct (nth_error portals (Z.to_nat i)); [|discriminate Hrun].
    destruct (funnelBody i p st) as [i' st1].
    apply (IH _ _ _ Hrun). lia.
Qed.

End FunnelLoop.

(** ** The funnel *)

Section FunnelProperties.

Context {provider : Provider}.

(** [funnelOn] is the loop followed by the closing test on the goal. *)
Lemma funnelOn_unfold fuel start end_ portals0 :
  funnelOn fuel start end_ portals0 =
  match funnelLoop fuel (portals0 ++ [sentinel end_]) 0%Z (initialFunnel start) with
  | None => None
  | Some st' =>
      if negb (pointsEqual (List.last (path st') start) end_)
      then Some (path st' ++ [end_])
      else Some (path st')
  end.
Proof. reflexivity. Qed.

Lemma initialFunnel_progress (start : Point) : progress 0 (initialFunnel start).
Proof.
  unfold progress, initialFunnel; cbn. split; [lia|left; auto].
Qed.

(** In exact arithmetic [triArea2 a a c] is 0, every restart sets both
    sides of the funnel again and the loop moves on: the budget of
    [funnelFuel] is never what stops the funnel of this model.  What the
    loop does on doubles is the subject of the last part of the file. *)
Lemma funnelLoop_total (start end_ : Point) (portals0 : list Portal) :
  exists st',
    forall extra,
      funnelLoop (funnelFuel (S (length portals0)) + extra)
                 (portals0 ++ [sentinel end_]) 0%Z (initialFunnel start)
      = Some st'.
Proof.
  destruct (@funnelLoop_enough_fuel (portals0 ++ [sentinel end_])
              (funnelFuel (S (length portals0))) 0%Z (initialFunnel start))
    as [st' Hst'].
  - apply initialFunnel_progress.
  - lia.
  - unfold remaining, funnelFuel, initialFunnel; cbn [apexIndex].
    rewrite length_app; cbn [length]. lia.
  - exists st'. intro extra.
    apply (funnelLoop_more_fuel _ _ _ Hst'). lia.
Qed.

Lemma funnelOn_total (start end_ : Point) (portals0 : list Portal) :
  exists result,
    forall extra,
      funnelOn (funnelFuel (S (length portals0)) + extra) start end_ portals0
      = Some result.
Proof.
  destruct (funnelLoop_total start end_ portals0) as [st' Hst'].
  exists (if negb (pointsEqual (List.last (path st') start) end_)
          then path st' ++ [end_] else path st').
  intro extra. rewrite funnelOn_unfold, Hst'.
  destruct (negb _); reflexivity.
Qed.

Lemma funnel_total (start end_ : Point) (trianglePath : list TPolygon) :
  exists result, funnel start end_ trianglePath = Some result.
Proof.
  destruct (funnelOn_total start end_ (getPortalEdges trianglePath))
    as [result Hres].
  exists result. unfold funnel. rewrite <- (Hres 0%nat). f_equal. lia.
Qed.

(** *** Where the waypoints come from *)

Lemma funnelOn_givenPoints fuel start end_ portals0 result :
  funnelOn fuel start end_ portals0 = Some result ->
  Forall (givenPoint start end_ portals0) result.
Proof.
  rewrite funnelOn_unfold.
  destruct (funnelLoop _ _ _ _) as [st'|] eqn:Hloop; [|discriminate].
  assert (Hheld : heldFrom (givenPoint start end_ portals0) st').
  { refine (funnelLoop_heldFrom _ _ _ _ _ Hloop).
    - intros portal Hin. apply in_app_or in Hin.
      destruct Hin as [Hin|[<-|[]]].
      + split; right; right; exists portal; auto.
      + split; right; left; reflexivity.
    - unfold heldFrom, initialFunnel; cbn.
      repeat split; try (left; reflexivity).
      constructor; [left; reflexivity|constructor]. }
  destruct Hheld as (_ & _ & _ & Hpath).
  destruct (negb _); intros [= <-]; [|assumption].
  apply Forall_app. split; [assumption|].
  constructor; [right; left; reflexivity|constructor].
Qed.

(** C10: every point of the path the funnel returns is the start point, the
    end point, or the left or right end of a portal extracted from the
    corridor. *)
Theorem funnel_waypoints_are_portal_ends
  (start end_ : Point) (trianglePath : list TPolygon) (result : list Point) :
  funnel start end_ trianglePath = Some result ->
  forall q, In q result ->
    q = start \/ q = end_
    \/ exists portal, In portal (getPortalEdges trianglePath)
                      /\ (q = pleft portal \/ q = pright portal).
Proof.
  intros Hrun q Hq.
  pose proof (funnelOn_givenPoints _ _ _ _ Hrun) as Hall.
  rewrite Forall_forall in Hall. exact (Hall q Hq).
Qed.

(** *** The shape of the result *)

Lemma last_app_one (A : Type) (l : list A) (x d : A) : List.last (l ++ [x]) d = x.
Proof. apply last_last. Qed.

(** The returned path starts at [start] and ends within [epsilon] of
    [end_]; it has one point only if [start] and [end_] are that close. *)
Lemma funnelOn_shape fuel start end_ portals0 result :
  funnelOn fuel start end_ portals0 = Some result ->
  exists tl,
    result = start :: tl
    /\ pointsEqual (List.last result start) end_ = true
    /\ (tl = [] -> pointsEqual start end_ = true).
Proof.
  rewrite funnelOn_unfold.
  destruct (funnelLoop _ _ _ _) as [st'|] eqn:Hloop; [|discriminate].
  assert (Hhead : exists tl, path (initialFunnel start) = start :: tl)
    by (exists []; reflexivity).
  destruct (@funnelLoop_head (portals0 ++ [sentinel end_]) start _ _ _ _
              Hhead Hloop) as [tl Htl].
  destruct (pointsEqual (List.last (path st') start) end_) eqn:Hlast;
    cbn [negb]; intros [= <-].
  - exists tl. repeat split; [assumption..|].
    intros ->. rewrite Htl in Hlast. exact Hlast.
  - exists (tl ++ [end_]). rewrite Htl. repeat split.
    + rewrite last_app_one. apply pointsEqual_refl.
    + intro E. destruct tl; discriminate E.
Qed.

(** *** A corridor without portals *)

Lemma funnelBody_after_restart i portal st :
  left st = apex st -> right st = apex st ->
  funnelBody i portal st =
  (i, {| path := path st; apex := apex st; apexIndex := apexIndex st;
         left := pleft portal; leftIndex := i;
         right := pright portal; rightIndex := i |}).
Proof.
  intros HL HR. unfold funnelBody.
  rewrite HR, HL.
  rewrite (le0_of_eq0 (triArea2_apex_twice _ _)), pointsEqual_refl.
  cbn [orb apex left right].
  rewrite (ge0_of_eq0 (triArea2_apex_twice _ _)), pointsEqual_refl.
  reflexivity.
Qed.


End FunnelProperties.

(** In the L-shaped mesh the path from (18,5) to (5,18) turns at the inner
    corner (10,10), the right end of the portal between triangles 5 and 6. *)
Lemma funnel_waypoints_witness :
  Sample.P 10 10 = Sample.P 18 5 \/ Sample.P 10 10 = Sample.P 5 18
  \/ exists portal,
      In portal (@getPortalEdges Sample.provider
                   [4%nat; 5%nat; 6%nat; 7%nat; 8%nat; 9%nat])
      /\ (Sample.P 10 10 = pleft portal \/ Sample.P 10 10 = pright portal).
Proof.
  apply (@funnel_waypoints_are_portal_ends Sample.provider
           (Sample.P 18 5) (Sample.P 5 18)
           [4%nat; 5%nat; 6%nat; 7%nat; 8%nat; 9%nat]
           [Sample.P 18 5; Sample.P 10 10; Sample.P 5 18]).
  - vm_compute. reflexivity.
  - right. left. reflexivity.
Defined.


(** ** Portal orientation *)

Lemma triArea2_signedArea2 (a b c : Point) :
  triArea2 a b c == - signedArea2 a b c.
Proof. apply triArea2_Early. Qed.

Lemma signedArea2_swap (a b c : Point) :
  signedArea2 a c b == - signedArea2 a b c.
Proof. unfold signedArea2, Early.triArea2. ring. Qed.

Section PortalOrientation.

Context {provider : Provider}.

Lemma getSharedEdge_two (triangle1 triangle2 : TPolygon) (s0 s1 : Point) :
  sharedPoints triangle1 triangle2 = [s0; s1] ->
  getSharedEdge triangle1 triangle2 =
  Some (if (triArea2 (getTriangleCenter triangle1) s0 s1 >? 0)%num
        then {| pleft := s0; pright := s1 |}
        else {| pleft := s1; pright := s0 |}).
Proof.
  intro H. unfold getSharedEdge. rewrite H.
  destruct (_ >? _)%num; reflexivity.
Qed.


End PortalOrientation.



(** ** Goal projection *)

(** *** The closest point on a segment *)


Lemma onSegment_start (a b : Point) : onSegment a a b.
Proof. exists 0. repeat split; try lra; ring. Qed.

Lemma clamp_bounds (q : Q) :
  0 <= Num.max 0 (Num.min 1 q) /\ Num.max 0 (Num.min 1 q) <= 1.
Proof.
  unfold Num.max, Num.min.
  destruct (q <? 1)%num eqn:A; destruct (0 <? _)%num eqn:B;
    try apply ltb_lt in A; try apply ltb_ge in A;
    try apply ltb_lt in B; try apply ltb_ge in B; lra.
Qed.

Lemma clamp_cases (q : Q) :
  (Num.max 0 (Num.min 1 q) = 0 /\ q <= 0)
  \/ (Num.max 0 (Num.min 1 q) = q /\ 0 < q < 1)
  \/ (Num.max 0 (Num.min 1 q) = 1 /\ 1 <= q).
Proof.
  unfold Num.max, Num.min.
  destruct (q <? 1)%num eqn:A; destruct (0 <? _)%num eqn:B;
    try apply ltb_lt in A; try apply ltb_ge in A;
    try apply ltb_lt in B; try apply ltb_ge in B.
  - right; left. split; [reflexivity|lra].
  - left. split; [reflexivity|lra].
  - right; right. split; [reflexivity|lra].
  - exfalso. lra.
Qed.

Lemma closestPointOnSegment_onSegment (p a b : Point) :
  onSegment (closestPointOnSegment p a b) a b.
Proof.
  unfold closestPointOnSegment. cbn [Point.x Point.y].
  destruct (Num.eqb _ 0); [apply onSegment_start|].
  match goal with |- context [Num.max 0 (Num.min 1 ?q)] => set (t := q) end.
  destruct (clamp_bounds t) as [H0 H1].
  exists (Num.max 0 (Num.min 1 t)). cbn [Point.x Point.y].
  generalize dependent (Num.max 0 (Num.min 1 t)). intros m H0 H1.
  split; [exact H0|]. split; [exact H1|]. split; ring.
Qed.

(** The closest point on a segment is no farther from [p] than the start of
    the segment. *)
Lemma closestPointOnSegment_le_start (p a b : Point) :
  Point.squaredDistance p (closestPointOnSegment p a b)
  <= Point.squaredDistance p a.
Proof.
  unfold closestPointOnSegment. cbn [Point.x Point.y].
  destruct (Num.eqb _ 0) eqn:Z; [apply Qle_refl|].
  apply eqb_neq in Z.
  set (abx := Point.x b - Point.x a) in *.
  set (aby := Point.y b - Point.y a) in *.
  set (apx := Point.x p - Point.x a) in *.
  set (apy := Point.y p - Point.y a) in *.
  set (atb2 := abx * abx + aby * aby) in *.
  set (dot := apx * abx + apy * aby) in *.
  assert (Hpos : 0 < atb2).
  { assert (0 <= atb2) by (unfold atb2; nra).
    destruct (Qlt_le_dec 0 atb2) as [L|L]; [exact L|].
    exfalso. apply Z. lra. }
  assert (Hq : dot / atb2 * atb2 == dot) by (field; exact Z).
  unfold Point.squaredDistance. cbn [Point.x Point.y].
  destruct (clamp_cases (dot / atb2)) as [[-> Hc]|[[-> Hc]|[-> Hc]]].
  - unfold apx, apy. nra.
  - set (q := dot / atb2) in *. clearbody q.
    assert (E : (Point.x p - (Point.x a + abx * q)) * (Point.x p - (Point.x a + abx * q))
                + (Point.y p - (Point.y a + aby * q)) * (Point.y p - (Point.y a + aby * q))
                == (apx * apx + apy * apy) - 2 * q * dot + q * (q * atb2)).
    { unfold dot, atb2, apx, apy. ring. }
    rewrite E, Hq.
    assert (0 <= q * dot) by (rewrite <- Hq; nra).
    unfold apx, apy. nra.
  - assert (atb2 <= dot).
    { rewrite <- Hq. nra. }
    assert (E : (Point.x p - (Point.x a + abx * 1)) * (Point.x p - (Point.x a + abx * 1))
                + (Point.y p - (Point.y a + aby * 1)) * (Point.y p - (Point.y a + aby * 1))
                == (apx * apx + apy * apy) - 2 * dot + atb2).
    { unfold dot, atb2, apx, apy. ring. }
    rewrite E. unfold apx, apy. nra.
Qed.

(** *** Rings and their edges *)

Lemma ringEdges_starts (ring : list Point) : map fst (ringEdges ring) = ring.
Proof.
  destruct ring as [|first rest]; [reflexivity|].
  unfold ringEdges.
  assert (G : forall (l l' : list Point),
             length l = length l' -> map fst (combine l l') = l).
  { induction l as [|v l IH]; intros [|v' l'] E; try discriminate E;
      [reflexivity|]. cbn. f_equal. apply IH. now injection E. }
  apply G. cbn. rewrite length_app. cbn. lia.
Qed.

(** every vertex of a ring starts one of its edges *)
Lemma ringEdges_vertex (ring : list Point) (v : Point) :
  In v ring -> exists e, In e (ringEdges ring) /\ fst e = v.
Proof.
  intro Hin. rewrite <- (ringEdges_starts ring) in Hin.
  apply in_map_iff in Hin. destruct Hin as (e & He & Hine). eauto.
Qed.

(** ** The query *)

Section Query.

Context {provider : Provider}.

Variable nm : NavMesh2d.

Lemma same_true (t1 t2 : TPolygon) : same t1 t2 = true <-> t1 = t2.
Proof.
  unfold same. destruct (TPolygon_eq_dec t1 t2); split; intro H;
    try reflexivity; try assumption; try discriminate H; contradiction.
Qed.

Lemma same_false (t1 t2 : TPolygon) : same t1 t2 = false <-> t1 <> t2.
Proof.
  unfold same. destruct (TPolygon_eq_dec t1 t2); split; intro H;
    try reflexivity; try assumption; try discriminate H; contradiction.
Qed.

(** The effective goal: [b] itself when [b] is located in a triangle, and
    otherwise the projected point, provided it is located. *)
Lemma resolveTarget_some a b closestToStart startTriangle goal goalTriangle :
  resolveTarget nm a b closestToStart startTriangle = Some (goal, goalTriangle)
  <->
  (findTriangleContainingPoint nm b = Some goalTriangle /\ goal = b)
  \/ (findTriangleContainingPoint nm b = None
      /\ exists startPolygon,
          findStartPolygon nm startTriangle = Some startPolygon
          /\ goal = projectGoal a b startPolygon closestToStart
          /\ findTriangleContainingPoint nm goal = Some goalTriangle).
Proof.
  unfold resolveTarget.
  destruct (findTriangleContainingPoint nm b) as [endTriangle|].
  - split.
    + intros [= <- <-]. left. split; reflexivity.
    + intros [[[= ->] ->]|[H _]]; [reflexivity|discriminate H].
  - destruct (findStartPolygon nm startTriangle) as [startPolygon|].
    + destruct (findTriangleContainingPoint nm (projectGoal _ _ _ _))
        as [targetTriangle|] eqn:Hloc.
      * split.
        -- intros [= <- <-]. right. split; [reflexivity|].
           exists startPolygon. repeat split; try reflexivity. exact Hloc.
        -- intros [[H _]|[_ (sp & [= <-] & -> & Hl)]]; [discriminate H|].
           rewrite Hloc in Hl. injection Hl as ->. reflexivity.
      * split; [discriminate|].
        intros [[H _]|[_ (sp & [= <-] & -> & Hl)]]; [discriminate H|].
        rewrite Hloc in Hl. discriminate Hl.
    + split; [discriminate|].
      intros [[H _]|[_ (sp & H & _)]]; discriminate H.
Qed.

Lemma resolveTarget_none a b closestToStart startTriangle :
  resolveTarget nm a b closestToStart startTriangle = None
  <->
  findTriangleContainingPoint nm b = None
  /\ (findStartPolygon nm startTriangle = None
      \/ exists startPolygon,
          findStartPolygon nm startTriangle = Some startPolygon
          /\ findTriangleContainingPoint nm
               (projectGoal a b startPolygon closestToStart) = None).
Proof.
  unfold resolveTarget.
  destruct (findTriangleContainingPoint nm b) as [endTriangle|].
  - split; [discriminate|]. intros [H _]. discriminate H.
  - destruct (findStartPolygon nm startTriangle) as [startPolygon|].
    + destruct (findTriangleContainingPoint nm (projectGoal _ _ _ _))
        as [targetTriangle|] eqn:Hloc.
      * split; [discriminate|].
        intros [_ [H|(sp & [= <-] & H)]]; [discriminate H|].
        rewrite Hloc in H. discriminate H.
      * split; [|reflexivity]. intros _. split; [reflexivity|].
        right. exists startPolygon. split; [reflexivity|exact Hloc].
    + split; [|reflexivity]. intros _. split; [reflexivity|]. now left.
Qed.

(** What [findPath] returns once the funnel has run. *)
Lemma funnel_result_kept a goal trianglePath path0 :
  funnel a goal trianglePath = Some path0 ->
  (if (0 <? length path0)%nat
      && negb (pointsEqual (List.last path0 a) goal)
   then path0 ++ [goal] else path0) = path0
  /\ exists tl,
      path0 = a :: tl
      /\ pointsEqual (List.last path0 a) goal = true
      /\ (tl = [] -> pointsEqual a goal = true).
Proof.
  intro Hrun. unfold funnel in Hrun.
  destruct (funnelOn_shape _ _ _ _ Hrun) as (tl & -> & Hlast & Hone).
  split; [|eauto].
  rewrite Hlast. cbn [negb]. now rewrite andb_false_r.
Qed.

(** The branches of [findPath] after the start triangle and the target are
    known. *)
Lemma findPath_located fuel a b closestToStart startTriangle :
  findTriangleContainingPoint nm a = Some startTriangle ->
  findPath fuel nm a b closestToStart =
  match resolveTarget nm a b closestToStart startTriangle with
  | None => Some []
  | Some (targetPoint, targetTriangle) =>
      if same startTriangle targetTriangle then Some [a; targetPoint]
      else
        match findTrianglePath fuel startTriangle targetTriangle with
        | None => None
        | Some [] =>
            if isNeighbor startTriangle targetTriangle
            then Some [a; targetPoint] else Some []
        | Some trianglePath =>
            funnel a targetPoint (startTriangle :: trianglePath)
        end
  end.
Proof.
  intro Hloc. unfold findPath. rewrite Hloc.
  destruct (resolveTarget _ _ _ _ _) as [[targetPoint targetTriangle]|];
    [|reflexivity].
  destruct (same _ _); [reflexivity|].
  destruct (findTrianglePath _ _ _) as [[|t trianglePath]|]; try reflexivity.
  destruct (funnel _ _ _) as [path0|] eqn:Hrun; [|reflexivity].
  destruct (funnel_result_kept _ _ _ Hrun) as [Hkept _].
  destruct (_ && _); [rewrite Hkept|]; reflexivity.
Qed.

(** C1: [findPath] returns the empty path exactly when [a] is in no
    triangle; or [b] is in no triangle and either no polygon owns the
    triangle of [a] or the projected goal is in no triangle; or the start
    and goal triangles differ, the A* search returns the empty corridor and
    the goal triangle is not among the neighbours of the start triangle. *)
Theorem findPath_empty_iff (fuel : nat) (a b : Point) (closestToStart : bool) :
  findPath fuel nm a b closestToStart = Some []
  <->
  findTriangleContainingPoint nm a = None
  \/ (exists startTriangle,
         findTriangleContainingPoint nm a = Some startTriangle
         /\ findTriangleContainingPoint nm b = None
         /\ (findStartPolygon nm startTriangle = None
             \/ exists startPolygon,
                 findStartPolygon nm startTriangle = Some startPolygon
                 /\ findTriangleContainingPoint nm
                      (projectGoal a b startPolygon closestToStart) = None))
  \/ (exists startTriangle goal goalTriangle,
         findTriangleContainingPoint nm a = Some startTriangle
         /\ resolveTarget nm a b closestToStart startTriangle
            = Some (goal, goalTriangle)
         /\ startTriangle <> goalTriangle
         /\ findTrianglePath fuel startTriangle goalTriangle = Some []
         /\ isNeighbor startTriangle goalTriangle = false).
Proof.
  destruct (findTriangleContainingPoint nm a) as [startTriangle|] eqn:Hloc.
  2:{ unfold findPath. rewrite Hloc. split; [now left|reflexivity]. }
  rewrite (@findPath_located fuel a b closestToStart startTriangle Hloc).
  destruct (resolveTarget nm a b closestToStart startTriangle)
    as [[goal goalTriangle]|] eqn:Hres.
  - split.
    + intro H. right. right. exists startTriangle, goal, goalTriangle.
      destruct (same startTriangle goalTriangle) eqn:Hsame;
        [discriminate H|].
      apply same_false in Hsame.
      destruct (findTrianglePath fuel startTriangle goalTriangle)
        as [[|t trianglePath]|] eqn:Hastar; [| |discriminate H].
      * destruct (isNeighbor startTriangle goalTriangle) eqn:Hn;
          [discriminate H|]. repeat split; auto.
      * exfalso. unfold funnel in H.
        destruct (funnelOn_shape _ _ _ _ H) as (tl & E & _). discriminate E.
    + intros [H|[(s & [= <-] & Hb & Hp)|(s & g & gt & [= <-] & Hres' & Hne & Hastar & Hn)]].
      3: rewrite Hres in Hres'; injection Hres' as <- <-.
      * discriminate H.
      * exfalso.
        assert (resolveTarget nm a b closestToStart startTriangle = None) as N
            by (apply resolveTarget_none; split; assumption).
        rewrite N in Hres. discriminate Hres.
      * apply same_false in Hne. rewrite Hne, Hastar, Hn. reflexivity.
  - split; [|reflexivity]. intros _. right. left.
    apply resolveTarget_none in Hres. destruct Hres as [Hb Hp].
    exists startTriangle. auto.
Qed.

End Query.

Section QueryEnds.

Context {provider : Provider}.

Variable nm : NavMesh2d.

(** C2, as the code has it: a non-empty result starts with [a] itself and
    ends within [epsilon] of the effective goal ([b] when [b] is in a
    triangle, the projected point otherwise); it has at least two points
    unless it is [[a]] alone, which requires [a] to be within [epsilon] of
    the goal. *)
Theorem findPath_ends (fuel : nat) (a b : Point) (closestToStart : bool)
  (result : list Point) :
  findPath fuel nm a b closestToStart = Some result ->
  result <> [] ->
  exists startTriangle goal goalTriangle tl,
    findTriangleContainingPoint nm a = Some startTriangle
    /\ ((findTriangleContainingPoint nm b = Some goalTriangle /\ goal = b)
        \/ (findTriangleContainingPoint nm b = None
            /\ exists startPolygon,
                findStartPolygon nm startTriangle = Some startPolygon
                /\ goal = projectGoal a b startPolygon closestToStart
                /\ findTriangleContainingPoint nm goal = Some goalTriangle))
    /\ result = a :: tl
    /\ pointsEqual (List.last result a) goal = true
    /\ (tl = [] -> pointsEqual a goal = true).
Proof.
  intros Hrun Hne.
  destruct (findTriangleContainingPoint nm a) as [startTriangle|] eqn:Hloc.
  2:{ unfold findPath in Hrun. rewrite Hloc in Hrun.
      injection Hrun as <-. contradiction. }
  rewrite (@findPath_located _ nm fuel a b closestToStart startTriangle Hloc)
    in Hrun.
  destruct (resolveTarget nm a b closestToStart startTriangle)
    as [[goal goalTriangle]|] eqn:Hres.
  2:{ injection Hrun as <-. contradiction. }
  exists startTriangle, goal, goalTriangle.
  apply resolveTarget_some in Hres.
  assert (Hdirect : exists tl, [a; goal] = a :: tl
                               /\ pointsEqual (List.last [a; goal] a) goal = true
                               /\ (tl = [] -> pointsEqual a goal = true)).
  { exists [goal]. repeat split; [apply pointsEqual_refl|discriminate]. }
  destruct (same startTriangle goalTriangle).
  { injection Hrun as <-. destruct Hdirect as (tl & ? & ? & ?).
    exists tl. auto. }
  destruct (findTrianglePath fuel startTriangle goalTriangle)
    as [[|t trianglePath]|]; [| |discriminate Hrun].
  - destruct (isNeighbor startTriangle goalTriangle);
      injection Hrun as <-; [|contradiction].
    destruct Hdirect as (tl & ? & ? & ?). exists tl. auto.
  - destruct (funnel_result_kept _ _ _ Hrun) as [_ (tl & ? & ? & ?)].
    exists tl. auto.
Qed.

(** C7, as the code has it: when [a] and [b] are located in the same
    triangle the result is [[a; b]] whatever their distance. *)
Theorem findPath_same_triangle (fuel : nat) (a b : Point)
  (closestToStart : bool) (t : TPolygon) :
  findTriangleContainingPoint nm a = Some t ->
  findTriangleContainingPoint nm b = Some t ->
  findPath fuel nm a b closestToStart = Some [a; b].
Proof.
  intros Ha Hb.
  rewrite (@findPath_located _ nm fuel a b closestToStart t Ha).
  unfold resolveTarget. rewrite Hb.
  assert (same t t = true) as -> by now apply same_true.
  reflexivity.
Qed.

End QueryEnds.

(** In the square mesh the corner (0,10) is found in triangle 0 and the point
    half a billionth to its right in triangle 1; the path between them is
    the corner twice, so its last point is not the goal.  In the mesh of
    triangles 2 and 3 the path from (0,10) to the point half a billionth
    above it is the single point (0,10). *)
Lemma findPath_ends_counterexample :
  let a := Sample.P 0 10 in
  let b := Sample.P (1 # 2000000000) 10 in
  let b' := Sample.P 0 (10 + (1 # 2000000000)) in
  (findTriangleContainingPoint Sample.squareMesh b = Some 1%nat
   /\ findPath 10 Sample.squareMesh a b false = Some [a; a]
   /\ List.last [a; a] a <> b)
  /\ (findTriangleContainingPoint Sample.bowtieMesh b' = Some 3%nat
      /\ findPath 10 Sample.bowtieMesh a b' false = Some [a]
      /\ (length [a] < 2)%nat).
Proof.
  cbv zeta. repeat split; try (vm_compute; reflexivity).
  cbn. intro H. discriminate H.
Qed.

Lemma findPath_ends_witness :
  exists startTriangle goal goalTriangle tl,
    findTriangleContainingPoint Sample.squareMesh (Sample.P 2 2)
    = Some startTriangle
    /\ ((findTriangleContainingPoint Sample.squareMesh (Sample.P 8 8)
         = Some goalTriangle /\ goal = Sample.P 8 8)
        \/ (findTriangleContainingPoint Sample.squareMesh (Sample.P 8 8) = None
            /\ exists startPolygon,
                findStartPolygon Sample.squareMesh startTriangle
                = Some startPolygon
                /\ goal = projectGoal (Sample.P 2 2) (Sample.P 8 8)
                                      startPolygon false
                /\ findTriangleContainingPoint Sample.squareMesh goal
                   = Some goalTriangle))
    /\ [Sample.P 2 2; Sample.P 8 8] = Sample.P 2 2 :: tl
    /\ pointsEqual (List.last [Sample.P 2 2; Sample.P 8 8] (Sample.P 2 2)) goal
       = true
    /\ (tl = [] -> pointsEqual (Sample.P 2 2) goal = true).
Proof.
  apply (@findPath_ends Sample.provider Sample.squareMesh 10
           (Sample.P 2 2) (Sample.P 8 8) false).
  - vm_compute. reflexivity.
  - discriminate.
Defined.

(** For a = b = (2,2) in the square mesh the result is that point twice:
    two consecutive points that do not differ at all. *)
Lemma findPath_consecutive_counterexample :
  let a := Sample.P 2 2 in
  findPath 10 Sample.squareMesh a a false = Some [a; a]
  /\ pointsEqual a a = true.
Proof.
  cbv zeta. split; vm_compute; reflexivity.
Qed.

Lemma findPath_same_triangle_witness :
  findPath 10 Sample.squareMesh (Sample.P 2 2) (Sample.P 2 2) false
  = Some [Sample.P 2 2; Sample.P 2 2].
Proof.
  apply (@findPath_same_triangle Sample.provider Sample.squareMesh 10
           (Sample.P 2 2) (Sample.P 2 2) false 0%nat);
    vm_compute; reflexivity.
Defined.

(** The funnel repeats a waypoint too, for points that are far apart: in
    the L-shaped mesh the path from the inner corner (10,10) to (5,18)
    holds the corner twice, and so does the path from (10,20) to (18,5). *)
Example findPath_repeats_waypoint :
  findPath 100 Sample.ellMesh (Sample.P 10 10) (Sample.P 5 18) false
  = Some [Sample.P 10 10; Sample.P 10 10; Sample.P 5 18]
  /\ findPath 100 Sample.ellMesh (Sample.P 10 20) (Sample.P 18 5) false
     = Some [Sample.P 10 20; Sample.P 10 10; Sample.P 10 10; Sample.P 18 5].
Proof. split; vm_compute; reflexivity. Qed.

(** ** Termination of the A* search *)

Section AStarTermination.

Context {provider : Provider}.

Lemma includes_true (l : list TPolygon) (t : TPolygon) :
  includes l t = true <-> In t l.
Proof.
  unfold includes. rewrite existsb_exists. split.
  - intros (u & Hu & E). apply same_true in E. now subst.
  - intro H. exists t. split; [assumption|now apply same_true].
Qed.

Lemma includes_false (l : list TPolygon) (t : TPolygon) :
  includes l t = false <-> ~ In t l.
Proof.
  rewrite <- includes_true. destruct (includes l t); split; intro H;
    try reflexivity; try discriminate H; try (intro K; discriminate K).
  exfalso. now apply H.
Qed.

(** *** The node store *)

Lemma getNode_setNode (m : NodeMap) (t t' : TPolygon) (n : PathNode) :
  getNode (setNode m t n) t' =
  match getNode m t' with
  | Some n' => Some n'
  | None => if same t' t then Some n else None
  end.
Proof.
  unfold getNode, setNode. induction m as [|[k v] m IH]; cbn [app find fst snd].
  - destruct (same t' t); reflexivity.
  - destruct (same t' k); [reflexivity|exact IH].
Qed.

Lemma getNode_writeNode_other (m : NodeMap) (t t' : TPolygon) (n : PathNode) :
  t' <> t -> getNode (writeNode m t n) t' = getNode m t'.
Proof.
  intro Hne. unfold getNode, writeNode.
  induction m as [|[k v] m IH]; cbn [map find fst snd]; [reflexivity|].
  destruct (same t k) eqn:E; cbn [fst snd].
  - apply same_true in E. subst k.
    assert (same t' t = false) as -> by now apply same_false.
    exact IH.
  - destruct (same t' k); [reflexivity|exact IH].
Qed.

Lemma getNode_writeNode_same (m : NodeMap) (t : TPolygon) (n n0 : PathNode) :
  getNode m t = Some n0 -> getNode (writeNode m t n) t = Some n.
Proof.
  unfold getNode, writeNode.
  induction m as [|[k v] m IH]; cbn [map find fst snd]; [discriminate|].
  destruct (same t k) eqn:E; cbn [fst snd].
  - intros _. assert (same t t = true) as -> by now apply same_true.
    reflexivity.
  - rewrite E. exact IH.
Qed.

Lemma writeNode_length (m : NodeMap) (t : TPolygon) (n : PathNode) :
  length (writeNode m t n) = length m.
Proof. apply length_map. Qed.

Lemma setNode_length (m : NodeMap) (t : TPolygon) (n : PathNode) :
  length (setNode m t n) = S (length m).
Proof. unfold setNode. rewrite length_app. cbn. lia. Qed.

(** *** Sorting keeps the nodes *)

Lemma insertByFCost_In (m : NodeMap) (t u : TPolygon) (l : list TPolygon) :
  In u (insertByFCost m t l) <-> u = t \/ In u l.
Proof.
  induction l as [|v l IH]; cbn [insertByFCost In].
  - intuition.
  - destruct (_ <=? _)%num; cbn [In]; [intuition congruence|].
    rewrite IH. intuition.
Qed.

Lemma insertByFCost_length (m : NodeMap) (t : TPolygon) (l : list TPolygon) :
  length (insertByFCost m t l) = S (length l).
Proof.
  induction l as [|v l IH]; cbn [insertByFCost length]; [reflexivity|].
  destruct (_ <=? _)%num; cbn [length]; [reflexivity|now rewrite IH].
Qed.

Lemma insertByFCost_NoDup (m : NodeMap) (t : TPolygon) (l : list TPolygon) :
  ~ In t l -> NoDup l -> NoDup (insertByFCost m t l).
Proof.
  induction l as [|v l IH]; cbn [insertByFCost]; intros Hn Hd.
  - constructor; [intros []|constructor].
  - destruct (_ <=? _)%num; [now constructor|].
    inversion Hd as [|? ? Hv Hl]; subst.
    constructor.
    + rewrite insertByFCost_In. intros [->|H]; [apply Hn; now left|contradiction].
    + apply IH; [|assumption]. intro H. apply Hn. now right.
Qed.

Lemma sortOpenSet_In (m : NodeMap) (u : TPolygon) (l : list TPolygon) :
  In u (sortOpenSet m l) <-> In u l.
Proof.
  unfold sortOpenSet. induction l as [|v l IH]; cbn [fold_right In];
    [reflexivity|].
  rewrite insertByFCost_In, IH. intuition congruence.
Qed.

Lemma sortOpenSet_length (m : NodeMap) (l : list TPolygon) :
  length (sortOpenSet m l) = length l.
Proof.
  unfold sortOpenSet. induction l as [|v l IH]; cbn [fold_right length];
    [reflexivity|].
  now rewrite insertByFCost_length, IH.
Qed.

Lemma sortOpenSet_NoDup (m : NodeMap) (l : list TPolygon) :
  NoDup l -> NoDup (sortOpenSet m l).
Proof.
  unfold sortOpenSet. induction l as [|v l IH]; cbn [fold_right]; intro Hd.
  - constructor.
  - inversion Hd as [|? ? Hv Hl]; subst.
    apply insertByFCost_NoDup; [|now apply IH].
    fold (sortOpenSet m l). now rewrite sortOpenSet_In.
Qed.

(** *** Parent links lead back through closed nodes *)



Lemma parentIn_incl (closed closed' : list TPolygon) (n : PathNode) :
  incl closed closed' -> parentIn closed n -> parentIn closed' n.
Proof.
  unfold parentIn. destruct (parent n); [|trivial]. intros H. apply H.
Qed.

Lemma ranked_same_nodes (m m' : NodeMap) (closed : list TPolygon) :
  (forall t, In t closed -> getNode m' t = getNode m t) ->
  ranked m closed -> ranked m' closed.
Proof.
  intros Hsame H. induction H as [|c older n H IH Hn Hp]; [constructor|].
  apply ranked_cons with n.
  - apply IH. intros t Ht. apply Hsame. now right.
  - rewrite Hsame; [assumption|now left].
  - assumption.
Qed.

Lemma reconstruct_more_fuel (m : NodeMap) :
  forall fuel node path0 r,
    reconstruct fuel m node path0 = Some r ->
    forall fuel', (fuel <= fuel')%nat ->
                  reconstruct fuel' m node path0 = Some r.
Proof.
  induction fuel as [|fuel IH]; intros node path0 r H fuel' Hle;
    [discriminate H|].
  destruct fuel' as [|fuel']; [lia|].
  cbn [reconstruct] in *.
  destruct node as [t|]; [|assumption].
  destruct (getNode m t) as [n|]; [|discriminate H].
  destruct (parent n) as [p|]; [|assumption].
  apply (IH _ _ _ H). lia.
Qed.

Lemma reconstruct_ranked (m : NodeMap) (closed : list TPolygon) :
  ranked m closed ->
  forall t path0, In t closed ->
    exists r, reconstruct (S (length closed)) m (Some t) path0 = Some r.
Proof.
  intro H. induction H as [|c older n H IH Hn Hp]; intros t path0 Hin.
  - destruct Hin.
  - destruct Hin as [<-|Hin].
    + cbn [reconstruct length]. rewrite Hn.
      unfold parentIn in Hp. destruct (parent n) as [p|]; [|eauto].
      apply IH. exact Hp.
    + destruct (IH t path0 Hin) as [r Hr]. exists r.
      eapply reconstruct_more_fuel; [exact Hr|]. cbn [length]. lia.
Qed.

(** *** The invariant of the search *)

Variable universe : list TPolygon.

Hypothesis universe_closed :
  forall t, In t universe -> incl (connections t) universe.


Lemma visitNeighbor_searching (endCenter : Point) (closed : list TPolygon)
  (current : PathNode) (m : NodeMap) (open : list TPolygon)
  (neighbor : TPolygon) :
  In (triangle current) closed ->
  In neighbor universe ->
  searching universe closed m open ->
  searching universe closed
    (fst (visitNeighbor endCenter closed current (m, open) neighbor))
    (snd (visitNeighbor endCenter closed current (m, open) neighbor)).
Proof.
  intros Hcur HU (Hnd & Hoc & HoU & Hnodes & Hrank & Hlen).
  unfold visitNeighbor.
  destruct (includes closed neighbor) eqn:Hinc;
    [cbn [fst snd]; repeat split; assumption|].
  apply includes_false in Hinc.
  destruct (getNode m neighbor) as [neighborNode|] eqn:Hget.
  - destruct (_ <? _)%num; cbn [fst snd];
      [|repeat split; assumption].
    repeat split; try assumption.
    + intros t Ht.
      destruct (TPolygon_eq_dec t neighbor) as [->|Hne].
      * destruct (Hnodes neighbor Ht) as (n & Hn & Htri & _).
        rewrite Hget in Hn. injection Hn as <-.
        eexists. split; [eapply getNode_writeNode_same; exact Hget|].
        cbn [triangle parent]. split; [assumption|exact Hcur].
      * rewrite getNode_writeNode_other by exact Hne. now apply Hnodes.
    + apply (@ranked_same_nodes m); [|assumption].
      intros t Ht. apply getNode_writeNode_other. intros ->. contradiction.
    + now rewrite writeNode_length.
  - cbn [fst snd].
    assert (Hfresh : ~ In neighbor open).
    { intro H. destruct (Hnodes neighbor H) as (n & Hn & _).
      rewrite Hget in Hn. discriminate Hn. }
    repeat split.
    + apply NoDup_app; [assumption|constructor; [intros []|constructor]|].
      intros t Ht [<-|[]]. contradiction.
    + intros t Ht. apply in_app_or in Ht.
      destruct Ht as [Ht|[<-|[]]]; [now apply Hoc|assumption].
    + intros t Ht. apply in_app_or in Ht.
      destruct Ht as [Ht|[<-|[]]]; [now apply HoU|assumption].
    + intros t Ht. rewrite getNode_setNode. apply in_app_or in Ht.
      destruct Ht as [Ht|[<-|[]]].
      * destruct (Hnodes t Ht) as (n & Hn & Hrest). rewrite Hn. eauto.
      * rewrite Hget.
        assert (same neighbor neighbor = true) as -> by now apply same_true.
        eexists. split; [reflexivity|].
        cbn [triangle parent]. split; [reflexivity|exact Hcur].
    + apply (@ranked_same_nodes m); [|assumption].
      intros t Ht. rewrite getNode_setNode.
      destruct (getNode m t) eqn:E; [reflexivity|].
      exfalso. clear - Hrank Ht E.
      induction Hrank as [|c older n H IH Hn _]; [destruct Ht|].
      destruct Ht as [<-|Ht]; [congruence|now apply IH].
    + rewrite length_app, setNode_length. cbn [length]. lia.
Qed.

Lemma visitNeighbors_searching (endCenter : Point) (closed : list TPolygon)
  (current : PathNode) (neighbors : list TPolygon) :
  In (triangle current) closed ->
  incl neighbors universe ->
  forall m open,
    searching universe closed m open ->
    searching universe closed
      (fst (fold_left (visitNeighbor endCenter closed current) neighbors
                      (m, open)))
      (snd (fold_left (visitNeighbor endCenter closed current) neighbors
                      (m, open))).
Proof.
  intros Hcur. induction neighbors as [|nb nbs IH]; intros HU m open H;
    cbn [fold_left]; [exact H|].
  pose proof (@visitNeighbor_searching endCenter closed current m open nb Hcur
                (HU nb (or_introl eq_refl)) H) as Hstep.
  destruct (visitNeighbor endCenter closed current (m, open) nb) as [m1 open1].
  apply IH; [|exact Hstep].
  intros t Ht. apply HU. now right.
Qed.

(** *** The loop ends *)


Lemma astarLoop_more_fuel (end_ : TPolygon) :
  forall fuel st r,
    astarLoop fuel end_ st = Some r ->
    forall fuel', (fuel <= fuel')%nat -> astarLoop fuel' end_ st = Some r.
Proof.
  induction fuel as [|fuel IH]; intros st r H fuel' Hle; [discriminate H|].
  destruct fuel' as [|fuel']; [lia|].
  cbn [astarLoop] in *.
  destruct (sortOpenSet (nodeMap st) (openSet st)) as [|cur rest];
    [assumption|].
  destruct (getNode (nodeMap st) cur) as [current|]; [|discriminate H].
  destruct (same (triangle current) end_); [assumption|].
  destruct (fold_left _ _ _) as [m open].
  apply (IH _ _ H). lia.
Qed.

Lemma astarLoop_enough_fuel (end_ : TPolygon) :
  forall fuel st,
    wellSearched universe st ->
    (length universe - length (closedSet st) < fuel)%nat ->
    exists r, astarLoop fuel end_ st = Some r.
Proof.
  induction fuel as [|fuel IH]; intros st Hst Hfuel; [lia|].
  destruct Hst as ((Hnd & Hoc & HoU & Hnodes & Hrank & Hlen) & Hcd & HcU).
  cbn [astarLoop].
  destruct (sortOpenSet (nodeMap st) (openSet st)) as [|cur rest] eqn:Hsort;
    [eauto|].
  assert (Hcur : In cur (openSet st)).
  { apply (sortOpenSet_In (nodeMap st)). rewrite Hsort. now left. }
  assert (Hrest : forall t, In t rest -> In t (openSet st)).
  { intros t Ht. apply (sortOpenSet_In (nodeMap st)). rewrite Hsort.
    now right. }
  assert (Hsorted : NoDup (cur :: rest)).
  { rewrite <- Hsort. now apply sortOpenSet_NoDup. }
  assert (Hcount : S (length rest) = length (openSet st)).
  { rewrite <- (sortOpenSet_length (nodeMap st) (openSet st)), Hsort.
    reflexivity. }
  destruct (Hnodes cur Hcur) as (current & Hget & Htri & Hparent).
  rewrite Hget.
  destruct (same (triangle current) end_).
  - (* the goal is reached: the parent links lead back through closed nodes *)
    assert (ranked (nodeMap st) (cur :: closedSet st)) as Hr
        by (now apply ranked_cons with current).
    destruct (@reconstruct_ranked _ _ Hr cur [] (or_introl eq_refl))
      as [r Hrec].
    exists r. eapply reconstruct_more_fuel; [exact Hrec|].
    cbn [length]. lia.
  - rewrite Htri.
    assert (Hnew : ~ In cur (closedSet st)) by now apply Hoc.
    assert (Hroom : (S (length (closedSet st)) <= length universe)%nat).
    { apply (@NoDup_incl_length _ (cur :: closedSet st)).
      - now constructor.
      - intros t [<-|Ht]; [now apply HoU|now apply HcU]. }
    assert (Hbefore : searching universe (cur :: closedSet st) (nodeMap st) rest).
    { inversion Hsorted as [|? ? Hcr Hrd]; subst.
      repeat split.
      - assumption.
      - intros t Ht [<-|Hc]; [contradiction|].
        apply (Hoc t); [now apply Hrest|assumption].
      - intros t Ht. apply HoU. now apply Hrest.
      - intros t Ht. destruct (Hnodes t (Hrest t Ht)) as (n & ? & ? & Hp).
        exists n. repeat split; try assumption.
        apply (@parentIn_incl (closedSet st)); [|assumption].
        intros u Hu. now right.
      - now apply ranked_cons with current.
      - cbn [length]. lia. }
    assert (Hin : In (triangle current) (cur :: closedSet st))
      by (left; now symmetry).
    assert (Hnb : incl (connections cur) universe)
      by (apply universe_closed; now apply HoU).
    pose proof (@visitNeighbors_searching (getTriangleCenter end_)
                  (cur :: closedSet st) current (connections cur)
                  Hin Hnb (nodeMap st) rest Hbefore) as Hfold.
    destruct (fold_left _ _ _) as [m open]. cbn [fst snd] in Hfold.
    apply IH.
    + cbn [closedSet nodeMap openSet]. split; [exact Hfold|split].
      * now constructor.
      * intros t [<-|Ht]; [now apply HoU|now apply HcU].
    + cbn [closedSet length]. lia.
Qed.

(** On a finite set of triangles closed under [connections] the search
    ends within one iteration per triangle, plus the last test of the open
    set; more fuel gives the same corridor. *)
Lemma findTrianglePath_total (start end_ : TPolygon) :
  In start universe ->
  exists r, forall extra,
      findTrianglePath (S (length universe) + extra) start end_ = Some r.
Proof.
  intro Hstart. unfold findTrianglePath.
  match goal with
  | |- exists r, forall extra, astarLoop _ _ ?st = Some r =>
      destruct (@astarLoop_enough_fuel end_ (S (length universe)) st)
        as [r Hr]
  end.
  - split; [|split; [constructor|intros t []]].
    cbn [closedSet nodeMap openSet]. repeat split.
    + constructor; [intros []|constructor].
    + intros t _ [].
    + intros t [<-|[]]. assumption.
    + intros t [<-|[]]. unfold getNode. cbn [find fst snd].
      assert (same start start = true) as -> by now apply same_true.
      eexists. split; [reflexivity|]. split; [reflexivity|exact I].
    + constructor.
  - cbn [closedSet length]. lia.
  - exists r. intro extra. eapply astarLoop_more_fuel; [exact Hr|]. lia.
Qed.

End AStarTermination.

(** ** The query always answers *)


Section Totality.

Context {provider : Provider}.

Lemma closedUnderConnections_incl (l : list TPolygon) :
  closedUnderConnections l = true ->
  forall t, In t l -> incl (connections t) l.
Proof.
  unfold closedUnderConnections. rewrite forallb_forall.
  intros H t Ht c Hc. specialize (H t Ht). rewrite forallb_forall in H.
  apply includes_true. now apply H.
Qed.

(** X2: on a list of triangles that holds the neighbours of each of its
    triangles, the A* search from one of them ends within one iteration per
    triangle and one more, whatever distances the library returns; allowing
    more iterations gives the same corridor. *)
Theorem findTrianglePath_terminates (l : list TPolygon) (start end_ : TPolygon) :
  closedUnderConnections l = true ->
  In start l ->
  exists corridor,
    forall extra,
      findTrianglePath (S (length l) + extra) start end_ = Some corridor.
Proof.
  intros Hclosed Hstart.
  exact (@findTrianglePath_total _ l (closedUnderConnections_incl _ Hclosed)
           start end_ Hstart).
Qed.

End Totality.

Lemma findTrianglePath_terminates_witness :
  exists corridor,
    forall extra,
      @findTrianglePath Sample.provider
        (S (length (triangles Sample.ellMesh)) + extra) 4%nat 9%nat
      = Some corridor.
Proof.
  apply (@findTrianglePath_terminates Sample.provider
           (triangles Sample.ellMesh) 4%nat 9%nat).
  - reflexivity.
  - left. reflexivity.
Defined.

(** the route of the L-shaped mesh turns at the inner corner *)
Example findPath_ell :
  findPath 7 Sample.ellMesh (Sample.P 18 5) (Sample.P 5 18) false
  = Some [Sample.P 18 5; Sample.P 10 10; Sample.P 5 18].
Proof. vm_compute. reflexivity. Qed.

(** ** Further properties of the primitives *)

Lemma getSegmentIntersectionPoint_sound (p1 q1 p2 q2 r : Point) :
  getSegmentIntersectionPoint p1 q1 p2 q2 = Some r ->
  onSegment r p1 q1 /\ onSegment r p2 q2.
Proof.
  unfold getSegmentIntersectionPoint. cbn [Point.x Point.y].
  set (rx := Point.x q1 - Point.x p1). set (ry := Point.y q1 - Point.y p1).
  set (sx := Point.x q2 - Point.x p2). set (sy := Point.y q2 - Point.y p2).
  set (qx := Point.x p2 - Point.x p1). set (qy := Point.y p2 - Point.y p1).
  destruct (_ <? _)%num eqn:Hpar; [discriminate|].
  apply ltb_ge in Hpar.
  assert (Hrxs : ~ rx * sy - ry * sx == 0).
  { intro E. rewrite E in Hpar. cbn in Hpar.
    apply (Qle_not_lt _ _ Hpar). reflexivity. }
  destruct (_ && _) eqn:Hin; [|discriminate].
  rewrite !andb_true_iff in Hin. destruct Hin as [[[Ht0 Ht1] Hu0] Hu1].
  apply geb_ge in Ht0, Hu0. apply leb_le in Ht1, Hu1.
  intros [= <-]. cbn [Point.x Point.y]. split.
  - exists ((qx * sy - qy * sx) / (rx * sy - ry * sx)).
    cbn [Point.x Point.y].
    repeat split; try assumption; unfold rx, ry; ring.
  - exists ((qx * ry - qy * rx) / (rx * sy - ry * sx)).
    cbn [Point.x Point.y].
    repeat split; try assumption.
    + unfold qx, qy, rx, ry, sx, sy in *. field. exact Hrxs.
    + unfold qx, qy, rx, ry, sx, sy in *. field. exact Hrxs.
Qed.



(** ** Further properties of the engine *)

Section Locator.

Context {provider : Provider}.

(** [isPointInNavMesh] says whether the locator finds a triangle. *)
Theorem isPointInNavMesh_iff (nm : NavMesh2d) (p : Point) :
  isPointInNavMesh nm p = true
  <-> exists t, findTriangleContainingPoint nm p = Some t.
Proof.
  unfold isPointInNavMesh.
  destruct (findTriangleContainingPoint nm p) as [t|]; split.
  - eauto.
  - reflexivity.
  - discriminate.
  - intros [t H]. discriminate H.
Qed.

(** The locator returns the first triangle of the flat list that
    contains the point. *)
Theorem findTriangleContainingPoint_first (nm : NavMesh2d) (p : Point)
  (t : TPolygon) :
  findTriangleContainingPoint nm p = Some t ->
  exists before after,
    triangles nm = before ++ t :: after
    /\ isPointInTriangle p t = true
    /\ forall u, In u before -> isPointInTriangle p u = false.
Proof.
  unfold findTriangleContainingPoint.
  induction (triangles nm) as [|u l IH]; cbn [find]; [discriminate|].
  destruct (isPointInTriangle p u) eqn:E.
  - intros [= <-]. exists [], l. repeat split; [assumption|intros ? []].
  - intro H. destruct (IH H) as (before & after & -> & Ht & Hb).
    exists (u :: before), after. repeat split; [assumption|].
    intros v [<-|Hv]; [assumption|now apply Hb].
Qed.

(** The triangles of the mesh are those of its polygons, in order. *)
Theorem newNavMesh2d_triangles (pm : PolygonMap) :
  triangles (newNavMesh2d pm) = flat_map tpolygons (polygons pm).
Proof. reflexivity. Qed.

(** At most one portal per pair of consecutive corridor triangles. *)
Theorem getPortalEdges_length (trianglePath : list TPolygon) :
  (length (getPortalEdges trianglePath) <= length trianglePath - 1)%nat.
Proof.
  induction trianglePath as [|t1 [|t2 rest] IH]; [cbn; lia..|].
  change (getPortalEdges (t1 :: t2 :: rest))
    with (match getSharedEdge t1 t2 with
          | Some sharedEdge => sharedEdge :: getPortalEdges (t2 :: rest)
          | None => getPortalEdges (t2 :: rest)
          end).
  cbn [length] in *.
  destruct (getSharedEdge t1 t2); cbn [length]; lia.
Qed.

End Locator.

Lemma findTriangleContainingPoint_first_witness :
  exists before after,
    triangles Sample.squareMesh = before ++ 1%nat :: after
    /\ @isPointInTriangle Sample.provider (Sample.P 8 8) 1%nat = true
    /\ forall u, In u before ->
                 @isPointInTriangle Sample.provider (Sample.P 8 8) u = false.
Proof.
  apply (@findTriangleContainingPoint_first Sample.provider Sample.squareMesh
           (Sample.P 8 8) 1%nat).
  vm_compute. reflexivity.
Defined.


(** ** Orientation and segment crossing *)

(** the value [val] of [orientation] is [triArea2] *)
Lemma orientation_val (p q r : Point) :
  (Point.y q - Point.y p) * (Point.x r - Point.x q)
  - (Point.x q - Point.x p) * (Point.y r - Point.y q)
  == triArea2 p q r.
Proof. unfold triArea2. ring. Qed.

Lemma orientation_cases (p q r : Point) :
  (orientation p q r = 0%nat /\ Qabs (triArea2 p q r) < 1 # 10000000000)
  \/ (orientation p q r = 1%nat /\ 1 # 10000000000 <= triArea2 p q r)
  \/ (orientation p q r = 2%nat /\ triArea2 p q r <= - (1 # 10000000000)).
Proof.
  unfold orientation.
  pose proof (orientation_val p q r) as E.
  set (val := _ - _) in *.
  destruct (Qabs val <? _)%num eqn:Z.
  - left. split; [reflexivity|]. apply ltb_lt in Z. now rewrite <- E.
  - apply ltb_ge in Z. rewrite E in Z.
    destruct (val >? 0)%num eqn:S.
    + right; left. split; [reflexivity|]. apply gtb_gt in S. rewrite E in S.
      rewrite Qabs_pos in Z; lra.
    + right; right. split; [reflexivity|]. apply gtb_le in S. rewrite E in S.
      rewrite Qabs_neg in Z; lra.
Qed.

(** [orientation] is the sign of [triArea2] with a dead band: 0 when
    the area is below the tolerance in absolute value, 1 when it is at
    least the tolerance, 2 when it is at most its opposite. *)
Theorem orientation_triArea2 (p q r : Point) :
  (orientation p q r = 0%nat <-> Qabs (triArea2 p q r) < 1 # 10000000000)
  /\ (orientation p q r = 1%nat <-> 1 # 10000000000 <= triArea2 p q r)
  /\ (orientation p q r = 2%nat <-> triArea2 p q r <= - (1 # 10000000000)).
Proof.
  pose proof (Qabs_Qlt_condition (triArea2 p q r) (1 # 10000000000)) as A.
  destruct (orientation_cases p q r) as [[-> H]|[[-> H]|[-> H]]];
    repeat split; intro K; try reflexivity; try discriminate K;
    try assumption; exfalso.
  all: try (apply A in H; lra).
  all: try (apply A in K; lra).
  all: lra.
Qed.

Lemma triArea2_reverse (a b c : Point) : triArea2 b a c == - triArea2 a b c.
Proof. unfold triArea2. ring. Qed.

Lemma orientation_reverse (p q r : Point) :
  orientation q p r = flip (orientation p q r).
Proof.
  pose proof (triArea2_reverse p q r) as E.
  pose proof (Qabs_Qlt_condition (triArea2 p q r) (1 # 10000000000)) as A.
  pose proof (Qabs_Qlt_condition (triArea2 q p r) (1 # 10000000000)) as B.
  destruct (orientation_cases p q r) as [[-> H]|[[-> H]|[-> H]]];
    destruct (orientation_cases q p r) as [[-> K]|[[-> K]|[-> K]]];
    try reflexivity; exfalso;
    try (apply A in H); try (apply B in K); lra.
Qed.

Lemma flip_eqb (a b : nat) : (flip a =? flip b)%nat = (a =? b)%nat.
Proof.
  destruct a as [|[|[|a]]]; destruct b as [|[|[|b]]]; reflexivity.
Qed.

(** [segmentsIntersect] does not depend on the order of the two
    segments nor on the direction of either. *)
Theorem segmentsIntersect_symmetric (p1 q1 p2 q2 : Point) :
  segmentsIntersect p2 q2 p1 q1 = segmentsIntersect p1 q1 p2 q2
  /\ segmentsIntersect q1 p1 p2 q2 = segmentsIntersect p1 q1 p2 q2
  /\ segmentsIntersect p1 q1 q2 p2 = segmentsIntersect p1 q1 p2 q2.
Proof.
  unfold segmentsIntersect. repeat split.
  - now rewrite andb_comm.
  - rewrite !(orientation_reverse p1 q1), flip_eqb.
    now rewrite (Nat.eqb_sym (orientation p2 q2 q1)).
  - rewrite !(orientation_reverse p2 q2), flip_eqb.
    now rewrite (Nat.eqb_sym (orientation p1 q1 q2)).
Qed.

Lemma between_of_opposite (a b : Q) :
  (0 < a /\ b < 0) \/ (a < 0 /\ 0 < b) ->
  ~ a - b == 0 /\ 0 <= a / (a - b) /\ a / (a - b) <= 1.
Proof.
  intro H.
  assert (N : ~ a - b == 0) by (intro E; lra).
  split; [exact N|].
  assert (E : a / (a - b) * (a - b) == a) by (field; exact N).
  set (x := a / (a - b)) in *. clearbody x.
  destruct H as [[Ha Hb]|[Ha Hb]]; split; nra.
Qed.




Lemma triArea2_collinear (origin : Point) (dx dy : Q) (p q r : Point) :
  onLine origin dx dy p -> onLine origin dx dy q -> onLine origin dx dy r ->
  triArea2 p q r == 0.
Proof.
  intros (t & Hx & Hy) (u & Hx' & Hy') (v & Hx'' & Hy''). unfold triArea2.
  rewrite Hx, Hy, Hx', Hy', Hx'', Hy''. ring.
Qed.

Lemma orientation_collinear (origin : Point) (dx dy : Q) (p q r : Point) :
  onLine origin dx dy p -> onLine origin dx dy q -> onLine origin dx dy r ->
  orientation p q r = 0%nat.
Proof.
  intros Hp Hq Hr. pose proof (triArea2_collinear Hp Hq Hr) as E.
  destruct (orientation_cases p q r) as [[H _]|[[_ H]|[_ H]]];
    [exact H|exfalso; lra..].
Qed.

(** [segmentsIntersect] has no case for collinear segments: for
    four points of one line the answer is no, even when the segments
    overlap or are the same segment. *)
Theorem segmentsIntersect_collinear (origin : Point) (dx dy : Q)
  (p1 q1 p2 q2 : Point) :
  onLine origin dx dy p1 -> onLine origin dx dy q1 ->
  onLine origin dx dy p2 -> onLine origin dx dy q2 ->
  segmentsIntersect p1 q1 p2 q2 = false.
Proof.
  intros H1 H2 H3 H4. unfold segmentsIntersect.
  rewrite (orientation_collinear H1 H2 H3), (orientation_collinear H1 H2 H4).
  reflexivity.
Qed.

(** the segments from (0,0) to (10,0) and from (5,0) to (15,0) overlap *)
Lemma segmentsIntersect_collinear_witness :
  segmentsIntersect (Sample.P 0 0) (Sample.P 10 0) (Sample.P 5 0) (Sample.P 15 0)
  = false.
Proof.
  apply (@segmentsIntersect_collinear (Sample.P 0 0) 1 0
           (Sample.P 0 0) (Sample.P 10 0) (Sample.P 5 0) (Sample.P 15 0)).
  - exists 0. split; reflexivity.
  - exists 10. split; reflexivity.
  - exists 5. split; reflexivity.
  - exists 15. split; reflexivity.
Defined.

(** ** Points of a segment and of a triangle *)

Lemma Qabs_zero (q : Q) : q == 0 -> Qabs q == 0.
Proof. intro H. rewrite H. reflexivity. Qed.

Lemma isPointOnSegment_onSegment (r a b : Point) :
  onSegment r a b -> isPointOnSegment r a b = true.
Proof.
  intros (t & Ht0 & Ht1 & Hx & Hy).
  unfold isPointOnSegment. cbn [Point.x Point.y].
  set (abx := Point.x b - Point.x a) in *.
  set (aby := Point.y b - Point.y a) in *.
  assert (Ex : Point.x r - Point.x a == t * abx) by (rewrite Hx; ring).
  assert (Ey : Point.y r - Point.y a == t * aby) by (rewrite Hy; ring).
  assert (Hc : abx * (Point.y r - Point.y a) - aby * (Point.x r - Point.x a) == 0)
    by (rewrite Ex, Ey; ring).
  assert (Hd : (Point.x r - Point.x a) * abx + (Point.y r - Point.y a) * aby
               == t * (abx * abx + aby * aby))
    by (rewrite Ex, Ey; ring).
  assert (G1 : (Qabs (abx * (Point.y r - Point.y a) - aby * (Point.x r - Point.x a))
                >? (1 # 1000000000))%num = false).
  { apply gtb_le. rewrite (Qabs_zero Hc). discriminate. }
  rewrite G1.
  assert (Hsq : 0 <= abx * abx + aby * aby) by nra.
  assert (G2 : ((Point.x r - Point.x a) * abx + (Point.y r - Point.y a) * aby <? 0)%num
               = false).
  { apply ltb_ge. rewrite Hd. nra. }
  assert (G3 : ((Point.x r - Point.x a) * abx + (Point.y r - Point.y a) * aby
                >? abx * abx + aby * aby)%num = false).
  { apply gtb_le. rewrite Hd. nra. }
  rewrite G2, G3. reflexivity.
Qed.



Lemma onSegment_end (a b : Point) : onSegment b a b.
Proof. exists 1. split; [lra|]. split; [lra|]. split; ring. Qed.

Section TriangleBoundary.

Context {provider : Provider}.

Lemma isPointInTriangle_edge (triangle : TPolygon) (r : Point) :
  onTriangleEdge r triangle -> isPointInTriangle r triangle = true.
Proof.
  intro Hedge. unfold isPointInTriangle, onTriangleEdge in *.
  destruct (pointInTriangle r (mainTriangle triangle)); [reflexivity|].
  destruct (mainTriangle triangle) as [[p1 p2] p3].
  destruct Hedge as [H|[H|H]]; apply isPointOnSegment_onSegment in H;
    rewrite H; rewrite ?orb_true_r; reflexivity.
Qed.

Lemma isPointInNavMesh_in_triangle (nm : NavMesh2d) (triangle : TPolygon)
  (r : Point) :
  In triangle (triangles nm) -> isPointInTriangle r triangle = true ->
  isPointInNavMesh nm r = true.
Proof.
  intros Hin Ht. unfold isPointInNavMesh, findTriangleContainingPoint.
  destruct (find (isPointInTriangle r) (triangles nm)) eqn:F; [reflexivity|].
  exfalso. pose proof (find_none _ _ F triangle Hin) as N. congruence.
Qed.

Lemma vertex_onTriangleEdge (triangle : TPolygon) (q : Point) :
  In q (vertexList triangle) -> onTriangleEdge q triangle.
Proof.
  unfold vertexList, onTriangleEdge.
  destruct (mainTriangle triangle) as [[p1 p2] p3].
  intros [<-|[<-|[<-|[]]]].
  - left. apply onSegment_start.
  - left. apply onSegment_end.
  - right; left. apply onSegment_end.
Qed.


End TriangleBoundary.


(** ** Nearest points *)

Lemma squaredDistance_at (p s : Point) (X Y : Q) :
  Point.x s == X -> Point.y s == Y ->
  Point.squaredDistance p s
  == (Point.x p - X) * (Point.x p - X) + (Point.y p - Y) * (Point.y p - Y).
Proof.
  intros Hx Hy. unfold Point.squaredDistance. rewrite Hx, Hy. reflexivity.
Qed.

Lemma square_nonneg (u : Q) : 0 <= u * u.
Proof. nra. Qed.

Lemma squares_zero (u v : Q) : u * u + v * v == 0 -> u == 0 /\ v == 0.
Proof.
  intro H. assert (0 <= u * u) by nra. assert (0 <= v * v) by nra.
  split; nra.
Qed.

Lemma closestPointOnSegment_le (p a b s : Point) :
  onSegment s a b ->
  Point.squaredDistance p (closestPointOnSegment p a b)
  <= Point.squaredDistance p s.
Proof.
  intros (u & Hu0 & Hu1 & Hx & Hy).
  rewrite (@squaredDistance_at p s _ _ Hx Hy).
  unfold closestPointOnSegment. cbn [Point.x Point.y].
  set (abx := Point.x b - Point.x a) in *.
  set (aby := Point.y b - Point.y a) in *.
  set (apx := Point.x p - Point.x a) in *.
  set (apy := Point.y p - Point.y a) in *.
  set (atb2 := abx * abx + aby * aby) in *.
  set (dot := apx * abx + apy * aby) in *.
  assert (Es : (Point.x p - (Point.x a + u * abx)) * (Point.x p - (Point.x a + u * abx))
               + (Point.y p - (Point.y a + u * aby)) * (Point.y p - (Point.y a + u * aby))
               == (apx * apx + apy * apy) - 2 * u * dot + u * u * atb2).
  { unfold dot, atb2, apx, apy. ring. }
  rewrite Es. clear Es.
  destruct (Num.eqb atb2 0) eqn:Z.
  - apply eqb_eq in Z. destruct (@squares_zero abx aby Z) as [Zx Zy].
    unfold Point.squaredDistance.
    assert (Ed : dot == 0) by (unfold dot; rewrite Zx, Zy; ring).
    rewrite Ed, Z. unfold apx, apy. lra.
  - apply eqb_neq in Z.
    assert (Hpos : 0 < atb2).
    { assert (0 <= atb2) by (unfold atb2; nra).
      destruct (Qlt_le_dec 0 atb2) as [L|L]; [exact L|].
      exfalso. apply Z. lra. }
    assert (Hq : dot / atb2 * atb2 == dot) by (field; exact Z).
    unfold Point.squaredDistance. cbn [Point.x Point.y].
    set (q := dot / atb2) in *. clearbody q.
    assert (Et : forall t,
               (Point.x p - (Point.x a + abx * t)) * (Point.x p - (Point.x a + abx * t))
               + (Point.y p - (Point.y a + aby * t)) * (Point.y p - (Point.y a + aby * t))
               == (apx * apx + apy * apy) - 2 * t * dot + t * t * atb2).
    { intro t. unfold dot, atb2, apx, apy. ring. }
    rewrite Et.
    clearbody dot atb2 apx apy. clear Et Hx Hy.
    destruct (clamp_cases q) as [[-> Hc]|[[-> Hc]|[-> Hc]]].
    + assert (dot <= 0) by (rewrite <- Hq; nra).
      assert (0 <= u * u * atb2) by nra.
      assert (0 <= - (u * dot)) by nra. lra.
    + assert (0 <= atb2 * ((u - q) * (u - q))).
      { apply Qmult_le_0_compat; [lra|]. apply square_nonneg. }
      assert (E : (apx * apx + apy * apy) - 2 * u * dot + u * u * atb2
                  - ((apx * apx + apy * apy) - 2 * q * dot + q * q * atb2)
                  == atb2 * ((u - q) * (u - q))).
      { rewrite <- Hq. ring. }
      lra.
    + assert (atb2 <= dot) by (rewrite <- Hq; nra).
      assert (0 <= (1 - u) * (2 * dot - atb2 * (1 + u))).
      { apply Qmult_le_0_compat; [lra|].
        assert (atb2 * u <= atb2 * 1) by (apply Qmult_le_l; lra). lra. }
      assert (E : (apx * apx + apy * apy) - 2 * u * dot + u * u * atb2
                  - ((apx * apx + apy * apy) - 2 * 1 * dot + 1 * 1 * atb2)
                  == (1 - u) * (2 * dot - atb2 * (1 + u))) by ring.
      lra.
Qed.

(** ** Segments that cross *)

Lemma getSegmentIntersectionPoint_crossing (p1 q1 p2 q2 : Point) :
  (Qabs (directionCross p1 q1 p2 q2) < 1 # 100000000 ->
   getSegmentIntersectionPoint p1 q1 p2 q2 = None)
  /\ (1 # 100000000 <= Qabs (directionCross p1 q1 p2 q2) ->
      forall s, onSegment s p1 q1 -> onSegment s p2 q2 ->
                exists r, getSegmentIntersectionPoint p1 q1 p2 q2 = Some r
                          /\ Point.x r == Point.x s /\ Point.y r == Point.y s).
Proof.
  unfold getSegmentIntersectionPoint, directionCross. cbn [Point.x Point.y].
  set (rx := Point.x q1 - Point.x p1). set (ry := Point.y q1 - Point.y p1).
  set (sx := Point.x q2 - Point.x p2). set (sy := Point.y q2 - Point.y p2).
  split.
  - intro H. apply ltb_lt in H. rewrite H. reflexivity.
  - intros H s (t & Ht0 & Ht1 & Hx1 & Hy1) (u & Hu0 & Hu1 & Hx2 & Hy2).
    fold rx in Hx1. fold ry in Hy1. fold sx in Hx2. fold sy in Hy2.
    assert (Hnz : ~ rx * sy - ry * sx == 0).
    { intro E. rewrite E in H. cbn in H. apply (Qle_not_lt _ _ H). reflexivity. }
    apply ltb_ge in H. rewrite H.
    assert (Eqx : Point.x p2 - Point.x p1 == t * rx - u * sx) by lra.
    assert (Eqy : Point.y p2 - Point.y p1 == t * ry - u * sy) by lra.
    assert (Et : ((Point.x p2 - Point.x p1) * sy - (Point.y p2 - Point.y p1) * sx)
                 / (rx * sy - ry * sx) == t).
    { rewrite Eqx, Eqy. field. exact Hnz. }
    assert (Eu : ((Point.x p2 - Point.x p1) * ry - (Point.y p2 - Point.y p1) * rx)
                 / (rx * sy - ry * sx) == u).
    { rewrite Eqx, Eqy. field. exact Hnz. }
    set (tc := _ / _) in *. set (uc := _ / (rx * sy - ry * sx)) in Eu |- *.
    assert (C : ((tc >=? 0) && (tc <=? 1) && (uc >=? 0) && (uc <=? 1))%num = true).
    { rewrite !andb_true_iff. repeat split;
        [apply geb_ge|apply leb_le|apply geb_ge|apply leb_le];
        rewrite ?Et, ?Eu; assumption. }
    rewrite C. eexists. split; [reflexivity|]. cbn [Point.x Point.y].
    rewrite Et, Hx1, Hy1. split; reflexivity.
Qed.



(** ** The A* search is sound and complete *)

Section AStarCorrect.

Context {provider : Provider}.

Variable start : TPolygon.

Lemma getNode_writeNode_some (m : NodeMap) (t t' : TPolygon) (n n' : PathNode) :
  getNode (writeNode m t n) t' = Some n' ->
  (t' = t /\ n' = n /\ exists n0, getNode m t = Some n0)
  \/ (t' <> t /\ getNode m t' = Some n').
Proof.
  destruct (TPolygon_eq_dec t' t) as [->|Hne].
  - intro H. left. split; [reflexivity|].
    destruct (getNode m t) as [n0|] eqn:E.
    + rewrite (@getNode_writeNode_same _ m t n n0 E) in H.
      injection H as <-. eauto.
    + exfalso. revert H E. unfold getNode, writeNode.
      induction m as [|[k v] m IH]; cbn [map find fst snd]; [discriminate|].
      destruct (same t k) eqn:S; cbn [fst snd].
      * intros _ H. discriminate H.
      * rewrite S. exact IH.
  - intro H. right. split; [exact Hne|].
    now rewrite getNode_writeNode_other in H.
Qed.

Lemma visitNeighbor_nodesLinked endCenter closed current m open neighbor :
  In neighbor (connections (triangle current)) ->
  nodesLinked start m ->
  nodesLinked start
    (fst (visitNeighbor endCenter closed current (m, open) neighbor)).
Proof.
  intros Hnb Hm. unfold visitNeighbor.
  destruct (includes closed neighbor); [exact Hm|].
  destruct (getNode m neighbor) as [neighborNode|] eqn:Hget.
  - destruct (_ <? _)%num; cbn [fst]; [|exact Hm].
    intros t n Hn. apply getNode_writeNode_some in Hn.
    destruct Hn as [(-> & -> & _)|(_ & Hn)]; [|now apply Hm].
    cbn [triangle parent]. split; [|exact Hnb].
    now destruct (Hm _ _ Hget).
  - cbn [fst]. intros t n Hn. rewrite getNode_setNode in Hn.
    destruct (getNode m t) as [n0|] eqn:E.
    + injection Hn as <-. now apply Hm.
    + destruct (same t neighbor) eqn:S; [|discriminate Hn].
      apply same_true in S. subst t. injection Hn as <-.
      cbn [triangle parent]. split; [reflexivity|exact Hnb].
Qed.

Lemma visitNeighbors_nodesLinked endCenter closed current nbs :
  incl nbs (connections (triangle current)) ->
  forall m open,
    nodesLinked start m ->
    nodesLinked start
      (fst (fold_left (visitNeighbor endCenter closed current) nbs (m, open))).
Proof.
  induction nbs as [|nb nbs IH]; intros Hin m open Hm; cbn [fold_left];
    [exact Hm|].
  pose proof (@visitNeighbor_nodesLinked endCenter closed current m open nb
                (Hin nb (or_introl eq_refl)) Hm) as Hstep.
  destruct (visitNeighbor endCenter closed current (m, open) nb) as [m1 open1].
  apply IH; [|exact Hstep]. intros t Ht. apply Hin. now right.
Qed.

(** the path is rebuilt in front of what is already there *)
Lemma reconstruct_linked (m : NodeMap) :
  nodesLinked start m ->
  forall fuel t acc r,
    linked t acc ->
    reconstruct fuel m (Some t) acc = Some r ->
    linked start r
    /\ exists pre, r = pre ++ acc
                   /\ ((pre = [] /\ t = start)
                       \/ exists pre', pre = pre' ++ [t]).
Proof.
  intros Hm. induction fuel as [|fuel IH]; intros t acc r Hacc Hrun;
    [discriminate Hrun|].
  cbn [reconstruct] in Hrun.
  destruct (getNode m t) as [n|] eqn:Hn; [|discriminate Hrun].
  destruct (Hm _ _ Hn) as [Htri Hpar].
  destruct (parent n) as [p|].
  - destruct (IH p (triangle n :: acc) r) as (Hl & pre & -> & _).
    + rewrite Htri. split; assumption.
    + exact Hrun.
    + split; [exact Hl|]. exists (pre ++ [t]).
      split; [rewrite <- app_assoc, Htri; reflexivity|].
      right. now exists pre.
  - injection Hrun as <-. split; [rewrite <- Hpar; exact Hacc|].
    exists []. split; [reflexivity|]. now left.
Qed.

Lemma astarLoop_sound (end_ : TPolygon) :
  forall fuel st r,
    nodesLinked start (nodeMap st) ->
    astarLoop fuel end_ st = Some r ->
    linked start r
    /\ (r = [] \/ exists front, r = front ++ [end_]).
Proof.
  induction fuel as [|fuel IH]; intros st r Hm Hrun; [discriminate Hrun|].
  cbn [astarLoop] in Hrun.
  destruct (sortOpenSet (nodeMap st) (openSet st)) as [|cur rest].
  - injection Hrun as <-. split; [exact I|now left].
  - destruct (getNode (nodeMap st) cur) as [current|] eqn:Hcur;
      [|discriminate Hrun].
    destruct (Hm _ _ Hcur) as [Htri _].
    destruct (same (triangle current) end_) eqn:Hsame.
    + apply same_true in Hsame.
      destruct (@reconstruct_linked _ Hm _ cur [] r I Hrun)
        as (Hl & pre & -> & Hpre).
      split; [exact Hl|]. rewrite app_nil_r.
      destruct Hpre as [[-> _]|[pre' ->]]; [now left|right].
      exists pre'. congruence.
    + destruct (fold_left _ _ _) as [m open] eqn:Hfold.
      apply (IH _ _ ) in Hrun; [exact Hrun|]. cbn [nodeMap].
      pose proof (@visitNeighbors_nodesLinked (getTriangleCenter end_)
                    (triangle current :: closedSet st) current
                    (connections (triangle current)) (incl_refl _)
                    (nodeMap st) rest Hm) as H.
      now rewrite Hfold in H.
Qed.

Lemma NoDup_snoc (A : Type) (l : list A) (x : A) :
  NoDup l -> ~ In x l -> NoDup (l ++ [x]).
Proof.
  induction l as [|y l IH]; intros Hd Hx; cbn [app].
  - constructor; [intros []|constructor].
  - inversion Hd as [|? ? Hy Hl]; subst. constructor.
    + intro H. apply in_app_or in H. destruct H as [H|[<-|[]]].
      * contradiction.
      * apply Hx. now left.
    + apply IH; [assumption|]. intro H. apply Hx. now right.
Qed.

(** The parent links below a triangle form one chain, whatever the fuel:
    walking down from a triangle of the chain gives a shorter chain, so no
    triangle occurs twice; the chain ends at the node without a parent. *)
Lemma reconstruct_chain (m : NodeMap) :
  nodesLinked start m ->
  forall fuel t acc r,
    reconstruct fuel m (Some t) acc = Some r ->
    exists pre,
      r = pre ++ acc
      /\ NoDup pre
      /\ (forall f acc' r',
             reconstruct f m (Some t) acc' = Some r' -> r' = pre ++ acc')
      /\ (forall u, In u pre ->
             (exists n p, getNode m u = Some n /\ parent n = Some p)
             /\ exists pre_u,
                 (length pre_u <= length pre)%nat
                 /\ forall f acc' r',
                     reconstruct f m (Some u) acc' = Some r' ->
                     r' = pre_u ++ acc')
      /\ exists n0, getNode m start = Some n0 /\ parent n0 = None.
Proof.
  intros Hm. induction fuel as [|fuel IH]; intros t acc r Hrun;
    [discriminate Hrun|].
  pose proof Hrun as Hrun0.
  cbn [reconstruct] in Hrun.
  destruct (getNode m t) as [n|] eqn:Hn; [|discriminate Hrun].
  destruct (Hm _ _ Hn) as [Htri Hpar].
  destruct (parent n) as [p|] eqn:Hp.
  - destruct (IH p (triangle n :: acc) r Hrun)
      as (pre & -> & Hnd & Huniq & Hmem & Hstart).
    assert (Hut : forall f acc' r',
               reconstruct f m (Some t) acc' = Some r' ->
               r' = (pre ++ [t]) ++ acc').
    { intros [|f] acc' r' H; [discriminate H|].
      cbn [reconstruct] in H. rewrite Hn, Hp in H.
      rewrite (Huniq _ _ _ H), Htri, <- app_assoc. reflexivity. }
    exists (pre ++ [t]). split; [rewrite <- app_assoc, Htri; reflexivity|].
    split; [|split; [exact Hut|split; [|exact Hstart]]].
    + apply NoDup_snoc; [exact Hnd|]. intro Hin.
      destruct (Hmem t Hin) as (_ & pre_t & Hlen & Hu).
      pose proof (Hu _ _ _ Hrun0) as E1. pose proof (Hut _ _ _ Hrun0) as E2.
      rewrite E1 in E2. apply app_inv_tail in E2. subst pre_t.
      rewrite length_app in Hlen. cbn [length] in Hlen. lia.
    + intros u Hu. apply in_app_or in Hu. destruct Hu as [Hu|[<-|[]]].
      * destruct (Hmem u Hu) as (Hnode & pre_u & Hlen & Huu).
        split; [exact Hnode|]. exists pre_u. split; [|exact Huu].
        rewrite length_app. lia.
      * split; [eauto|]. exists (pre ++ [t]). split; [lia|exact Hut].
  - injection Hrun as <-. exists []. split; [reflexivity|].
    split; [constructor|]. split; [|split].
    + intros [|f] acc' r' H; [discriminate H|].
      cbn [reconstruct] in H. rewrite Hn, Hp in H. now injection H as <-.
    + intros u [].
    + exists n. split; [congruence|exact Hp].
Qed.

Lemma reconstruct_NoDup (m : NodeMap) :
  nodesLinked start m ->
  forall fuel t r,
    reconstruct fuel m (Some t) [] = Some r -> NoDup (start :: r).
Proof.
  intros Hm fuel t r Hrun.
  destruct (@reconstruct_chain m Hm fuel t [] r Hrun)
    as (pre & -> & Hnd & _ & Hmem & n0 & Hn0 & Hp0).
  rewrite app_nil_r. constructor; [|exact Hnd].
  intro Hin. destruct (Hmem start Hin) as ((n & p & Hn & Hp) & _).
  congruence.
Qed.

Lemma astarLoop_NoDup (end_ : TPolygon) :
  forall fuel st r,
    nodesLinked start (nodeMap st) ->
    astarLoop fuel end_ st = Some r ->
    NoDup (start :: r).
Proof.
  induction fuel as [|fuel IH]; intros st r Hm Hrun; [discriminate Hrun|].
  cbn [astarLoop] in Hrun.
  destruct (sortOpenSet (nodeMap st) (openSet st)) as [|cur rest].
  - injection Hrun as <-. constructor; [intros []|constructor].
  - destruct (getNode (nodeMap st) cur) as [current|] eqn:Hcur;
      [|discriminate Hrun].
    destruct (same (triangle current) end_) eqn:Hsame.
    + eapply reconstruct_NoDup; eassumption.
    + destruct (fold_left _ _ _) as [m open] eqn:Hfold.
      apply (IH _ _ ) in Hrun; [exact Hrun|]. cbn [nodeMap].
      pose proof (@visitNeighbors_nodesLinked (getTriangleCenter end_)
                    (triangle current :: closedSet st) current
                    (connections (triangle current)) (incl_refl _)
                    (nodeMap st) rest Hm) as H.
      now rewrite Hfold in H.
Qed.

Lemma nodesLinked_start h :
  nodesLinked start
    [(start, {| triangle := start; gCost := 0; hCost := h; fCost := 0 + h;
                parent := None |})].
Proof.
  intros t n. unfold getNode. cbn [find fst snd].
  destruct (same t start) eqn:S; [|discriminate].
  apply same_true in S. intros [= <-]. cbn. now split.
Qed.

Lemma findTrianglePath_sound_aux fuel end_ r :
  findTrianglePath fuel start end_ = Some r ->
  linked start r /\ (r = [] \/ exists front, r = front ++ [end_]).
Proof.
  unfold findTrianglePath. intro H.
  eapply astarLoop_sound; [|exact H]. apply nodesLinked_start.
Qed.

Lemma findTrianglePath_NoDup fuel end_ r :
  findTrianglePath fuel start end_ = Some r -> NoDup (start :: r).
Proof.
  unfold findTrianglePath. intro H.
  eapply astarLoop_NoDup; [|exact H]. apply nodesLinked_start.
Qed.

Lemma linked_reachable (s : TPolygon) (path : list TPolygon) :
  forall from, reachable s from -> linked from path ->
    forall t, In t path -> reachable s t.
Proof.
  induction path as [|u path IH]; intros from Hfrom Hl t Ht; [destruct Ht|].
  destruct Hl as [Hu Hl].
  assert (reachable s u) as Hru by (eapply reachable_step; eassumption).
  destruct Ht as [<-|Ht]; [exact Hru|]. eapply IH; eassumption.
Qed.

(** *** Completeness *)

Lemma visitNeighbor_frontier endCenter closed current m open neighbor :
  (forall t n, getNode m t = Some n -> In t open \/ In t closed) ->
  let r := visitNeighbor endCenter closed current (m, open) neighbor in
  (forall t n, getNode (fst r) t = Some n -> In t (snd r) \/ In t closed)
  /\ incl open (snd r)
  /\ (In neighbor closed \/ In neighbor (snd r)).
Proof.
  intros Hm. unfold visitNeighbor.
  destruct (includes closed neighbor) eqn:Hinc.
  - cbn [fst snd]. apply includes_true in Hinc.
    split; [exact Hm|]. split; [apply incl_refl|now left].
  - destruct (getNode m neighbor) as [neighborNode|] eqn:Hget.
    + assert (In neighbor closed \/ In neighbor open) as Hcov
        by (destruct (Hm _ _ Hget); tauto).
      destruct (_ <? _)%num; cbn [fst snd].
      * split; [|split; [apply incl_refl|exact Hcov]].
        intros t n Hn. apply getNode_writeNode_some in Hn.
        destruct Hn as [(-> & _ & _)|(_ & Hn)]; [tauto|eauto].
      * split; [exact Hm|]. split; [apply incl_refl|exact Hcov].
    + cbn [fst snd]. split; [|split].
      * intros t n Hn. rewrite getNode_setNode in Hn.
        destruct (getNode m t) as [n0|] eqn:E.
        -- destruct (Hm _ _ E); [left; apply in_or_app|]; tauto.
        -- destruct (same t neighbor) eqn:S; [|discriminate Hn].
           apply same_true in S. subst t. left. apply in_or_app. right. now left.
      * apply incl_appl, incl_refl.
      * right. apply in_or_app. right. now left.
Qed.

Lemma visitNeighbors_frontier endCenter closed current nbs :
  forall m open,
    (forall t n, getNode m t = Some n -> In t open \/ In t closed) ->
    let r := fold_left (visitNeighbor endCenter closed current) nbs (m, open) in
    (forall t n, getNode (fst r) t = Some n -> In t (snd r) \/ In t closed)
    /\ incl open (snd r)
    /\ (forall nb, In nb nbs -> In nb closed \/ In nb (snd r)).
Proof.
  induction nbs as [|nb nbs IH]; intros m open Hm; cbn [fold_left].
  - split; [exact Hm|]. split; [apply incl_refl|]. intros nb [].
  - destruct (@visitNeighbor_frontier endCenter closed current m open nb Hm)
      as (H1 & H2 & H3).
    destruct (visitNeighbor endCenter closed current (m, open) nb)
      as [m1 open1]. cbn [fst snd] in H1, H2, H3.
    destruct (IH m1 open1 H1) as (K1 & K2 & K3).
    split; [exact K1|]. split; [eapply incl_tran; eassumption|].
    intros x [<-|Hx]; [|now apply K3].
    destruct H3 as [H3|H3]; [now left|right; now apply K2].
Qed.

Lemma closed_reachable (closed : list TPolygon) :
  (forall c nb, In c closed -> In nb (connections c) -> In nb closed) ->
  In start closed ->
  forall t, reachable start t -> In t closed.
Proof.
  intros Hc Hs t Ht. induction Ht as [|t u _ IH Hu]; [exact Hs|].
  eapply Hc; eassumption.
Qed.

Lemma astarLoop_complete (end_ : TPolygon) :
  start <> end_ ->
  forall fuel st,
    nodesLinked start (nodeMap st) ->
    frontier (closedSet st) (nodeMap st) (openSet st) ->
    In start (closedSet st) \/ In start (openSet st) ->
    ~ In end_ (closedSet st) ->
    astarLoop fuel end_ st = Some [] ->
    ~ reachable start end_.
Proof.
  intros Hne. induction fuel as [|fuel IH];
    intros st Hm [Hkeys Hcov] Hstart Hend Hrun; [discriminate Hrun|].
  cbn [astarLoop] in Hrun.
  pose proof (fun u => sortOpenSet_In (nodeMap st) u (openSet st)) as Hsort.
  destruct (sortOpenSet (nodeMap st) (openSet st)) as [|cur rest].
  - intro Hreach. apply Hend.
    assert (forall u, ~ In u (openSet st)) as Hopen
      by (intros u Hu; apply Hsort in Hu; destruct Hu).
    apply (@closed_reachable (closedSet st)).
    + intros c nb Hc Hnb. destruct (Hcov _ _ Hc Hnb) as [H|H]; [exact H|].
      now apply Hopen in H.
    + destruct Hstart as [H|H]; [exact H|now apply Hopen in H].
    + exact Hreach.
  - destruct (getNode (nodeMap st) cur) as [current|] eqn:Hcur;
      [|discriminate Hrun].
    destruct (Hm _ _ Hcur) as [Htri _].
    destruct (same (triangle current) end_) eqn:Hsame.
    + apply same_true in Hsame. exfalso.
      destruct (@reconstruct_linked _ Hm _ cur [] [] I Hrun)
        as (_ & pre & Hpre & [[_ E]|[pre' ->]]).
      * apply Hne. congruence.
      * rewrite app_nil_r in Hpre. destruct pre'; discriminate Hpre.
    + apply same_false in Hsame.
      pose proof (@visitNeighbors_nodesLinked (getTriangleCenter end_)
                    (triangle current :: closedSet st) current
                    (connections (triangle current)) (incl_refl _)
                    (nodeMap st) rest Hm) as HL.
      assert (forall t n, getNode (nodeMap st) t = Some n ->
                In t rest \/ In t (triangle current :: closedSet st)) as Hkeys'.
      { intros t n Hn. destruct (Hkeys _ _ Hn) as [H|H].
        - apply Hsort in H. destruct H as [<-|H]; [|now left].
          right. left. exact Htri.
        - right. now right. }
      destruct (@visitNeighbors_frontier (getTriangleCenter end_)
                  (triangle current :: closedSet st) current
                  (connections (triangle current)) (nodeMap st) rest Hkeys')
        as (K1 & K2 & K3).
      destruct (fold_left _ _ _) as [m open] eqn:Hfold.
      cbn [fst snd] in HL, K1, K2, K3.
      apply IH in Hrun; [exact Hrun|exact HL| | |]; cbn [closedSet openSet nodeMap].
      * split; [exact K1|].
        intros c nb [<-|Hc] Hnb; [now apply K3|].
        destruct (Hcov _ _ Hc Hnb) as [H|H]; [left; now right|].
        apply Hsort in H. destruct H as [<-|H].
        -- left. left. exact Htri.
        -- right. now apply K2.
      * destruct Hstart as [H|H]; [left; now right|].
        apply Hsort in H. destruct H as [<-|H].
        -- left. left. exact Htri.
        -- right. now apply K2.
      * intros [H|H]; [apply Hsame; exact H|now apply Hend].
Qed.

Lemma findTrianglePath_complete_aux fuel end_ :
  start <> end_ ->
  findTrianglePath fuel start end_ = Some [] ->
  ~ reachable start end_.
Proof.
  intros Hne H. unfold findTrianglePath in H.
  eapply astarLoop_complete; [exact Hne| | | | |exact H];
    cbn [closedSet openSet nodeMap].
  - apply nodesLinked_start.
  - split.
    + intros t n. unfold getNode. cbn [find fst snd].
      destruct (same t start) eqn:S; [|discriminate].
      apply same_true in S. left. now left.
    + intros c nb [].
  - right. now left.
  - intros [].
Qed.

End AStarCorrect.

Section SearchCorrect.

Context {provider : Provider}.

Lemma findTrianglePath_same (fuel : nat) (start : TPolygon)
  (corridor : list TPolygon) :
  findTrianglePath fuel start start = Some corridor -> corridor = [].
Proof.
  unfold findTrianglePath. destruct fuel as [|fuel]; [discriminate|].
  cbn [astarLoop nodeMap openSet sortOpenSet fold_right insertByFCost].
  unfold getNode. cbn [find fst snd].
  assert (same start start = true) as -> by now apply same_true.
  cbn [triangle snd].
  assert (same start start = true) as -> by now apply same_true.
  cbn [reconstruct length]. unfold getNode. cbn [find fst snd].
  assert (same start start = true) as -> by now apply same_true.
  cbn [parent snd]. now intros [= <-].
Qed.

(** X11: the corridor that [findTrianglePath] returns is a chain of
    neighbours: its first triangle is a neighbour of the start triangle,
    every other one a neighbour of the one before it, and the last one is
    the goal triangle.  No triangle occurs in it twice, the start triangle
    does not occur in it, and the corridor from a triangle to itself is
    empty. *)
Theorem findTrianglePath_corridor (fuel : nat) (start end_ : TPolygon)
  (corridor : list TPolygon) :
  findTrianglePath fuel start end_ = Some corridor ->
  linked start corridor
  /\ (corridor = [] \/ exists front, corridor = front ++ [end_])
  /\ NoDup (start :: corridor)
  /\ (start = end_ -> corridor = []).
Proof.
  intro H. destruct (@findTrianglePath_sound_aux _ start fuel end_ corridor H)
    as [Hl Hlast].
  split; [exact Hl|]. split; [exact Hlast|].
  split; [eapply findTrianglePath_NoDup; exact H|].
  intros <-. eapply findTrianglePath_same. exact H.
Qed.

(** X12: [findTrianglePath] returns the empty corridor only when the
    goal triangle is the start triangle or cannot be reached from it by
    following connections. *)
Theorem findTrianglePath_empty (fuel : nat) (start end_ : TPolygon) :
  findTrianglePath fuel start end_ = Some [] ->
  start = end_ \/ ~ reachable start end_.
Proof.
  intro H. destruct (TPolygon_eq_dec start end_) as [E|Hne]; [now left|right].
  eapply findTrianglePath_complete_aux; eassumption.
Qed.

Lemma isNeighbor_true (s t : TPolygon) :
  isNeighbor s t = true <-> In t (connections s).
Proof.
  unfold isNeighbor. rewrite existsb_exists. split.
  - intros (c & Hc & E). apply same_true in E. now subst.
  - intro H. exists t. split; [exact H|now apply same_true].
Qed.

Lemma isNeighbor_unreachable (s t : TPolygon) :
  ~ reachable s t -> isNeighbor s t = false.
Proof.
  intro H. destruct (isNeighbor s t) eqn:E; [|reflexivity].
  exfalso. apply H. apply isNeighbor_true in E.
  eapply reachable_step; [apply reachable_here|exact E].
Qed.

(** X13: when the A* search returns the empty corridor for two
    different triangles, the goal triangle is not a neighbour of the start
    triangle: the adjacency fallback of [findPath] (lines 505-509) never
    produces a path, and [findPath] returns the empty path. *)
Theorem findPath_empty_corridor (fuel : nat) (nm : NavMesh2d) (a b : Point)
  (closestToStart : bool) (startTriangle goalTriangle : TPolygon)
  (goal : Point) :
  findTriangleContainingPoint nm a = Some startTriangle ->
  resolveTarget nm a b closestToStart startTriangle = Some (goal, goalTriangle) ->
  startTriangle <> goalTriangle ->
  findTrianglePath fuel startTriangle goalTriangle = Some [] ->
  isNeighbor startTriangle goalTriangle = false
  /\ findPath fuel nm a b closestToStart = Some [].
Proof.
  intros Hloc Hres Hne Hrun.
  assert (Hn : isNeighbor startTriangle goalTriangle = false).
  { apply isNeighbor_unreachable.
    eapply findTrianglePath_complete_aux; eassumption. }
  split; [exact Hn|].
  rewrite (@findPath_located _ nm fuel a b closestToStart startTriangle Hloc).
  rewrite Hres. apply same_false in Hne. rewrite Hne, Hrun, Hn. reflexivity.
Qed.

(** X14: on a mesh whose triangles have their neighbours in the mesh,
    once the start triangle and the goal are resolved, [findPath] returns
    the empty path exactly when the goal triangle cannot be reached from
    the start triangle. *)
Theorem findPath_empty_iff_unreachable (nm : NavMesh2d) (a b : Point)
  (closestToStart : bool) (startTriangle goalTriangle : TPolygon)
  (goal : Point) (extra : nat) :
  closedUnderConnections (triangles nm) = true ->
  findTriangleContainingPoint nm a = Some startTriangle ->
  resolveTarget nm a b closestToStart startTriangle = Some (goal, goalTriangle) ->
  findPath (S (length (triangles nm)) + extra) nm a b closestToStart = Some []
  <-> ~ reachable startTriangle goalTriangle.
Proof.
  intros Hclosed Hloc Hres.
  pose proof (closedUnderConnections_incl _ Hclosed) as Hincl.
  rewrite (@findPath_located _ nm _ a b closestToStart startTriangle Hloc).
  rewrite Hres.
  destruct (same startTriangle goalTriangle) eqn:Hsame.
  { apply same_true in Hsame. subst goalTriangle. split; [discriminate|].
    intro H. exfalso. apply H. apply reachable_here. }
  apply same_false in Hsame.
  assert (Hstart : In startTriangle (triangles nm)).
  { unfold findTriangleContainingPoint in Hloc.
    apply find_some in Hloc. apply Hloc. }
  destruct (@findTrianglePath_total _ (triangles nm) Hincl
              startTriangle goalTriangle Hstart) as [r Hr].
  rewrite Hr. pose proof (Hr extra) as Hrun.
  destruct r as [|t trianglePath].
  - pose proof (@findTrianglePath_complete_aux _ _ _ _ Hsame Hrun) as Hun.
    rewrite (isNeighbor_unreachable Hun). split; [intros _; exact Hun|reflexivity].
  - split.
    + intro H. exfalso. unfold funnel in H.
      destruct (funnelOn_shape _ _ _ _ H) as (tl & E & _). discriminate E.
    + intro Hun. exfalso. apply Hun.
      destruct (@findTrianglePath_sound_aux _ _ _ _ _ Hrun)
        as [Hl [E|[front E]]]; [discriminate E|].
      apply (@linked_reachable _ startTriangle (t :: trianglePath)
               startTriangle (reachable_here _) Hl).
      rewrite E. apply in_or_app. right. now left.
Qed.

End SearchCorrect.

(** In the sample, triangles 0 and 1 are connected to each other only:
    triangle 4 cannot be reached from triangle 0. *)
Lemma findTrianglePath_empty_witness :
  0%nat = 4%nat \/ ~ @reachable Sample.provider 0%nat 4%nat.
Proof.
  apply (@findTrianglePath_empty Sample.provider 3 0%nat 4%nat).
  vm_compute. reflexivity.
Defined.

Lemma findTrianglePath_corridor_witness :
  @linked Sample.provider 4%nat [5%nat; 6%nat; 7%nat; 8%nat; 9%nat]
  /\ ([5%nat; 6%nat; 7%nat; 8%nat; 9%nat] = []
      \/ exists front, [5%nat; 6%nat; 7%nat; 8%nat; 9%nat] = front ++ [9%nat])
  /\ NoDup [4%nat; 5%nat; 6%nat; 7%nat; 8%nat; 9%nat]
  /\ (4%nat = 9%nat -> [5%nat; 6%nat; 7%nat; 8%nat; 9%nat] = []).
Proof.
  apply (@findTrianglePath_corridor Sample.provider 7 4%nat 9%nat).
  vm_compute. reflexivity.
Defined.

Lemma findPath_empty_corridor_witness :
  @isNeighbor Sample.provider 0%nat 4%nat = false
  /\ findPath 9 twoSheets (Sample.P 2 2) (Sample.P 18 5) false = Some [].
Proof.
  apply (@findPath_empty_corridor Sample.provider 9 twoSheets
           (Sample.P 2 2) (Sample.P 18 5) false 0%nat 4%nat (Sample.P 18 5)).
  - vm_compute. reflexivity.
  - vm_compute. reflexivity.
  - discriminate.
  - vm_compute. reflexivity.
Defined.

Lemma findPath_empty_iff_unreachable_witness :
  findPath (S (length (triangles twoSheets)) + 0) twoSheets
           (Sample.P 2 2) (Sample.P 18 5) false = Some []
  <-> ~ @reachable Sample.provider 0%nat 4%nat.
Proof.
  apply (@findPath_empty_iff_unreachable Sample.provider twoSheets
           (Sample.P 2 2) (Sample.P 18 5) false 0%nat 4%nat (Sample.P 18 5)
           0%nat);
    vm_compute; reflexivity.
Defined.

(** ** The search returns a cheapest corridor *)

Lemma last_default (A : Type) (l : list A) (x d d' : A) :
  List.last (x :: l) d = List.last (x :: l) d'.
Proof.
  revert x. induction l as [|y l IH]; intro x; [reflexivity|].
  change (List.last (y :: l) d = List.last (y :: l) d'). apply IH.
Qed.

Lemma last_cons_from (A : Type) (v : A) (l : list A) (d : A) :
  List.last (v :: l) d = List.last l v.
Proof.
  destruct l as [|x l]; [reflexivity|].
  change (List.last (x :: l) d = List.last (x :: l) v). apply last_default.
Qed.

Lemma last_app_cons (A : Type) (l1 : list A) (y : A) (l2 : list A) (d : A) :
  List.last (l1 ++ y :: l2) d = List.last l2 y.
Proof.
  revert d. induction l1 as [|v l1 IH]; intro d; cbn [app].
  - apply last_cons_from.
  - rewrite last_cons_from. apply IH.
Qed.

Section Cheapest.

Context {provider : Provider}.

Variables start end_ : TPolygon.

Hypothesis Hcons : consistent end_.

Lemma chainCost_app (chain1 : list TPolygon) (y : TPolygon)
  (chain2 : list TPolygon) :
  forall from,
    chainCost from (chain1 ++ y :: chain2)
    == chainCost from chain1 + stepCost (List.last chain1 from) y
       + chainCost y chain2.
Proof.
  induction chain1 as [|v chain1 IH]; intro from; cbn [app chainCost].
  - cbn [List.last]. ring.
  - rewrite IH, last_cons_from. ring.
Qed.

(** the estimate at the head of a chain is at most the cost of the chain
    and the estimate at its end *)
Lemma heuristic_chain (chain : list TPolygon) :
  forall from,
    linked from chain ->
    heuristic end_ from
    <= chainCost from chain + heuristic end_ (List.last chain from).
Proof.
  induction chain as [|v chain IH]; intros from Hl; cbn [chainCost].
  - cbn [List.last]. lra.
  - destruct Hl as [Hv Hl]. rewrite last_cons_from.
    pose proof (IH v Hl). pose proof (Hcons from v Hv). lra.
Qed.

(** a chain that leaves the closed triangles has a first step out *)
Lemma first_exit (closed : list TPolygon) (chain : list TPolygon) :
  forall from,
    In from closed -> linked from chain ->
    ~ In (List.last chain from) closed ->
    exists chain1 y chain2,
      chain = chain1 ++ y :: chain2
      /\ linked from chain1
      /\ In (List.last chain1 from) closed
      /\ ~ In y closed
      /\ In y (connections (List.last chain1 from))
      /\ linked y chain2.
Proof.
  induction chain as [|v chain IH]; intros from Hfrom Hl Hlast.
  - cbn [List.last] in Hlast. contradiction.
  - destruct Hl as [Hv Hl].
    destruct (in_dec TPolygon_eq_dec v closed) as [Hin|Hout].
    + rewrite last_cons_from in Hlast.
      destruct (IH v Hin Hl Hlast)
        as (chain1 & y & chain2 & -> & H1 & H2 & H3 & H4 & H5).
      exists (v :: chain1), y, chain2. rewrite last_cons_from.
      repeat split; try assumption.
    + exists [], v, chain. cbn [app List.last linked].
      repeat split; try assumption.
Qed.

(** *** The open triangle that is popped *)

Lemma insertByFCost_head (m : NodeMap) (t : TPolygon) (l : list TPolygon) :
  match l with
  | [] => True
  | c :: r => forall o, In o r -> fCostOf m c <= fCostOf m o
  end ->
  match insertByFCost m t l with
  | [] => False
  | c :: r => forall o, In o r -> fCostOf m c <= fCostOf m o
  end.
Proof.
  destruct l as [|c r]; cbn [insertByFCost]; intro H.
  - intros o [].
  - destruct (fCostOf m t <=? fCostOf m c)%num eqn:C.
    + apply leb_le in C. intros o [<-|Ho]; [exact C|].
      apply Qle_trans with (1 := C). now apply H.
    + apply leb_gt in C. intros o Ho. apply insertByFCost_In in Ho.
      destruct Ho as [->|Ho]; [lra|now apply H].
Qed.

Lemma sortOpenSet_head (m : NodeMap) (l : list TPolygon) :
  match sortOpenSet m l with
  | [] => True
  | c :: r => forall o, In o r -> fCostOf m c <= fCostOf m o
  end.
Proof.
  unfold sortOpenSet. induction l as [|v l IH]; cbn [fold_right]; [exact I|].
  pose proof (insertByFCost_head m v _ IH) as H.
  destruct (insertByFCost m v (fold_right (insertByFCost m) [] l));
    [destruct H|exact H].
Qed.

Lemma sortOpenSet_least (m : NodeMap) (open : list TPolygon)
  (cur : TPolygon) (rest : list TPolygon) :
  sortOpenSet m open = cur :: rest ->
  forall o, In o open -> fCostOf m cur <= fCostOf m o.
Proof.
  intros Hsort o Ho. pose proof (sortOpenSet_head m open) as H.
  rewrite Hsort in H. apply (sortOpenSet_In m) in Ho. rewrite Hsort in Ho.
  destruct Ho as [<-|Ho]; [apply Qle_refl|now apply H].
Qed.

(** when the open triangle of least [fCost] is popped, its [gCost] is the
    least cost of a chain to it *)
Lemma pop_cheapest (closed : list TPolygon) (m : NodeMap)
  (open : list TPolygon) (cur : TPolygon) (current : PathNode) :
  settled start end_ closed (fun _ _ => True) m open ->
  In cur open ->
  (forall o, In o open -> fCostOf m cur <= fCostOf m o) ->
  getNode m cur = Some current ->
  cheapestTo start cur (gCost current).
Proof.
  intros (HA & HB & HC & HD & HE & HF) Hcur Hmin Hget chain Hl Hlast.
  destruct (in_dec TPolygon_eq_dec cur closed) as [Hin|Hout].
  { destruct (HD cur Hin) as (nc & Hnc & Hbest).
    rewrite Hget in Hnc. injection Hnc as <-. now apply Hbest. }
  destruct (HA _ _ Hget) as (_ & Hh & Hf).
  assert (Hfcur : fCostOf m cur = gCost current + heuristic end_ cur).
  { unfold fCostOf. rewrite Hget, Hf, Hh. reflexivity. }
  destruct HF as [Hs|(Hso & n & Hn & Hg)].
  - rewrite <- Hlast in Hout.
    destruct (first_exit closed chain start Hs Hl Hout)
      as (chain1 & y & chain2 & -> & H1 & H2 & H3 & H4 & H5).
    destruct (HE _ _ H2 H4 I) as [Hy|(Hy & nc & nv & Hnc & Hnv & Hle)];
      [contradiction|].
    destruct (HD _ H2) as (nx & Hnx & Hbest).
    rewrite Hnc in Hnx. injection Hnx as <-.
    pose proof (Hbest chain1 H1 eq_refl) as Hx.
    pose proof (Hmin y Hy) as Hfy.
    destruct (HA _ _ Hnv) as (_ & Hhv & Hfv).
    assert (Hfy' : fCostOf m y = gCost nv + heuristic end_ y).
    { unfold fCostOf. rewrite Hnv, Hfv, Hhv. reflexivity. }
    rewrite Hfcur, Hfy' in Hfy.
    pose proof (heuristic_chain chain2 y H5) as Htel.
    rewrite last_app_cons in Hlast. rewrite Hlast in Htel.
    rewrite chainCost_app. lra.
  - pose proof (Hmin start Hso) as Hfs.
    destruct (HA _ _ Hn) as (_ & Hhn & Hfn).
    assert (Hfs' : fCostOf m start = gCost n + heuristic end_ start).
    { unfold fCostOf. rewrite Hn, Hfn, Hhn. reflexivity. }
    rewrite Hfcur, Hfs' in Hfs.
    pose proof (heuristic_chain chain start Hl) as Htel.
    rewrite Hlast in Htel. lra.
Qed.

(** *** The chain of the parents costs [gCost] *)

Lemma reconstruct_cost (closed : list TPolygon)
  (done : TPolygon -> TPolygon -> Prop) (m : NodeMap) (open : list TPolygon) :
  settled start end_ closed done m open ->
  forall fuel t acc r n,
    getNode m t = Some n ->
    reconstruct fuel m (Some t) acc = Some r ->
    exists pre,
      r = pre ++ acc /\ List.last pre start = t
      /\ chainCost start pre == gCost n.
Proof.
  intros (HA & HB & _). induction fuel as [|fuel IH];
    intros t acc r n Hget Hrun; [discriminate Hrun|].
  cbn [reconstruct] in Hrun. rewrite Hget in Hrun.
  pose proof (HB _ _ Hget) as Hpar. destruct (HA _ _ Hget) as (Htri & _).
  destruct (parent n) as [p|].
  - destruct Hpar as (_ & _ & np & Hnp & Hg).
    destruct (IH p (triangle n :: acc) r np Hnp Hrun)
      as (pre & -> & Hlast & Hcost).
    exists (pre ++ [t]). split; [rewrite <- app_assoc, Htri; reflexivity|].
    split; [apply last_app_one|].
    rewrite chainCost_app, Hlast, Hcost, Hg. cbn [chainCost]. ring.
  - destruct Hpar as [-> Hg]. injection Hrun as <-.
    exists []. cbn [app List.last chainCost]. repeat split.
    symmetry. exact Hg.
Qed.

(** *** Visiting the neighbours keeps the state settled *)

Lemma visitNeighbor_settled (closed : list TPolygon) (u : TPolygon)
  (current : PathNode) (processed : list TPolygon) (m : NodeMap)
  (open : list TPolygon) (neighbor : TPolygon) :
  In u closed -> triangle current = u ->
  In neighbor (connections u) ->
  getNode m u = Some current ->
  settled start end_ closed (fun c v => c <> u \/ In v processed) m open ->
  let r := visitNeighbor (getTriangleCenter end_) closed current (m, open)
                         neighbor in
  getNode (fst r) u = Some current
  /\ incl open (snd r)
  /\ settled start end_ closed
       (fun c v => c <> u \/ In v (processed ++ [neighbor])) (fst r) (snd r).
Proof.
  intros Hu Htri Hnb Hcur (HA & HB & HC & HD & HE & HF).
  assert (Hold : forall c v, In c closed -> In v (connections c) ->
                   c <> u \/ In v (processed ++ [neighbor]) ->
                   (c = u /\ v = neighbor) \/ (c <> u \/ In v processed)).
  { intros c v _ _ [H|H]; [right; now left|].
    apply in_app_or in H. destruct H as [H|[<-|[]]]; [right; now right|].
    destruct (TPolygon_eq_dec c u) as [->|N]; [now left|right; now left]. }
  unfold visitNeighbor.
  destruct (includes closed neighbor) eqn:Hinc.
  { (* the neighbour is closed: nothing changes *)
    apply includes_true in Hinc. cbn [fst snd].
    split; [exact Hcur|]. split; [apply incl_refl|].
    split; [exact HA|]. split; [exact HB|]. split; [exact HC|].
    split; [exact HD|]. split; [|exact HF].
    intros c v Hc Hv Hd.
    destruct (Hold c v Hc Hv Hd) as [[-> ->]|Hd']; [now left|].
    now apply HE. }
  apply includes_false in Hinc.
  assert (Hne : u <> neighbor) by (intros <-; contradiction).
  cbv zeta.
  set (tentative := gCost current
                    + getDistanceQuick (getTriangleCenter (triangle current))
                                       (getTriangleCenter neighbor)).
  assert (Htent : tentative = gCost current + stepCost u neighbor)
    by (unfold tentative, stepCost; now rewrite Htri).
  destruct (getNode m neighbor) as [nn0|] eqn:Hget.
  - destruct (HC _ _ Hget) as [Hopen|Hclosed]; [|contradiction].
    destruct (HA _ _ Hget) as (Htri0 & Hh0 & Hf0).
    destruct (tentative <? gCost nn0)%num eqn:Hless; cbn [fst snd].
    + (* the node of the neighbour is improved *)
      apply ltb_lt in Hless.
      set (nn := {| triangle := triangle nn0; gCost := tentative;
                    hCost := hCost nn0; fCost := tentative + hCost nn0;
                    parent := Some (triangle current) |}).
      assert (Et : triangle nn = neighbor) by exact Htri0.
      assert (Eh : hCost nn = heuristic end_ neighbor) by exact Hh0.
      assert (Ef : fCost nn = gCost nn + hCost nn) by reflexivity.
      assert (Eg : gCost nn = gCost current + stepCost u neighbor)
        by exact Htent.
      assert (Ep : parent nn = Some u) by (cbn [nn parent]; now rewrite Htri).
      assert (Elt : gCost nn < gCost nn0) by exact Hless.
      clearbody nn.
      assert (Hsame : getNode (writeNode m neighbor nn) neighbor = Some nn)
        by (eapply getNode_writeNode_same; exact Hget).
      assert (Hother : forall t, t <> neighbor ->
                 getNode (writeNode m neighbor nn) t = getNode m t)
        by (intros t Ht; now apply getNode_writeNode_other).
      assert (Hkeep : forall t, In t closed ->
                 getNode (writeNode m neighbor nn) t = getNode m t).
      { intros t Ht. apply Hother. intros ->. contradiction. }
      split; [rewrite Hkeep; assumption|]. split; [apply incl_refl|].
      split; [|split; [|split; [|split; [|split]]]].
      * intros t n Hn. destruct (TPolygon_eq_dec t neighbor) as [->|Ht].
        -- rewrite Hsame in Hn. injection Hn as <-. auto.
        -- rewrite Hother in Hn by assumption. now apply HA.
      * intros t n Hn. destruct (TPolygon_eq_dec t neighbor) as [->|Ht].
        -- rewrite Hsame in Hn. injection Hn as <-. rewrite Ep.
           split; [exact Hu|]. split; [exact Hnb|].
           exists current. split; [rewrite Hkeep; assumption|].
           rewrite Eg. reflexivity.
        -- rewrite Hother in Hn by assumption.
           pose proof (HB _ _ Hn) as Hp. destruct (parent n) as [p|]; [|exact Hp].
           destruct Hp as (Hp & Hadj & np & Hnp & Hg).
           split; [exact Hp|]. split; [exact Hadj|]. exists np.
           split; [rewrite Hkeep; assumption|exact Hg].
      * intros t n Hn. destruct (TPolygon_eq_dec t neighbor) as [->|Ht];
          [now left|].
        rewrite Hother in Hn by assumption. eapply HC; eassumption.
      * intros c Hc. destruct (HD c Hc) as (nc & Hnc & Hbest).
        exists nc. split; [rewrite Hkeep; assumption|exact Hbest].
      * intros c v Hc Hv Hd.
        destruct (Hold c v Hc Hv Hd) as [[-> ->]|Hd'].
        -- right. split; [exact Hopen|]. exists current, nn.
           split; [rewrite Hkeep; assumption|]. split; [exact Hsame|].
           rewrite Eg. apply Qle_refl.
        -- destruct (HE c v Hc Hv Hd') as [H|(Hvo & nc & nv & Hnc & Hnv & Hle)];
             [now left|right].
           split; [exact Hvo|].
           destruct (TPolygon_eq_dec v neighbor) as [->|Hvn].
           ++ exists nc, nn. split; [rewrite Hkeep; assumption|].
              split; [exact Hsame|]. rewrite Hget in Hnv. injection Hnv as <-.
              lra.
           ++ exists nc, nv. split; [rewrite Hkeep; assumption|].
              split; [rewrite Hother; assumption|exact Hle].
      * destruct HF as [Hs|(Hso & n & Hn & Hg)]; [now left|right].
        split; [exact Hso|].
        destruct (TPolygon_eq_dec start neighbor) as [E|Hsn].
        -- clear Htri0 Et. subst neighbor. exists nn. split; [exact Hsame|].
           rewrite Hn in Hget. injection Hget as <-. lra.
        -- exists n. split; [rewrite Hother; assumption|exact Hg].
    + (* the node of the neighbour stays *)
      apply ltb_ge in Hless.
      split; [exact Hcur|]. split; [apply incl_refl|].
      split; [exact HA|]. split; [exact HB|]. split; [exact HC|].
      split; [exact HD|]. split; [|exact HF].
      intros c v Hc Hv Hd.
      destruct (Hold c v Hc Hv Hd) as [[-> ->]|Hd']; [|now apply HE].
      right. split; [exact Hopen|]. exists current, nn0.
      split; [exact Hcur|]. split; [exact Hget|]. rewrite <- Htent. exact Hless.
  - (* the neighbour gets a node and is opened *)
    cbn [fst snd].
    set (nn := {| triangle := neighbor; gCost := tentative;
                  hCost := getDistanceQuick (getTriangleCenter neighbor)
                                            (getTriangleCenter end_);
                  fCost := tentative
                           + getDistanceQuick (getTriangleCenter neighbor)
                                              (getTriangleCenter end_);
                  parent := Some (triangle current) |}).
    assert (Et : triangle nn = neighbor) by reflexivity.
    assert (Eh : hCost nn = heuristic end_ neighbor) by reflexivity.
    assert (Ef : fCost nn = gCost nn + hCost nn) by reflexivity.
    assert (Eg : gCost nn = gCost current + stepCost u neighbor)
      by exact Htent.
    assert (Ep : parent nn = Some u) by (cbn [nn parent]; now rewrite Htri).
    clearbody nn.
    assert (Hkeep : forall t n, getNode m t = Some n ->
               getNode (setNode m neighbor nn) t = Some n)
      by (intros t n Hn; rewrite getNode_setNode, Hn; reflexivity).
    assert (Hnew : forall t n, getNode (setNode m neighbor nn) t = Some n ->
               getNode m t = Some n \/ (t = neighbor /\ n = nn)).
    { intros t n Hn. rewrite getNode_setNode in Hn.
      destruct (getNode m t) as [n0|]; [now left|].
      destruct (same t neighbor) eqn:S; [|discriminate Hn].
      apply same_true in S. injection Hn as <-. now right. }
    assert (Hsame : getNode (setNode m neighbor nn) neighbor = Some nn).
    { rewrite getNode_setNode, Hget.
      assert (same neighbor neighbor = true) as -> by now apply same_true.
      reflexivity. }
    split; [now apply Hkeep|]. split; [apply incl_appl, incl_refl|].
    split; [|split; [|split; [|split; [|split]]]].
    * intros t n Hn. destruct (Hnew _ _ Hn) as [H|[-> ->]]; [now apply HA|].
      auto.
    * intros t n Hn. destruct (Hnew _ _ Hn) as [H|[-> ->]].
      -- pose proof (HB _ _ H) as Hp. destruct (parent n) as [p|]; [|exact Hp].
         destruct Hp as (Hp & Hadj & np & Hnp & Hg).
         split; [exact Hp|]. split; [exact Hadj|]. exists np.
         split; [now apply Hkeep|exact Hg].
      -- rewrite Ep. split; [exact Hu|].
         split; [exact Hnb|]. exists current. split; [now apply Hkeep|].
         rewrite Eg. reflexivity.
    * intros t n Hn. destruct (Hnew _ _ Hn) as [H|[-> ->]].
      -- destruct (HC _ _ H); [left; apply in_or_app|]; tauto.
      -- left. apply in_or_app. right. now left.
    * intros c Hc. destruct (HD c Hc) as (nc & Hnc & Hbest).
      exists nc. split; [now apply Hkeep|exact Hbest].
    * intros c v Hc Hv Hd.
      destruct (Hold c v Hc Hv Hd) as [[-> ->]|Hd'].
      -- right. split; [apply in_or_app; right; now left|].
         exists current, nn. split; [now apply Hkeep|]. split; [exact Hsame|].
         rewrite Eg. apply Qle_refl.
      -- destruct (HE c v Hc Hv Hd') as [H|(Hvo & nc & nv & Hnc & Hnv & Hle)];
           [now left|right].
         split; [apply in_or_app; now left|]. exists nc, nv.
         split; [now apply Hkeep|]. split; [now apply Hkeep|exact Hle].
    * destruct HF as [Hs|(Hso & n & Hn & Hg)]; [now left|right].
      split; [apply in_or_app; now left|]. exists n.
      split; [now apply Hkeep|exact Hg].
Qed.

Lemma settled_weaken (closed : list TPolygon)
  (done done' : TPolygon -> TPolygon -> Prop) (m : NodeMap)
  (open : list TPolygon) :
  (forall c v, In c closed -> In v (connections c) -> done' c v -> done c v) ->
  settled start end_ closed done m open ->
  settled start end_ closed done' m open.
Proof.
  intros Himp (HA & HB & HC & HD & HE & HF).
  split; [exact HA|]. split; [exact HB|]. split; [exact HC|].
  split; [exact HD|]. split; [|exact HF].
  intros c v Hc Hv Hd. apply HE; auto.
Qed.

Lemma visitNeighbors_settled (closed : list TPolygon) (u : TPolygon)
  (current : PathNode) (nbs : list TPolygon) :
  In u closed -> triangle current = u ->
  incl nbs (connections u) ->
  forall processed m open,
    getNode m u = Some current ->
    settled start end_ closed (fun c v => c <> u \/ In v processed) m open ->
    let r := fold_left (visitNeighbor (getTriangleCenter end_) closed current)
                       nbs (m, open) in
    incl open (snd r)
    /\ settled start end_ closed
         (fun c v => c <> u \/ In v (processed ++ nbs)) (fst r) (snd r).
Proof.
  intros Hu Htri. induction nbs as [|nb nbs IH];
    intros Hincl processed m open Hcur Hst; cbn [fold_left].
  - cbn [fst snd]. split; [apply incl_refl|].
    eapply settled_weaken; [|exact Hst].
    intros c v _ _ [H|H]; [now left|right]. now rewrite app_nil_r in H.
  - destruct (@visitNeighbor_settled closed u current processed m open nb
                Hu Htri (Hincl nb (or_introl eq_refl)) Hcur Hst)
      as (Hcur1 & Hopen1 & Hst1).
    destruct (visitNeighbor (getTriangleCenter end_) closed current (m, open) nb)
      as [m1 open1]. cbn [fst snd] in Hcur1, Hopen1, Hst1.
    destruct (IH (fun t Ht => Hincl t (or_intror Ht)) (processed ++ [nb])
                 m1 open1 Hcur1 Hst1) as (Hopen2 & Hst2).
    split; [eapply incl_tran; eassumption|].
    eapply settled_weaken; [|exact Hst2].
    intros c v _ _ [H|H]; [now left|right].
    now rewrite <- app_assoc.
Qed.

Lemma astarLoop_cheapest :
  forall fuel st r,
    settled start end_ (closedSet st) (fun _ _ => True) (nodeMap st)
            (openSet st) ->
    astarLoop fuel end_ st = Some r ->
    r <> [] ->
    cheapestTo start end_ (chainCost start r).
Proof.
  induction fuel as [|fuel IH]; intros st r Hst Hrun Hne; [discriminate Hrun|].
  cbn [astarLoop] in Hrun.
  destruct (sortOpenSet (nodeMap st) (openSet st)) as [|cur rest] eqn:Hsort.
  { injection Hrun as <-. contradiction. }
  assert (Hin : forall t, In t (openSet st) <-> t = cur \/ In t rest).
  { intro t. rewrite <- (sortOpenSet_In (nodeMap st)), Hsort. cbn [In].
    intuition congruence. }
  destruct (getNode (nodeMap st) cur) as [current|] eqn:Hcur;
    [|discriminate Hrun].
  pose proof Hst as (HA & HB & HC & HD & HE & HF).
  destruct (HA _ _ Hcur) as (Htri & _).
  assert (Hbest : cheapestTo start cur (gCost current)).
  { eapply pop_cheapest; [exact Hst| | |exact Hcur].
    - apply Hin. now left.
    - eapply sortOpenSet_least. exact Hsort. }
  rewrite Htri in Hrun.
  destruct (same cur end_) eqn:Hsame.
  - apply same_true in Hsame. subst cur.
    destruct (@reconstruct_cost _ _ _ _ Hst _ _ _ _ _ Hcur Hrun)
      as (pre & -> & _ & Hcost).
    rewrite app_nil_r. intros chain Hl Hlast.
    rewrite Hcost. now apply Hbest.
  - assert (Hst0 : settled start end_ (cur :: closedSet st)
                     (fun c v => c <> cur \/ In v []) (nodeMap st) rest).
    { split; [exact HA|]. split; [|split; [|split; [|split]]].
      - intros t n Hn. pose proof (HB _ _ Hn) as Hp.
        destruct (parent n) as [p|]; [|exact Hp].
        destruct Hp as (Hp & Hrest). split; [now right|exact Hrest].
      - intros t n Hn. destruct (HC _ _ Hn) as [H|H].
        + apply Hin in H. destruct H as [->|H]; [right; now left|now left].
        + right. now right.
      - intros c [<-|Hc]; [eauto|now apply HD].
      - intros c v Hc Hv [Hd|[]].
        destruct Hc as [E|Hc]; [symmetry in E; contradiction|].
        destruct (HE c v Hc Hv I) as [H|(H & Hnodes)]; [left; now right|].
        apply Hin in H. destruct H as [->|H]; [left; now left|right].
        split; [exact H|exact Hnodes].
      - destruct HF as [H|(H & Hn)]; [left; now right|].
        apply Hin in H. destruct H as [->|H]; [left; now left|right].
        split; [exact H|exact Hn]. }
    destruct (@visitNeighbors_settled (cur :: closedSet st) cur current
                (connections cur) (or_introl eq_refl) Htri (incl_refl _)
                [] (nodeMap st) rest Hcur Hst0) as (_ & Hst1).
    destruct (fold_left _ _ _) as [m open]. cbn [fst snd] in Hst1.
    apply (IH _ _ ) in Hrun; [exact Hrun| |exact Hne].
    cbn [closedSet nodeMap openSet].
    eapply settled_weaken; [|exact Hst1].
    intros c v Hc Hv _. cbn [app].
    destruct (TPolygon_eq_dec c cur) as [->|N]; [now right|now left].
Qed.

Lemma findTrianglePath_cheapest_aux (fuel : nat) (corridor : list TPolygon) :
  findTrianglePath fuel start end_ = Some corridor ->
  corridor <> [] ->
  cheapestTo start end_ (chainCost start corridor).
Proof.
  unfold findTrianglePath. intros Hrun Hne.
  eapply astarLoop_cheapest; [|exact Hrun|exact Hne].
  cbn [closedSet nodeMap openSet].
  assert (Hnode : forall t n,
             getNode [(start,
                       {| triangle := start; gCost := 0;
                          hCost := getDistanceQuick (getTriangleCenter start)
                                                    (getTriangleCenter end_);
                          fCost := 0 + getDistanceQuick (getTriangleCenter start)
                                                        (getTriangleCenter end_);
                          parent := None |})] t = Some n ->
             t = start
             /\ n = {| triangle := start; gCost := 0;
                       hCost := getDistanceQuick (getTriangleCenter start)
                                                 (getTriangleCenter end_);
                       fCost := 0 + getDistanceQuick (getTriangleCenter start)
                                                     (getTriangleCenter end_);
                       parent := None |}).
  { intros t n. unfold getNode. cbn [find fst snd].
    destruct (same t start) eqn:S; [|discriminate].
    apply same_true in S. intros [= <-]. now split. }
  split; [|split; [|split; [|split; [|split]]]].
  - intros t n Hn. destruct (Hnode _ _ Hn) as [-> ->].
    cbn [triangle hCost fCost gCost]. repeat split.
  - intros t n Hn. destruct (Hnode _ _ Hn) as [-> ->].
    cbn [parent gCost]. split; reflexivity.
  - intros t n Hn. destruct (Hnode _ _ Hn) as [-> _]. left. now left.
  - intros c [].
  - intros c v [].
  - right. split; [now left|]. eexists. split.
    + unfold getNode. cbn [find fst snd].
      assert (same start start = true) as -> by now apply same_true.
      reflexivity.
    + cbn [snd gCost]. apply Qle_refl.
Qed.

End Cheapest.

Section CheapestCorridor.

Context {provider : Provider}.


End CheapestCorridor.

Lemma Qabs_sub_triangle (a b c : Q) : Qabs (a - c) <= Qabs (a - b) + Qabs (b - c).
Proof.
  assert (E : a - c == (a - b) + (b - c)) by ring.
  rewrite E. apply Qabs_triangle.
Qed.

Lemma manhattan_triangle (p q r : Point) :
  Sample.manhattan p r <= Sample.manhattan p q + Sample.manhattan q r.
Proof.
  unfold Sample.manhattan.
  pose proof (Qabs_sub_triangle (Point.x p) (Point.x q) (Point.x r)).
  pose proof (Qabs_sub_triangle (Point.y p) (Point.y q) (Point.y r)).
  lra.
Qed.


(** ** Portals and waypoints *)

Section Portals.

Context {provider : Provider}.

Lemma sharedPoints_two (triangle1 triangle2 : TPolygon) (s0 s1 : Point) :
  sharedPoints triangle1 triangle2 = [s0; s1] ->
  let '(a1, b1, c1) := mainTriangle triangle1 in
  ((s0, s1) = (a1, b1) \/ (s0, s1) = (a1, c1) \/ (s0, s1) = (b1, c1))
  /\ existsb (pointsEqual s0) (vertexList triangle2) = true
  /\ existsb (pointsEqual s1) (vertexList triangle2) = true.
Proof.
  unfold sharedPoints, vertexList.
  destruct (mainTriangle triangle1) as [[a1 b1] c1].
  destruct (mainTriangle triangle2) as [[a2 b2] c2].
  cbn [filter].
  destruct (existsb (pointsEqual a1) [a2; b2; c2]) eqn:Ea;
    destruct (existsb (pointsEqual b1) [a2; b2; c2]) eqn:Eb;
    destruct (existsb (pointsEqual c1) [a2; b2; c2]) eqn:Ec;
    intro H; try discriminate H; injection H as <- <-; auto.
Qed.

Lemma getSharedEdge_some (triangle1 triangle2 : TPolygon) (portal : Portal) :
  getSharedEdge triangle1 triangle2 = Some portal ->
  exists s0 s1,
    sharedPoints triangle1 triangle2 = [s0; s1]
    /\ (portal = {| pleft := s0; pright := s1 |}
        \/ portal = {| pleft := s1; pright := s0 |}).
Proof.
  unfold getSharedEdge.
  destruct (sharedPoints triangle1 triangle2) as [|s0 [|s1 [|s2 l]]];
    try discriminate.
  destruct (_ >? _)%num; intros [= <-]; exists s0, s1; auto.
Qed.

Lemma getSharedEdge_vertices (triangle1 triangle2 : TPolygon) (portal : Portal) :
  getSharedEdge triangle1 triangle2 = Some portal ->
  In (pleft portal) (vertexList triangle1)
  /\ In (pright portal) (vertexList triangle1).
Proof.
  intro H. destruct (getSharedEdge_some _ _ H) as (s0 & s1 & Hs & Hp).
  pose proof (sharedPoints_two _ _ Hs) as Htwo. unfold vertexList.
  destruct (mainTriangle triangle1) as [[a1 b1] c1].
  destruct Htwo as [Hcase _].
  destruct Hp as [->| ->]; cbn [pleft pright In];
    destruct Hcase as [[= -> ->]|[[= -> ->]|[= -> ->]]]; auto.
Qed.

(** X16: the portal between two triangles is an edge of the first one
    (in the sense of [getTriangleEdges] and [isSameEdge]), and each of its
    ends is equal up to [epsilon] to a vertex of the second one. *)
Theorem getSharedEdge_is_edge (triangle1 triangle2 : TPolygon) (portal : Portal) :
  getSharedEdge triangle1 triangle2 = Some portal ->
  existsb (fun edge => isSameEdge edge portal) (getTriangleEdges triangle1) = true
  /\ existsb (pointsEqual (pleft portal)) (vertexList triangle2) = true
  /\ existsb (pointsEqual (pright portal)) (vertexList triangle2) = true.
Proof.
  intro H. destruct (getSharedEdge_some _ _ H) as (s0 & s1 & Hs & Hp).
  pose proof (sharedPoints_two _ _ Hs) as Htwo.
  unfold getTriangleEdges.
  destruct (mainTriangle triangle1) as [[a1 b1] c1].
  destruct Htwo as (Hcase & H0 & H1).
  split.
  - unfold isSameEdge. cbn [existsb fst snd].
    destruct Hp as [->| ->]; cbn [pleft pright];
      destruct Hcase as [[= -> ->]|[[= -> ->]|[= -> ->]]];
      rewrite !pointsEqual_refl; cbn [andb orb];
      rewrite ?orb_true_r; reflexivity.
  - destruct Hp as [->| ->]; cbn [pleft pright]; auto.
Qed.

Lemma getPortalEdges_vertices (trianglePath : list TPolygon) (portal : Portal) :
  In portal (getPortalEdges trianglePath) ->
  exists u, In u trianglePath
            /\ In (pleft portal) (vertexList u)
            /\ In (pright portal) (vertexList u).
Proof.
  induction trianglePath as [|t1 [|t2 rest] IH]; [intros []..|].
  change (getPortalEdges (t1 :: t2 :: rest))
    with (match getSharedEdge t1 t2 with
          | Some sharedEdge => sharedEdge :: getPortalEdges (t2 :: rest)
          | None => getPortalEdges (t2 :: rest)
          end).
  assert (Hrest : In portal (getPortalEdges (t2 :: rest)) ->
                  exists u, In u (t1 :: t2 :: rest)
                            /\ In (pleft portal) (vertexList u)
                            /\ In (pright portal) (vertexList u)).
  { intro Hin. destruct (IH Hin) as (u & Hu & Hv). exists u.
    split; [now right|exact Hv]. }
  destruct (getSharedEdge t1 t2) as [sharedEdge|] eqn:E; [|exact Hrest].
  intros [<-|Hin]; [|now apply Hrest].
  exists t1. split; [now left|]. eapply getSharedEdge_vertices. exact E.
Qed.

Lemma findPath_waypoints_are_vertices_aux (fuel : nat) (nm : NavMesh2d)
  (a b : Point) (closestToStart : bool) (startTriangle goalTriangle : TPolygon)
  (goal : Point) (result : list Point) :
  findTriangleContainingPoint nm a = Some startTriangle ->
  resolveTarget nm a b closestToStart startTriangle = Some (goal, goalTriangle) ->
  findPath fuel nm a b closestToStart = Some result ->
  forall q, In q result ->
    q = a \/ q = goal
    \/ exists corridor u,
        findTrianglePath fuel startTriangle goalTriangle = Some corridor
        /\ In u (startTriangle :: corridor)
        /\ In q (vertexList u).
Proof.
  intros Hloc Hres Hrun q Hq.
  rewrite (@findPath_located _ nm fuel a b closestToStart startTriangle Hloc)
    in Hrun.
  rewrite Hres in Hrun.
  assert (Hdirect : In q [a; goal] -> q = a \/ q = goal \/
            exists corridor u,
              findTrianglePath fuel startTriangle goalTriangle = Some corridor
              /\ In u (startTriangle :: corridor) /\ In q (vertexList u)).
  { intros [<-|[<-|[]]]; auto. }
  destruct (same startTriangle goalTriangle).
  { injection Hrun as <-. now apply Hdirect. }
  destruct (findTrianglePath fuel startTriangle goalTriangle)
    as [[|t trianglePath]|]; [| |discriminate Hrun].
  - destruct (isNeighbor startTriangle goalTriangle);
      injection Hrun as <-; [now apply Hdirect|destruct Hq].
  - unfold funnel in Hrun.
    pose proof (funnelOn_givenPoints _ _ _ _ Hrun) as Hall.
    rewrite Forall_forall in Hall.
    destruct (Hall q Hq) as [->|[->|(portal & Hin & Hend)]]; auto.
    right; right.
    destruct (getPortalEdges_vertices _ _ Hin) as (u & Hu & HL & HR).
    exists (t :: trianglePath), u. split; [reflexivity|]. split; [exact Hu|].
    destruct Hend as [->| ->]; assumption.
Qed.

(** X17: every point of the path that [findPath] returns is [a], the
    effective goal, or a vertex of the start triangle or of a triangle of
    the A* corridor. *)
Theorem findPath_waypoints_are_vertices (fuel : nat) (nm : NavMesh2d)
  (a b : Point) (closestToStart : bool) (startTriangle goalTriangle : TPolygon)
  (goal : Point) (result : list Point) :
  findTriangleContainingPoint nm a = Some startTriangle ->
  resolveTarget nm a b closestToStart startTriangle = Some (goal, goalTriangle) ->
  findPath fuel nm a b closestToStart = Some result ->
  forall q, In q result ->
    q = a \/ q = goal
    \/ exists corridor u,
        findTrianglePath fuel startTriangle goalTriangle = Some corridor
        /\ In u (startTriangle :: corridor)
        /\ In q (vertexList u).
Proof. apply findPath_waypoints_are_vertices_aux. Qed.

Lemma reachable_in_mesh (l : list TPolygon) (s : TPolygon) :
  closedUnderConnections l = true -> In s l ->
  forall t, reachable s t -> In t l.
Proof.
  intros Hclosed Hs t Ht.
  pose proof (closedUnderConnections_incl _ Hclosed) as Hincl.
  induction Ht as [|t u _ IH Hu]; [exact Hs|]. exact (Hincl t IH u Hu).
Qed.

(** X18: on a mesh whose triangles have their neighbours in the mesh,
    every point of the path that [findPath] returns is a point of the
    mesh. *)
Theorem findPath_stays_in_mesh (fuel : nat) (nm : NavMesh2d) (a b : Point)
  (closestToStart : bool) (result : list Point) :
  closedUnderConnections (triangles nm) = true ->
  findPath fuel nm a b closestToStart = Some result ->
  forall q, In q result -> isPointInNavMesh nm q = true.
Proof.
  intros Hclosed Hrun q Hq.
  destruct (findTriangleContainingPoint nm a) as [startTriangle|] eqn:Hloc.
  2:{ unfold findPath in Hrun. rewrite Hloc in Hrun. injection Hrun as <-.
      destruct Hq. }
  pose proof Hrun as Hrun'.
  rewrite (@findPath_located _ nm fuel a b closestToStart startTriangle Hloc)
    in Hrun'.
  destruct (resolveTarget nm a b closestToStart startTriangle)
    as [[goal goalTriangle]|] eqn:Hres.
  2:{ injection Hrun' as <-. destruct Hq. }
  clear Hrun'.
  assert (Ha : isPointInNavMesh nm a = true)
    by (unfold isPointInNavMesh; now rewrite Hloc).
  assert (Hg : isPointInNavMesh nm goal = true).
  { apply resolveTarget_some in Hres. unfold isPointInNavMesh.
    destruct Hres as [[Hb ->]|(_ & sp & _ & _ & Hb)]; now rewrite Hb. }
  assert (Hstart : In startTriangle (triangles nm)).
  { unfold findTriangleContainingPoint in Hloc.
    apply find_some in Hloc. apply Hloc. }
  destruct (@findPath_waypoints_are_vertices_aux fuel nm a b closestToStart
              startTriangle goalTriangle goal result Hloc Hres Hrun q Hq)
    as [->|[->|(corridor & u & Hcorr & Hu & Hv)]]; [exact Ha|exact Hg|].
  assert (Hreach : reachable startTriangle u).
  { destruct Hu as [<-|Hu]; [apply reachable_here|].
    destruct (@findTrianglePath_sound_aux _ _ _ _ _ Hcorr) as [Hl _].
    exact (@linked_reachable _ startTriangle corridor startTriangle
             (reachable_here _) Hl u Hu). }
  apply (@isPointInNavMesh_in_triangle _ nm u q).
  - exact (@reachable_in_mesh _ _ Hclosed Hstart u Hreach).
  - apply isPointInTriangle_edge. now apply vertex_onTriangleEdge.
Qed.

End Portals.

Lemma getSharedEdge_is_edge_witness :
  existsb (fun edge => isSameEdge edge
                         {| pleft := Sample.P 0 10; pright := Sample.P 10 0 |})
          (@getTriangleEdges Sample.provider 0%nat) = true
  /\ existsb (pointsEqual (Sample.P 0 10))
             (@vertexList Sample.provider 1%nat) = true
  /\ existsb (pointsEqual (Sample.P 10 0))
             (@vertexList Sample.provider 1%nat) = true.
Proof.
  apply (@getSharedEdge_is_edge Sample.provider 0%nat 1%nat
           {| pleft := Sample.P 0 10; pright := Sample.P 10 0 |}).
  vm_compute. reflexivity.
Defined.

(** The inner corner (10,10) of the L-shaped mesh, where the path from
    (18,5) to (5,18) turns, is a vertex of a corridor triangle. *)
Lemma findPath_waypoints_are_vertices_witness :
  Sample.P 10 10 = Sample.P 18 5 \/ Sample.P 10 10 = Sample.P 5 18
  \/ exists corridor u,
      @findTrianglePath Sample.provider 7 4%nat 9%nat = Some corridor
      /\ In u (4%nat :: corridor)
      /\ In (Sample.P 10 10) (@vertexList Sample.provider u).
Proof.
  apply (@findPath_waypoints_are_vertices Sample.provider 7 Sample.ellMesh
           (Sample.P 18 5) (Sample.P 5 18) false 4%nat 9%nat (Sample.P 5 18)
           [Sample.P 18 5; Sample.P 10 10; Sample.P 5 18]).
  - vm_compute. reflexivity.
  - vm_compute. reflexivity.
  - vm_compute. reflexivity.
  - right. left. reflexivity.
Defined.

Lemma findPath_stays_in_mesh_witness :
  isPointInNavMesh Sample.ellMesh (Sample.P 10 10) = true.
Proof.
  apply (@findPath_stays_in_mesh Sample.provider 7 Sample.ellMesh
           (Sample.P 18 5) (Sample.P 5 18) false
           [Sample.P 18 5; Sample.P 10 10; Sample.P 5 18]).
  - vm_compute. reflexivity.
  - vm_compute. reflexivity.
  - right. left. reflexivity.
Defined.

(** ** The waypoints follow the portals *)

Section FunnelOrder.

Variable portals : list Portal.

Lemma inPortalOrder_snoc (pts : list Point) (p : Point) :
  forall k hi j,
    inPortalOrder portals k pts hi -> (hi < j)%Z -> atPortal portals j p ->
    inPortalOrder portals k (pts ++ [p]) j.
Proof.
  induction pts as [|q pts IH]; intros k hi j H Hj Hp; cbn [app inPortalOrder] in *.
  - exists j. split; [lia|]. split; [exact Hp|lia].
  - destruct H as (i & Hi & Hq & H). exists i.
    split; [exact Hi|]. split; [exact Hq|]. eapply IH; eassumption.
Qed.

Lemma inPortalOrder_weaken (pts : list Point) :
  forall k hi hi',
    inPortalOrder portals k pts hi -> (hi <= hi')%Z ->
    inPortalOrder portals k pts hi'.
Proof.
  induction pts as [|q pts IH]; intros k hi hi' H Hle; cbn [inPortalOrder] in *.
  - lia.
  - destruct H as (i & Hi & Hq & H). exists i.
    split; [exact Hi|]. split; [exact Hq|]. eapply IH; eassumption.
Qed.

Lemma inPortalOrder_length (pts : list Point) :
  forall k hi,
    inPortalOrder portals k pts hi -> (Z.of_nat (length pts) <= hi - k)%Z.
Proof.
  induction pts as [|q pts IH]; intros k hi H; cbn [inPortalOrder length] in *.
  - lia.
  - destruct H as (i & Hi & _ & H). apply IH in H. lia.
Qed.

Lemma atPortal_bound (k : Z) (p : Point) :
  atPortal portals k p -> (k < Z.of_nat (length portals))%Z.
Proof.
  intros (Hk & portal & Hnth & _).
  assert (Z.to_nat k < length portals)%nat
    by (apply nth_error_Some; congruence).
  lia.
Qed.

Variable start : Point.

Ltac funnel_cases :=
  unfold funnelBody, restartAt;
  repeat match goal with
         | |- context [if ?c then _ else _] => destruct c eqn:?
         end; cbn [fst snd path apex apexIndex left leftIndex right rightIndex].

Lemma funnelBody_trail (i : Z) (portal : Portal) (st : FunnelState) :
  (0 <= i)%Z -> nth_error portals (Z.to_nat i) = Some portal ->
  progress i st -> trail portals start st ->
  trail portals start (snd (funnelBody i portal st)).
Proof.
  intros Hi Hnth [Hlow Hprog] ((tl & Hpath & Hord) & Hlast & Hapex & HL & HR).
  assert (HpL : atPortal portals i (pleft portal))
    by (split; [exact Hi|]; exists portal; auto).
  assert (HpR : atPortal portals i (pright portal))
    by (split; [exact Hi|]; exists portal; auto).
  destruct Hprog as [(EL & ER & Ei)|(IL & IR)].
  - rewrite (funnelBody_after_restart i portal st EL ER). cbn [snd].
    unfold trail. cbn [path apex apexIndex left leftIndex right rightIndex].
    split; [eauto|]. split; [exact Hlast|]. split; [exact Hapex|].
    split; intros _; assumption.
  - specialize (HL (proj1 IL)). specialize (HR (proj1 IR)).
    assert (Hsnoc : forall p j, (apexIndex st < j)%Z -> atPortal portals j p ->
               exists tl', path st ++ [p] = start :: tl'
                           /\ inPortalOrder portals (-1) tl' j).
    { intros p j Hj Hp. exists (tl ++ [p]). rewrite Hpath. split; [reflexivity|].
      eapply inPortalOrder_snoc; eassumption. }
    unfold trail. funnel_cases;
      repeat match goal with
             | |- _ /\ _ => split
             | |- List.last (_ ++ [_]) _ = _ => apply last_app_one
             | |- (?a < ?a)%Z -> _ => let H := fresh in intro H; exfalso; lia
             | |- _ -> atPortal _ _ _ => intros _
             end;
      try assumption; try (now eauto);
      try (apply Hsnoc; [lia|assumption]);
      try (right; assumption).
Qed.

Lemma funnelLoop_trail :
  forall fuel i st st',
    progress i st -> trail portals start st ->
    funnelLoop fuel portals i st = Some st' ->
    trail portals start st'.
Proof.
  induction fuel as [|fuel IH]; intros i st st' Hp Ht Hrun; [discriminate Hrun|].
  cbn [funnelLoop] in Hrun.
  destruct (i <? Z.of_nat (length portals))%Z; [|now injection Hrun as <-].
  destruct (i <? 0)%Z eqn:Hneg; [discriminate Hrun|].
  apply Z.ltb_ge in Hneg.
  destruct (nth_error portals (Z.to_nat i)) as [portal|] eqn:Hnth;
    [|discriminate Hrun].
  pose proof (@funnelBody_progress i portal st Hp) as Hstep.
  pose proof (@funnelBody_trail i portal st Hneg Hnth Hp Ht) as Htrail.
  destruct (funnelBody i portal st) as [i' st1].
  destruct Hstep as [Hp' _]. exact (IH _ _ _ Hp' Htrail Hrun).
Qed.

End FunnelOrder.

Section FunnelOrderResult.

Context {provider : Provider}.

Lemma initialFunnel_trail (portals : list Portal) (start : Point) :
  trail portals start (initialFunnel start).
Proof.
  unfold trail, initialFunnel.
  cbn [path apex apexIndex left leftIndex right rightIndex List.last].
  split; [exists []; split; [reflexivity|cbn; lia]|].
  split; [reflexivity|]. split; [now left|]. split; intro H; exfalso; lia.
Qed.

Lemma funnelOn_in_portal_order fuel start end_ portals0 result :
  funnelOn fuel start end_ portals0 = Some result ->
  exists tl,
    result = start :: tl
    /\ inPortalOrder (portals0 ++ [sentinel end_]) (-1) tl
                     (Z.of_nat (length portals0))
    /\ (length result <= length portals0 + 2)%nat.
Proof.
  rewrite funnelOn_unfold.
  destruct (funnelLoop _ _ _ _) as [st'|] eqn:Hloop; [|discriminate].
  pose proof (@funnelLoop_trail (portals0 ++ [sentinel end_]) start fuel 0%Z
                (initialFunnel start) st' (initialFunnel_progress start)
                (initialFunnel_trail _ start) Hloop) as T.
  destruct T as ((tl & Hpath & Hord) & Hlast & Hapex & _).
  assert (Hlen : length (portals0 ++ [sentinel end_]) = S (length portals0))
    by (rewrite length_app; cbn [length]; lia).
  assert (Hhi : (apexIndex st' <= Z.of_nat (length portals0))%Z).
  { destruct Hapex as [E|Hat]; [lia|].
    apply atPortal_bound in Hat. rewrite Hlen in Hat. lia. }
  assert (Hgoal : atPortal (portals0 ++ [sentinel end_])
                    (Z.of_nat (length portals0)) end_).
  { split; [lia|]. exists (sentinel end_). rewrite Nat2Z.id.
    rewrite nth_error_app2, Nat.sub_diag by lia. split; [reflexivity|now left]. }
  destruct (pointsEqual (List.last (path st') start) end_) eqn:E;
    cbn [negb]; intros [= <-].
  - exists tl. split; [exact Hpath|].
    pose proof (@inPortalOrder_weaken _ _ _ _ _ Hord Hhi) as Hord'.
    split; [exact Hord'|]. apply inPortalOrder_length in Hord'.
    rewrite Hpath. cbn [length]. lia.
  - assert (Hlt : (apexIndex st' < Z.of_nat (length portals0))%Z).
    { destruct (Z.eq_dec (apexIndex st') (Z.of_nat (length portals0)))
        as [Eq|Ne]; [exfalso|lia].
      destruct Hapex as [E1|(_ & portal & Hnth & Hends)]; [lia|].
      rewrite Eq, Nat2Z.id, nth_error_app2, Nat.sub_diag in Hnth by lia.
      injection Hnth as <-. cbn [sentinel pleft pright] in Hends.
      assert (apex st' = end_) as Ea by (destruct Hends; assumption).
      rewrite Hlast, Ea, pointsEqual_refl in E. discriminate E. }
    exists (tl ++ [end_]). rewrite Hpath. split; [reflexivity|].
    pose proof (@inPortalOrder_snoc _ _ _ _ _ _ Hord Hlt Hgoal) as Hord'.
    split; [exact Hord'|]. apply inPortalOrder_length in Hord'.
    cbn [length app] in *. lia.
Qed.

(** X19: the path that [funnel] returns is the start followed by ends of
    portals (the goal counts as the portal after the last one) taken at
    strictly increasing portal indices; so it has at most one point per
    portal besides the start and the goal. *)
Theorem funnel_waypoints_in_portal_order (start end_ : Point)
  (trianglePath : list TPolygon) (result : list Point) :
  funnel start end_ trianglePath = Some result ->
  exists tl,
    result = start :: tl
    /\ inPortalOrder (getPortalEdges trianglePath ++ [sentinel end_]) (-1) tl
                     (Z.of_nat (length (getPortalEdges trianglePath)))
    /\ (length result <= length (getPortalEdges trianglePath) + 2)%nat.
Proof.
  unfold funnel. apply funnelOn_in_portal_order.
Qed.

End FunnelOrderResult.

Lemma funnel_waypoints_in_portal_order_witness :
  exists tl,
    [Sample.P 18 5; Sample.P 10 10; Sample.P 5 18] = Sample.P 18 5 :: tl
    /\ inPortalOrder
         (@getPortalEdges Sample.provider
            [4%nat; 5%nat; 6%nat; 7%nat; 8%nat; 9%nat]
          ++ [sentinel (Sample.P 5 18)]) (-1) tl
         (Z.of_nat (length (@getPortalEdges Sample.provider
                              [4%nat; 5%nat; 6%nat; 7%nat; 8%nat; 9%nat])))
    /\ (length [Sample.P 18 5; Sample.P 10 10; Sample.P 5 18]
        <= length (@getPortalEdges Sample.provider
                     [4%nat; 5%nat; 6%nat; 7%nat; 8%nat; 9%nat]) + 2)%nat.
Proof.
  apply (@funnel_waypoints_in_portal_order Sample.provider
           (Sample.P 18 5) (Sample.P 5 18)
           [4%nat; 5%nat; 6%nat; 7%nat; 8%nat; 9%nat]).
  vm_compute. reflexivity.
Defined.

(** ** Straight corridors *)

Lemma triArea2_swap (a b c : Point) : triArea2 a c b == - triArea2 a b c.
Proof. unfold triArea2. ring. Qed.

Lemma triArea2_twice (a b : Point) : triArea2 a b b == 0.
Proof. unfold triArea2. ring. Qed.

(** a point on the left of the segment and a point on its right, both
    ahead of its start, are on the left and on the right of each other as
    seen from the start *)
Lemma cross_sides (s e l r : Point) :
  0 < triArea2 s l e -> ahead s e l ->
  0 < triArea2 s e r -> ahead s e r ->
  0 < triArea2 s l r.
Proof.
  unfold triArea2, ahead.
  set (lx := Point.x l - Point.x s). set (ly := Point.y l - Point.y s).
  set (rx := Point.x r - Point.x s). set (ry := Point.y r - Point.y s).
  set (dx := Point.x e - Point.x s). set (dy := Point.y e - Point.y s).
  intros HL HLa HR HRa.
  assert (E : (rx * ly - lx * ry) * (dx * dx + dy * dy)
              == (rx * dx + ry * dy) * (dx * ly - lx * dy)
                 + (rx * dy - dx * ry) * (lx * dx + ly * dy)) by ring.
  pose proof (Qmult_lt_0_compat _ _ HRa HL) as P1.
  pose proof (Qmult_lt_0_compat _ _ HR HLa) as P2.
  assert (N : 0 <= dx * dx + dy * dy) by nra.
  destruct (Qlt_le_dec 0 (rx * ly - lx * ry)) as [H|H]; [exact H|exfalso].
  assert ((rx * ly - lx * ry) * (dx * dx + dy * dy) <= 0) by nra.
  lra.
Qed.

Section Straight.

Variables start end_ : Point.

Lemma funnelBody_straight (i : Z) (portal : Portal) (st : FunnelState) :
  openOn start end_ st -> straddles start end_ portal ->
  exists st', funnelBody i portal st = (i, st') /\ openOn start end_ st'.
Proof.
  intros (Hpath & Hapex & HL & HLa & HR & HRa) (PL & PR & PLa & PRa).
  assert (C1 : (triArea2 start (left st) (pright portal) >? 0)%num = true)
    by (apply gtb_gt, cross_sides with end_; assumption).
  assert (C2 : forall r, 0 < triArea2 start end_ r -> ahead start end_ r ->
                 (triArea2 start r (pleft portal) <? 0)%num = true).
  { intros r Hr Hra. apply ltb_lt. rewrite triArea2_swap.
    pose proof (@cross_sides start end_ (pleft portal) r PL PLa Hr Hra). lra. }
  unfold funnelBody. rewrite Hapex, C1, orb_true_r.
  destruct (triArea2 start (right st) (pright portal) <=? 0)%num;
    cbn [apex left right path apexIndex leftIndex rightIndex].
  - rewrite (C2 _ PR PRa), orb_true_r.
    destruct (_ >=? 0)%num; eexists; (split; [reflexivity|]);
      unfold openOn; cbn [apex left right path]; auto 10.
  - rewrite Hapex, (C2 _ HR HRa), orb_true_r.
    destruct (_ >=? 0)%num; eexists; (split; [reflexivity|]);
      unfold openOn; cbn [apex left right path]; auto 10.
Qed.

Lemma funnelBody_goal (i : Z) (st : FunnelState) :
  openOn start end_ st ->
  exists st', funnelBody i (sentinel end_) st = (i, st')
              /\ (path st' = [start] \/ path st' = [start; end_]).
Proof.
  intros (Hpath & Hapex & HL & HLa & HR & HRa).
  unfold funnelBody, sentinel. cbn [pleft pright]. rewrite Hapex.
  assert (C1 : (triArea2 start (right st) end_ <=? 0)%num = true)
    by (apply leb_le; rewrite triArea2_swap; lra).
  assert (C2 : (triArea2 start (left st) end_ >? 0)%num = true)
    by (now apply gtb_gt).
  assert (C3 : (triArea2 start (left st) end_ >=? 0)%num = true)
    by (apply geb_ge; lra).
  assert (C4 : (triArea2 start end_ end_ <? 0)%num = false)
    by (apply ltb_ge; rewrite triArea2_twice; lra).
  rewrite C1, C2, orb_true_r.
  cbn [apex left right path apexIndex leftIndex rightIndex].
  rewrite C3, C4, orb_false_r.
  destruct (pointsEqual start (left st)); eexists; (split; [reflexivity|]);
    unfold restartAt; cbn [path]; rewrite Hpath; auto.
Qed.

Lemma funnelLoop_straight :
  forall rest pre st fuel,
    openOn start end_ st ->
    Forall (straddles start end_) rest ->
    (length rest + 2 <= fuel)%nat ->
    exists st',
      funnelLoop fuel (pre ++ rest ++ [sentinel end_])
                 (Z.of_nat (length pre)) st = Some st'
      /\ (path st' = [start] \/ path st' = [start; end_]).
Proof.
  induction rest as [|portal rest IH]; intros pre st fuel Hopen Hall Hfuel.
  - destruct fuel as [|[|fuel]]; [cbn in Hfuel; lia..|].
    cbn [app]. cbn [funnelLoop].
    assert (Hlen : length (pre ++ [sentinel end_]) = S (length pre))
      by (rewrite length_app; cbn [length]; lia).
    rewrite Hlen.
    assert ((Z.of_nat (length pre) <? Z.of_nat (S (length pre)))%Z = true)
      as -> by (apply Z.ltb_lt; lia).
    assert ((Z.of_nat (length pre) <? 0)%Z = false)
      as -> by (apply Z.ltb_ge; lia).
    rewrite Nat2Z.id, nth_error_app2, Nat.sub_diag by lia.
    cbn [nth_error].
    destruct (funnelBody_goal (Z.of_nat (length pre)) Hopen)
      as (st' & -> & Hst').
    assert ((Z.of_nat (length pre) + 1 <? Z.of_nat (S (length pre)))%Z = false)
      as -> by (apply Z.ltb_ge; lia).
    eauto.
  - destruct fuel as [|fuel]; [cbn in Hfuel; lia|].
    inversion Hall as [|? ? Hportal Hrest]; subst.
    cbn [funnelLoop].
    assert ((Z.of_nat (length pre)
             <? Z.of_nat (length (pre ++ (portal :: rest) ++ [sentinel end_])))%Z
            = true) as ->.
    { apply Z.ltb_lt. rewrite !length_app. cbn [length]. lia. }
    assert ((Z.of_nat (length pre) <? 0)%Z = false)
      as -> by (apply Z.ltb_ge; lia).
    rewrite Nat2Z.id, nth_error_app2, Nat.sub_diag by lia.
    cbn [nth_error app].
    destruct (funnelBody_straight (Z.of_nat (length pre)) Hopen Hportal)
      as (st1 & -> & Hopen1).
    replace (pre ++ portal :: rest ++ [sentinel end_])
      with ((pre ++ [portal]) ++ rest ++ [sentinel end_])
      by (rewrite <- app_assoc; reflexivity).
    replace (Z.of_nat (length pre) + 1)%Z
      with (Z.of_nat (length (pre ++ [portal])))
      by (rewrite length_app; cbn [length]; lia).
    apply IH; [exact Hopen1|exact Hrest|]. cbn [length] in Hfuel. lia.
Qed.

Lemma funnelOn_straight (fuel : nat) (portals0 : list Portal) :
  pointsEqual start end_ = false ->
  Forall (straddles start end_) portals0 ->
  (length portals0 + 2 <= fuel)%nat ->
  funnelOn fuel start end_ portals0 = Some [start; end_].
Proof.
  intros Hfar Hall Hfuel. rewrite funnelOn_unfold.
  destruct fuel as [|fuel]; [lia|].
  cbn [funnelLoop].
  assert ((0 <? Z.of_nat (length (portals0 ++ [sentinel end_])))%Z = true) as ->.
  { apply Z.ltb_lt. rewrite length_app. cbn [length]. lia. }
  cbn [Z.ltb Z.compare Z.to_nat].
  destruct portals0 as [|portal rest].
  - cbn [app nth_error]. rewrite funnelBody_after_restart by reflexivity.
    destruct fuel as [|fuel]; [cbn in Hfuel; lia|].
    cbn [funnelLoop length Z.of_nat Pos.of_succ_nat Z.add Pos.add Z.ltb
         Z.compare Pos.compare Pos.compare_cont initialFunnel path List.last].
    rewrite Hfar. reflexivity.
  - cbn [app nth_error]. rewrite funnelBody_after_restart by reflexivity.
    inversion Hall as [|? ? Hportal Hrest]; subst.
    destruct Hportal as (PL & PR & PLa & PRa).
    match goal with
    | |- context [funnelLoop fuel _ _ ?st1] =>
        destruct (@funnelLoop_straight rest [portal] st1 fuel)
          as (st' & Hrun & Hst')
    end.
    + unfold openOn, initialFunnel. cbn [path apex left right]. auto 10.
    + exact Hrest.
    + cbn [length] in Hfuel. lia.
    + cbn [length app Z.of_nat Pos.of_succ_nat Z.add Pos.add] in Hrun |- *.
      rewrite Hrun.
      destruct Hst' as [-> | ->]; cbn [List.last].
      * rewrite Hfar. reflexivity.
      * rewrite pointsEqual_refl. reflexivity.
Qed.

Lemma funnelOn_straight_any (fuel : nat) (portals0 : list Portal) :
  Forall (straddles start end_) portals0 ->
  (length portals0 + 2 <= fuel)%nat ->
  funnelOn fuel start end_ portals0 = Some [start; end_]
  \/ (pointsEqual start end_ = true
      /\ funnelOn fuel start end_ portals0 = Some [start]).
Proof.
  intros Hall Hfuel.
  destruct (pointsEqual start end_) eqn:Hfar;
    [|left; now apply funnelOn_straight].
  rewrite funnelOn_unfold.
  destruct fuel as [|fuel]; [lia|].
  cbn [funnelLoop].
  assert ((0 <? Z.of_nat (length (portals0 ++ [sentinel end_])))%Z = true) as ->.
  { apply Z.ltb_lt. rewrite length_app. cbn [length]. lia. }
  cbn [Z.ltb Z.compare Z.to_nat].
  destruct portals0 as [|portal rest].
  - cbn [app nth_error]. rewrite funnelBody_after_restart by reflexivity.
    destruct fuel as [|fuel]; [cbn in Hfuel; lia|].
    cbn [funnelLoop length Z.of_nat Pos.of_succ_nat Z.add Pos.add Z.ltb
         Z.compare Pos.compare Pos.compare_cont initialFunnel path List.last].
    rewrite Hfar. right. split; reflexivity.
  - cbn [app nth_error]. rewrite funnelBody_after_restart by reflexivity.
    inversion Hall as [|? ? Hportal Hrest]; subst.
    destruct Hportal as (PL & PR & PLa & PRa).
    match goal with
    | |- context [funnelLoop fuel _ _ ?st1] =>
        destruct (@funnelLoop_straight rest [portal] st1 fuel)
          as (st' & Hrun & Hst')
    end.
    + unfold openOn, initialFunnel. cbn [path apex left right]. auto 10.
    + exact Hrest.
    + cbn [length] in Hfuel. lia.
    + cbn [length app Z.of_nat Pos.of_succ_nat Z.add Pos.add] in Hrun |- *.
      rewrite Hrun.
      destruct Hst' as [-> | ->]; cbn [List.last].
      * rewrite Hfar. right. split; reflexivity.
      * rewrite pointsEqual_refl. left. reflexivity.
Qed.

End Straight.

Section StraightCorridor.

Context {provider : Provider}.


End StraightCorridor.


(** ** Path simplification *)

Lemma keptFrom_app_one (A : Type) (kept l : list A) (x : A) :
  keptFrom kept l -> keptFrom (kept ++ [x]) (l ++ [x]).
Proof.
  intro H. induction H; cbn [app].
  - apply keptFrom_keep, keptFrom_nil.
  - now apply keptFrom_keep.
  - now apply keptFrom_drop.
Qed.

Lemma keptFrom_length (A : Type) (kept l : list A) :
  keptFrom kept l -> (length kept <= length l)%nat.
Proof. intro H. induction H; cbn [length]; lia. Qed.

Lemma keptFrom_refl (A : Type) (l : list A) : keptFrom l l.
Proof. induction l; [apply keptFrom_nil|now apply keptFrom_keep]. Qed.

(** the loop pushes some of the points that have a successor, in order *)
Lemma simplifyLoop_kept (first : Point) (rest : list Point) :
  forall simplified,
    exists kept,
      simplifyLoop simplified first rest = simplified ++ kept
      /\ keptFrom kept (removelast rest).
Proof.
  induction rest as [|p [|next tl] IH]; intro simplified.
  - exists []. split; [now rewrite app_nil_r|apply keptFrom_nil].
  - exists []. split; [now rewrite app_nil_r|apply keptFrom_nil].
  - change (simplifyLoop simplified first (p :: next :: tl))
      with (simplifyLoop
              (if (Qabs (triArea2 (List.last simplified first) p next)
                   >? (1 # 1000000))%num
               then simplified ++ [p] else simplified)
              first (next :: tl)).
    change (removelast (p :: next :: tl)) with (p :: removelast (next :: tl)).
    destruct (_ >? _)%num.
    + destruct (IH (simplified ++ [p])) as (kept & -> & Hk).
      exists (p :: kept). split; [now rewrite <- app_assoc|].
      now apply keptFrom_keep.
    + destruct (IH simplified) as (kept & -> & Hk).
      exists kept. split; [reflexivity|now apply keptFrom_drop].
Qed.

(** X21: [simplifyPath] only leaves points out: its result is the
    path with some interior points removed, in the same order, with the
    same first and last point; a path of fewer than three points is
    returned as it is. *)
Theorem simplifyPath_keeps (path : list Point) :
  keptFrom (simplifyPath path) path
  /\ (forall d, List.hd d (simplifyPath path) = List.hd d path)
  /\ (forall d, List.last (simplifyPath path) d = List.last path d)
  /\ ((length path < 3)%nat -> simplifyPath path = path)
  /\ ((2 <= length path)%nat -> (2 <= length (simplifyPath path))%nat).
Proof.
  unfold simplifyPath.
  destruct (length path <? 3)%nat eqn:Hshort.
  - repeat split; auto using keptFrom_refl.
  - apply Nat.ltb_ge in Hshort.
    destruct path as [|first rest]; [cbn in Hshort; lia|].
    assert (Hrest : rest <> []) by (intros ->; cbn in Hshort; lia).
    destruct (simplifyLoop_kept first rest [first]) as (kept & -> & Hk).
    set (lst := List.last (first :: rest) first).
    assert (Hpath : first :: rest = (first :: removelast rest) ++ [lst]).
    { unfold lst. cbn [app]. f_equal.
      destruct rest as [|r rest']; [contradiction|].
      change (List.last (first :: r :: rest') first)
        with (List.last (r :: rest') first).
      now apply app_removelast_last. }
    split; [|split; [|split; [|split]]].
    + rewrite Hpath. apply keptFrom_app_one. cbn [app].
      now apply keptFrom_keep.
    + intro d. reflexivity.
    + intro d. rewrite last_app_one. apply last_default.
    + intro H. cbn [length] in *. lia.
    + intros _. rewrite !length_app. cbn [length]. lia.
Qed.

Lemma onLine_origin (origin : Point) (dx dy : Q) : onLine origin dx dy origin.
Proof. exists 0. split; ring. Qed.

Lemma simplifyLoop_onLine (first : Point) (dx dy : Q) (rest : list Point) :
  Forall (onLine first dx dy) rest ->
  simplifyLoop [first] first rest = [first].
Proof.
  induction rest as [|p [|next tl] IH]; intro Hall; [reflexivity..|].
  change (simplifyLoop [first] first (p :: next :: tl))
    with (simplifyLoop
            (if (Qabs (triArea2 (List.last [first] first) p next)
                 >? (1 # 1000000))%num
             then [first] ++ [p] else [first])
            first (next :: tl)).
  inversion Hall as [|? ? Hp Hrest]; subst.
  inversion Hrest as [|? ? Hnext _]; subst.
  assert ((Qabs (triArea2 (List.last [first] first) p next)
           >? (1 # 1000000))%num = false) as ->.
  { apply gtb_le. cbn [List.last].
    rewrite (Qabs_zero (triArea2_collinear (onLine_origin first dx dy) Hp Hnext)).
    discriminate. }
  now apply IH.
Qed.

(** A path of at least three points that all lie on one line
    through its first point is reduced to its first and its last point. *)
Theorem simplifyPath_collinear (first : Point) (rest : list Point) (dx dy : Q) :
  (2 <= length rest)%nat ->
  Forall (onLine first dx dy) rest ->
  simplifyPath (first :: rest) = [first; List.last rest first].
Proof.
  intros Hlen Hall. unfold simplifyPath.
  assert ((length (first :: rest) <? 3)%nat = false) as ->
    by (apply Nat.ltb_ge; cbn [length]; lia).
  rewrite (simplifyLoop_onLine Hall). cbn [app].
  destruct rest as [|r rest']; [cbn in Hlen; lia|reflexivity].
Qed.

Lemma simplifyPath_collinear_witness :
  simplifyPath [Sample.P 0 0; Sample.P 4 2; Sample.P 2 1; Sample.P 10 5]
  = [Sample.P 0 0;
     List.last [Sample.P 4 2; Sample.P 2 1; Sample.P 10 5] (Sample.P 0 0)].
Proof.
  apply (@simplifyPath_collinear (Sample.P 0 0)
           [Sample.P 4 2; Sample.P 2 1; Sample.P 10 5] 2 1).
  - cbn. lia.
  - repeat constructor.
    + exists 2. split; reflexivity.
    + exists 1. split; reflexivity.
    + exists 5. split; reflexivity.
Defined.

(** ** The query: the flag, the owning polygon *)

Section QueryFacts.

Context {provider : Provider}.

(** When [b] is in a triangle of the mesh, [closestToStart] is not
    read: both values give the same path. *)
Theorem findPath_flag_unused (fuel : nat) (nm : NavMesh2d) (a b : Point)
  (endTriangle : TPolygon) :
  findTriangleContainingPoint nm b = Some endTriangle ->
  findPath fuel nm a b true = findPath fuel nm a b false.
Proof.
  intro Hb. unfold findPath, resolveTarget. rewrite Hb. reflexivity.
Qed.

Lemma findStartPolygon_found (pm : PolygonMap) (t : TPolygon) :
  In t (triangles (newNavMesh2d pm)) ->
  exists startPolygon,
    findStartPolygon (newNavMesh2d pm) t = Some startPolygon
    /\ In startPolygon (polygons pm)
    /\ In t (tpolygons startPolygon).
Proof.
  unfold findStartPolygon, newNavMesh2d, buildNavMesh.
  cbn [triangles polygonMap]. intro Hin.
  apply in_flat_map in Hin. destruct Hin as (p & Hp & Ht).
  destruct (find (fun p0 => includes (tpolygons p0) t) (polygons pm))
    as [startPolygon|] eqn:F.
  - apply find_some in F. destruct F as [Hsp Hinc].
    exists startPolygon. repeat split; [assumption|].
    now apply includes_true.
  - exfalso. pose proof (find_none _ _ F p Hp) as N. cbn beta in N.
    apply includes_false in N. contradiction.
Qed.

(** X22: in a mesh made by the constructor every located point has an
    owning polygon: the test [if (!startPolygon)] of [findPath] never
    fires, and when [b] is outside the mesh the path is empty only if the
    projected goal is in no triangle or its triangle is out of reach. *)
Theorem findPath_owner_found (pm : PolygonMap) (a : Point)
  (startTriangle : TPolygon) :
  findTriangleContainingPoint (newNavMesh2d pm) a = Some startTriangle ->
  exists startPolygon,
    findStartPolygon (newNavMesh2d pm) startTriangle = Some startPolygon
    /\ In startPolygon (polygons pm)
    /\ In startTriangle (tpolygons startPolygon)
    /\ forall b closestToStart,
        findTriangleContainingPoint (newNavMesh2d pm) b = None ->
        resolveTarget (newNavMesh2d pm) a b closestToStart startTriangle
        = match findTriangleContainingPoint (newNavMesh2d pm)
                  (projectGoal a b startPolygon closestToStart) with
          | Some targetTriangle =>
              Some (projectGoal a b startPolygon closestToStart, targetTriangle)
          | None => None
          end.
Proof.
  intro Hloc.
  assert (Hin : In startTriangle (triangles (newNavMesh2d pm))).
  { unfold findTriangleContainingPoint in Hloc.
    apply find_some in Hloc. apply Hloc. }
  destruct (findStartPolygon_found pm startTriangle Hin)
    as (startPolygon & Hfind & Hp & Ht).
  exists startPolygon. repeat split; try assumption.
  intros b closestToStart Hb. unfold resolveTarget. rewrite Hb, Hfind.
  reflexivity.
Qed.

End QueryFacts.

Lemma findPath_flag_unused_witness :
  findPath 7 Sample.ellMesh (Sample.P 18 5) (Sample.P 5 18) true
  = findPath 7 Sample.ellMesh (Sample.P 18 5) (Sample.P 5 18) false.
Proof.
  apply (@findPath_flag_unused Sample.provider 7 Sample.ellMesh
           (Sample.P 18 5) (Sample.P 5 18) 9%nat).
  vm_compute. reflexivity.
Defined.

Lemma findPath_owner_found_witness :
  exists startPolygon,
    findStartPolygon (newNavMesh2d {| polygons := [Sample.square; Sample.ell] |})
                     4%nat = Some startPolygon
    /\ In startPolygon (polygons {| polygons := [Sample.square; Sample.ell] |})
    /\ In 4%nat (tpolygons startPolygon)
    /\ forall b closestToStart,
        findTriangleContainingPoint
          (newNavMesh2d {| polygons := [Sample.square; Sample.ell] |}) b = None ->
        resolveTarget (newNavMesh2d {| polygons := [Sample.square; Sample.ell] |})
                      (Sample.P 18 5) b closestToStart 4%nat
        = match findTriangleContainingPoint
                  (newNavMesh2d {| polygons := [Sample.square; Sample.ell] |})
                  (projectGoal (Sample.P 18 5) b startPolygon closestToStart) with
          | Some targetTriangle =>
              Some (projectGoal (Sample.P 18 5) b startPolygon closestToStart,
                    targetTriangle)
          | None => None
          end.
Proof.
  apply (@findPath_owner_found Sample.provider
           {| polygons := [Sample.square; Sample.ell] |} (Sample.P 18 5) 4%nat).
  vm_compute. reflexivity.
Defined.

(** ** Goal projection: the running minimum *)

Lemma overflow_pos : 0 < Num.overflow.
Proof. reflexivity. Qed.

Lemma ofExact_Fin (q : Q) : q < Num.overflow -> Num.ofExact q = Num.Fin q.
Proof.
  intro H. unfold Num.ofExact.
  destruct (Num.overflow <=? q)%num eqn:E; [|reflexivity].
  apply leb_le in E. exfalso. apply (Qlt_not_le _ _ H E).
Qed.

Lemma ofExact_Infinity (q : Q) :
  Num.overflow <= q -> Num.ofExact q = Num.Infinity.
Proof.
  intro H. unfold Num.ofExact. apply leb_le in H. rewrite H. reflexivity.
Qed.

Lemma ofExact_finite (q m : Q) :
  Num.ofExact q = Num.Fin m -> m = q /\ q < Num.overflow.
Proof.
  unfold Num.ofExact. destruct (Num.overflow <=? q)%num eqn:E; [discriminate|].
  apply leb_gt in E. intros [= <-]. split; [reflexivity|exact E].
Qed.

(** No exact value below the threshold is above one whose number is not
    below its own. *)
Lemma ofExact_not_below (c r : Q) :
  r < Num.overflow ->
  Num.lt_ext (Num.ofExact c) (Num.ofExact r) = false -> r <= c.
Proof.
  intros Hr. rewrite (ofExact_Fin Hr). unfold Num.ofExact.
  destruct (Num.overflow <=? c)%num eqn:E.
  - intros _. apply leb_le in E. lra.
  - cbn [Num.lt_ext]. intro H. now apply ltb_ge in H.
Qed.

Lemma lt_ext_irrefl (d : Num.ext) : Num.lt_ext d d = false.
Proof.
  destruct d as [a|]; [|reflexivity]. cbn [Num.lt_ext].
  apply ltb_ge. apply Qle_refl.
Qed.

(** a number that is not below [Fin m] is not below a smaller one *)
Lemma lt_ext_lower (c : Num.ext) (a m : Q) :
  a < m -> Num.lt_ext c (Num.Fin m) = false -> Num.lt_ext c (Num.Fin a) = false.
Proof.
  intros Ham. destruct c as [b|]; [|reflexivity]. cbn [Num.lt_ext].
  rewrite !ltb_ge. intro H. lra.
Qed.

(** Points in range are at a squared distance that does not overflow. *)
Lemma squaredDistance_inRange (p q : Point) :
  inRange p = true -> inRange q = true ->
  Point.squaredDistance p q < Num.overflow.
Proof.
  unfold inRange. rewrite !andb_true_iff, !leb_le.
  intros [Hpx Hpy] [Hqx Hqy].
  apply Qabs_Qle_condition in Hpx, Hpy, Hqx, Hqy.
  assert (HB : 0 <= Num.bound) by (unfold Num.bound; cbn; discriminate).
  assert (Hover : 8 * (Num.bound * Num.bound) < Num.overflow) by reflexivity.
  unfold Point.squaredDistance.
  generalize dependent Num.overflow. generalize dependent Num.bound.
  intros B Hpx Hpy Hqx Hqy HB over Hover.
  assert (Hx : (Point.x p - Point.x q) * (Point.x p - Point.x q)
               <= 4 * (B * B)) by nra.
  assert (Hy : (Point.y p - Point.y q) * (Point.y p - Point.y q)
               <= 4 * (B * B)) by nra.
  lra.
Qed.

Section ClosestBoundary.

Context {provider : Provider}.

Variable target : Point.

Lemma checkPoint_nearestOf seen acc p :
  nearestOf target seen acc ->
  nearestOf target (seen ++ [p]) (checkPoint target acc p).
Proof.
  unfold nearestOf, checkPoint. destruct acc as [r [m|]]; cbn [fst snd].
  - intros (Hr & Hin & Hmin).
    destruct (Num.lt_ext _ _) eqn:C; cbn [fst snd].
    + destruct (getDistanceSquared target p) as [a|] eqn:Hd;
        [|discriminate C].
      cbn [Num.lt_ext] in C. apply ltb_lt in C.
      split; [first [exact Hd|reflexivity]|].
      split; [apply in_or_app; right; now left|].
      intros c Hc. apply in_app_or in Hc. destruct Hc as [Hc|[<-|[]]].
      * apply lt_ext_lower with (1 := C). now apply Hmin.
      * rewrite ?Hd. apply lt_ext_irrefl.
    + split; [exact Hr|]. split; [apply in_or_app; now left|].
      intros c Hc. apply in_app_or in Hc. destruct Hc as [Hc|[<-|[]]].
      * now apply Hmin.
      * exact C.
  - intros (-> & Hall).
    destruct (getDistanceSquared target p) as [a|] eqn:Hd;
      cbn [Num.lt_ext fst snd].
    + split; [first [exact Hd|reflexivity]|].
      split; [apply in_or_app; right; now left|].
      intros c Hc. apply in_app_or in Hc. destruct Hc as [Hc|[<-|[]]].
      * rewrite (Hall c Hc). reflexivity.
      * rewrite ?Hd. apply lt_ext_irrefl.
    + split; [reflexivity|].
      intros c Hc. apply in_app_or in Hc. destruct Hc as [Hc|[<-|[]]].
      * now apply Hall.
      * first [exact Hd|reflexivity].
Qed.

Lemma fold_checkPoint_nearestOf ps :
  forall seen acc,
    nearestOf target seen acc ->
    nearestOf target (seen ++ ps) (fold_left (checkPoint target) ps acc).
Proof.
  induction ps as [|p ps IH]; intros seen acc H; cbn [fold_left].
  - now rewrite app_nil_r.
  - replace (seen ++ p :: ps) with ((seen ++ [p]) ++ ps)
      by (rewrite <- app_assoc; reflexivity).
    apply IH. now apply checkPoint_nearestOf.
Qed.

(** The running minimum over the points [ps], from the state in which the
    loops are entered. *)
Lemma fold_checkPoint_least ps :
  let acc := fold_left (checkPoint target) ps (target, Num.Infinity) in
  ((forall c, In c ps -> getDistanceSquared target c = Num.Infinity) ->
   fst acc = target)
  /\ (forall c0, In c0 ps -> getDistanceSquared target c0 <> Num.Infinity ->
      In (fst acc) ps
      /\ getDistanceSquared target (fst acc) <> Num.Infinity
      /\ forall c, In c ps ->
           Num.lt_ext (getDistanceSquared target c)
                      (getDistanceSquared target (fst acc)) = false).
Proof.
  cbv zeta.
  pose proof (@fold_checkPoint_nearestOf ps [] (target, Num.Infinity)) as Hn.
  cbn [app] in Hn. unfold nearestOf at 1 in Hn. cbn [fst snd] in Hn.
  specialize (Hn (conj eq_refl (fun c (H : In c []) => match H with end))).
  unfold nearestOf in Hn.
  destruct (fold_left _ _ _) as [r [m|]]; cbn [fst snd] in *.
  - destruct Hn as (Hr & Hin & Hmin). split.
    + intro Hall. rewrite (Hall r Hin) in Hr. discriminate Hr.
    + intros _ _ _. split; [exact Hin|]. rewrite Hr.
      split; [discriminate|exact Hmin].
  - destruct Hn as (-> & Hall). split; [reflexivity|].
    intros c0 Hc0 Hfin. exfalso. apply Hfin. now apply Hall.
Qed.

Lemma checkEdges_fold ring acc :
  checkEdges target ring acc
  = fold_left (checkPoint target) (edgeProjections target ring) acc.
Proof.
  unfold checkEdges, edgeProjections.
  generalize (ringEdges ring) acc.
  induction l as [|e l IH]; intro a; cbn [fold_left map]; [reflexivity|].
  apply IH.
Qed.

Lemma holes_fold hs :
  forall acc,
    fold_left (fun acc holePolygon => checkEdges target (points holePolygon) acc)
              hs acc
    = fold_left (checkPoint target)
                (flat_map (fun hole => edgeProjections target (points hole)) hs) acc.
Proof.
  induction hs as [|h hs IH]; intro acc; cbn [fold_left flat_map];
    [reflexivity|].
  rewrite fold_left_app, IH, checkEdges_fold. reflexivity.
Qed.

(** [findClosestPointInPolygon] is one running minimum over [checkedPoints]. *)
Lemma findClosestPointInPolygon_fold polygon :
  findClosestPointInPolygon target polygon
  = fst (fold_left (checkPoint target) (checkedPoints target polygon)
                   (target, Num.Infinity)).
Proof.
  unfold findClosestPointInPolygon, checkedPoints.
  rewrite !fold_left_app, holes_fold, checkEdges_fold. reflexivity.
Qed.

Lemma checkedPoints_onBoundary polygon c :
  In c (checkedPoints target polygon) -> onBoundary polygon c.
Proof.
  unfold checkedPoints, onBoundary, boundaryEdges. intro Hin.
  apply in_app_or in Hin. destruct Hin as [Hin|Hin].
  - destruct (ringEdges_vertex _ _ Hin) as (e & He & <-).
    exists e. split; [apply in_or_app; now left|apply onSegment_start].
  - assert (In c (flat_map (fun ring => edgeProjections target ring)
                           (points polygon :: map points (holes polygon)))) as H.
    { cbn [flat_map]. apply in_or_app. apply in_app_or in Hin.
      destruct Hin as [Hin|Hin]; [now left|right].
      rewrite flat_map_concat_map, map_map, <- flat_map_concat_map.
      exact Hin. }
    apply in_flat_map in H. destruct H as (ring & Hring & Hc).
    unfold edgeProjections in Hc. apply in_map_iff in Hc.
    destruct Hc as (e & <- & He).
    exists e. split; [|apply closestPointOnSegment_onSegment].
    destruct Hring as [<-|Hring]; [apply in_or_app; now left|].
    apply in_map_iff in Hring. destruct Hring as (hole & <- & Hhole).
    apply in_or_app. right. apply in_flat_map. eauto.
Qed.

Lemma edgeProjections_nil ring : edgeProjections target ring = [] -> ring = [].
Proof.
  unfold edgeProjections. intro H. apply map_eq_nil in H.
  rewrite <- (ringEdges_starts ring), H. reflexivity.
Qed.

(** there is a point to check as soon as there is a candidate *)
Lemma checkedPoints_nil polygon :
  checkedPoints target polygon = [] -> boundaryCandidates target polygon = [].
Proof.
  unfold checkedPoints, boundaryCandidates. intro H.
  apply app_eq_nil in H. destruct H as [H1 H].
  apply app_eq_nil in H. destruct H as [_ H].
  rewrite H1, H. cbn [app ringEdges edgeProjections map].
  rewrite app_nil_r.
  induction (holes polygon) as [|h hs IH]; [reflexivity|].
  cbn [flat_map] in *. apply app_eq_nil in H. destruct H as [Hh Hhs].
  rewrite (edgeProjections_nil _ Hh). cbn [app]. now apply IH.
Qed.

Lemma checkedPoints_candidates polygon c :
  In c (checkedPoints target polygon) -> In c (boundaryCandidates target polygon).
Proof.
  unfold checkedPoints, boundaryCandidates. rewrite !in_app_iff. tauto.
Qed.

(** every candidate is a vertex of a ring or the closest point of an edge,
    which is no farther from the target than the vertex the edge starts at *)
Lemma boundaryCandidates_below polygon c :
  In c (boundaryCandidates target polygon) ->
  exists v, In v (ringVertices polygon)
            /\ Point.squaredDistance target c <= Point.squaredDistance target v.
Proof.
  unfold boundaryCandidates, ringVertices. rewrite !in_app_iff.
  assert (Hproj : forall ring,
             In c (edgeProjections target ring) ->
             exists v, In v ring
                       /\ Point.squaredDistance target c
                          <= Point.squaredDistance target v).
  { intros ring Hc. unfold edgeProjections in Hc. apply in_map_iff in Hc.
    destruct Hc as (e & <- & He). exists (fst e). split.
    - rewrite <- (ringEdges_starts ring). now apply in_map.
    - apply closestPointOnSegment_le_start. }
  intros [Hc|[Hc|[Hc|Hc]]].
  - exists c. split; [apply in_or_app; now left|apply Qle_refl].
  - exists c. split; [apply in_or_app; now right|apply Qle_refl].
  - destruct (Hproj _ Hc) as (v & Hv & Hle). exists v.
    split; [apply in_or_app; now left|exact Hle].
  - apply in_flat_map in Hc. destruct Hc as (hole & Hh & Hc).
    destruct (Hproj _ Hc) as (v & Hv & Hle). exists v.
    split; [apply in_or_app; right; apply in_flat_map; eauto|exact Hle].
Qed.

(** Whatever the library's squared distance is, [findClosestPointInPolygon]
    returns the target itself when no checked point is at a finite squared
    distance, and otherwise a checked point at a finite squared distance
    that none of the others is below. *)
Lemma findClosestPointInPolygon_running (polygon : Polygon) :
  let r := findClosestPointInPolygon target polygon in
  ((forall c, In c (checkedPoints target polygon) ->
              getDistanceSquared target c = Num.Infinity) ->
   r = target)
  /\ (forall c0, In c0 (checkedPoints target polygon) ->
                 getDistanceSquared target c0 <> Num.Infinity ->
      In r (checkedPoints target polygon)
      /\ getDistanceSquared target r <> Num.Infinity
      /\ (forall c, In c (checkedPoints target polygon) ->
            Num.lt_ext (getDistanceSquared target c)
                       (getDistanceSquared target r) = false)
      /\ onBoundary polygon r).
Proof.
  cbv zeta. rewrite findClosestPointInPolygon_fold.
  pose proof (fold_checkPoint_least (checkedPoints target polygon)) as H.
  cbv zeta in H. destruct H as [H1 H2].
  split; [exact H1|].
  intros c0 Hc0 Hfin. destruct (H2 c0 Hc0 Hfin) as (Hin & Hr & Hmin).
  repeat split; try assumption. now apply checkedPoints_onBoundary.
Qed.

(** When the library's squared distance is the Euclidean one and the
    coordinates are in range, the point returned is nearest to the target
    among all the candidates, and it lies on the boundary. *)
Lemma findClosestPointInPolygon_nearest (polygon : Polygon) :
  euclideanOn target (boundaryCandidates target polygon) ->
  boundaryCandidates target polygon <> [] ->
  forallb inRange (target :: ringVertices polygon) = true ->
  In (findClosestPointInPolygon target polygon) (boundaryCandidates target polygon)
  /\ (forall c, In c (boundaryCandidates target polygon) ->
                Point.squaredDistance target
                  (findClosestPointInPolygon target polygon)
                <= Point.squaredDistance target c)
  /\ onBoundary polygon (findClosestPointInPolygon target polygon).
Proof.
  intros Heu Hne Hrange. set (r := findClosestPointInPolygon target polygon).
  cbn [forallb] in Hrange. apply andb_true_iff in Hrange.
  destruct Hrange as [Ht Hvs]. rewrite forallb_forall in Hvs.
  assert (Hfinite : forall c, In c (boundaryCandidates target polygon) ->
                              Point.squaredDistance target c < Num.overflow).
  { intros c Hc. destruct (boundaryCandidates_below _ _ Hc) as (v & Hv & Hle).
    apply Qle_lt_trans with (1 := Hle).
    apply squaredDistance_inRange; [exact Ht|now apply Hvs]. }
  assert (Hd : forall c, In c (boundaryCandidates target polygon) ->
                         getDistanceSquared target c
                         = Num.Fin (Point.squaredDistance target c)).
  { intros c Hc. rewrite (Heu c Hc). apply ofExact_Fin. now apply Hfinite. }
  destruct (checkedPoints target polygon) as [|c0 cs] eqn:Echecked.
  { exfalso. apply Hne. now apply checkedPoints_nil. }
  assert (Hc0 : In c0 (checkedPoints target polygon))
    by (rewrite Echecked; now left).
  pose proof (findClosestPointInPolygon_running polygon) as Hrun.
  cbv zeta in Hrun. destruct Hrun as [_ Hrun].
  destruct (Hrun c0 Hc0) as (Hin & _ & Hmin & Hon).
  { rewrite (Hd c0 (checkedPoints_candidates _ _ Hc0)). discriminate. }
  fold r in Hin, Hmin, Hon.
  pose proof (checkedPoints_candidates _ _ Hin) as Hr.
  assert (Hleast : forall c, In c (checkedPoints target polygon) ->
                             Point.squaredDistance target r
                             <= Point.squaredDistance target c).
  { intros c Hc. specialize (Hmin c Hc).
    rewrite (Hd c (checkedPoints_candidates _ _ Hc)), (Hd r Hr) in Hmin.
    cbn [Num.lt_ext] in Hmin. now apply ltb_ge in Hmin. }
  split; [exact Hr|]. split; [|exact Hon].
  intros c Hc. unfold boundaryCandidates in Hc. rewrite !in_app_iff in Hc.
  destruct Hc as [Hc|[Hc|Hc]].
  - apply Hleast. unfold checkedPoints. apply in_or_app. now left.
  - (* a vertex of a hole starts an edge of that hole *)
    apply in_flat_map in Hc. destruct Hc as (hole & Hhole & Hv).
    destruct (ringEdges_vertex _ _ Hv) as (e & He & <-).
    apply Qle_trans
      with (Point.squaredDistance target
              (closestPointOnSegment target (fst e) (snd e))).
    + apply Hleast. unfold checkedPoints. rewrite !in_app_iff. right; right.
      apply in_flat_map. exists hole. split; [assumption|].
      unfold edgeProjections. apply in_map_iff. eauto.
    + apply closestPointOnSegment_le_start.
  - apply Hleast. unfold checkedPoints. rewrite !in_app_iff. tauto.
Qed.

(** When the squared distance of every candidate overflows, no candidate is
    taken and the target itself is returned. *)
Lemma findClosestPointInPolygon_overflow (polygon : Polygon) :
  euclideanOn target (boundaryCandidates target polygon) ->
  (forall c, In c (boundaryCandidates target polygon) ->
             Num.overflow <= Point.squaredDistance target c) ->
  findClosestPointInPolygon target polygon = target.
Proof.
  intros Heu Hall.
  pose proof (findClosestPointInPolygon_running polygon) as Hrun.
  cbv zeta in Hrun. apply (proj1 Hrun).
  intros c Hc. apply checkedPoints_candidates in Hc.
  rewrite (Heu c Hc). apply ofExact_Infinity. now apply Hall.
Qed.


End ClosestBoundary.



(** In closest-boundary mode the goal for (53,35) in the square with a
    hole is the point (50,35) of the outer ring. *)
Example findClosestPointInPolygon_holed :
  findClosestPointInPolygon (Sample.P 53 35) Sample.holed
  = Sample.P (125000 # 2500) (87500 # 2500).
Proof. vm_compute. reflexivity. Qed.

(** ** Nearest points *)



Section BoundaryNearest.

Context {provider : Provider}.


(** X23: whatever the library's squared distance is, the earlier variant
    projects a goal outside the mesh to the centre of a triangle of the
    start polygon whose squared distance to the goal is finite and which
    that of no other centre is below; when no centre is at a finite squared
    distance (with no triangle, or when every squared distance overflows)
    the goal is left where it is. *)
Theorem Early_findClosestPointInPolygon_nearest (target : Point)
  (polygon : Polygon) :
  let r := EarlyProjection.findClosestPointInPolygon target polygon in
  ((forall t, In t (tpolygons polygon) ->
              getDistanceSquared target (getTriangleCenter t) = Num.Infinity) ->
   r = target)
  /\ (forall t0, In t0 (tpolygons polygon) ->
                 getDistanceSquared target (getTriangleCenter t0)
                 <> Num.Infinity ->
      exists t,
        In t (tpolygons polygon)
        /\ r = getTriangleCenter t
        /\ getDistanceSquared target r <> Num.Infinity
        /\ forall u, In u (tpolygons polygon) ->
             Num.lt_ext (getDistanceSquared target (getTriangleCenter u))
                        (getDistanceSquared target r) = false).
Proof.
  cbv zeta.
  assert (E : EarlyProjection.findClosestPointInPolygon target polygon
              = fst (fold_left (checkPoint target)
                       (map getTriangleCenter (tpolygons polygon))
                       (target, Num.Infinity))).
  { unfold EarlyProjection.findClosestPointInPolygon. f_equal.
    generalize (target, Num.Infinity).
    induction (tpolygons polygon) as [|t l IH]; intro acc;
      cbn [fold_left map]; [reflexivity|].
    rewrite <- IH. reflexivity. }
  rewrite E.
  pose proof (fold_checkPoint_least target
                (map getTriangleCenter (tpolygons polygon))) as H.
  cbv zeta in H. destruct H as [H1 H2]. split.
  - intro Hall. apply H1. intros c Hc. apply in_map_iff in Hc.
    destruct Hc as (t & <- & Ht). now apply Hall.
  - intros t0 Ht0 Hfin.
    destruct (H2 (getTriangleCenter t0) (in_map _ _ _ Ht0) Hfin)
      as (Hin & Hr & Hmin).
    apply in_map_iff in Hin. destruct Hin as (t & Et & Ht).
    exists t. split; [exact Ht|]. split; [now symmetry|].
    split; [exact Hr|]. intros u Hu. apply Hmin. now apply in_map.
Qed.

End BoundaryNearest.


(** The earlier variant projects the goal (13,5) to the centre of triangle
    1 of the square, a point off the boundary; the later one to the point
    (10,5) of the boundary. *)
Example Early_findClosestPointInPolygon_square :
  EarlyProjection.findClosestPointInPolygon (Sample.P 13 5) Sample.square
  = Sample.P (20 # 3) (20 # 3)
  /\ findClosestPointInPolygon (Sample.P 13 5) Sample.square
     = Sample.P (1000 # 100) (500 # 100).
Proof. split; vm_compute; reflexivity. Qed.

(** ** Ray-clip mode *)

(** A point of the segment from [p] to [q] is no farther from [p] than [q]. *)
Lemma onSegment_squaredDistance (s p q : Point) :
  onSegment s p q -> Point.squaredDistance p s <= Point.squaredDistance p q.
Proof.
  intros (t & Ht0 & Ht1 & Hx & Hy).
  rewrite (@squaredDistance_at p s _ _ Hx Hy).
  unfold Point.squaredDistance.
  set (dx := Point.x q - Point.x p). set (dy := Point.y q - Point.y p).
  assert (E : (Point.x p - (Point.x p + t * dx)) * (Point.x p - (Point.x p + t * dx))
              + (Point.y p - (Point.y p + t * dy)) * (Point.y p - (Point.y p + t * dy))
              == t * t * (dx * dx + dy * dy)) by ring.
  rewrite E.
  assert (E' : (Point.x p - Point.x q) * (Point.x p - Point.x q)
               + (Point.y p - Point.y q) * (Point.y p - Point.y q)
               == dx * dx + dy * dy) by (unfold dx, dy; ring).
  rewrite E'.
  assert (0 <= dx * dx + dy * dy) by nra.
  assert (t * t <= 1) by nra.
  nra.
Qed.

(** Only segments whose directions are not parallel are intersected. *)
Lemma getSegmentIntersectionPoint_not_parallel (p1 q1 p2 q2 r : Point) :
  getSegmentIntersectionPoint p1 q1 p2 q2 = Some r ->
  1 # 100000000 <= Qabs (directionCross p1 q1 p2 q2).
Proof.
  unfold getSegmentIntersectionPoint, directionCross. cbn [Point.x Point.y].
  destruct (_ <? _)%num eqn:Hpar; [discriminate|].
  intros _. now apply ltb_ge in Hpar.
Qed.

Section RayClip.

Context {provider : Provider}.

Variables p1 q1 : Point.

Lemma ringIntersections_In (ring : list Point) (c : Point) :
  In c (ringIntersections p1 q1 ring)
  <-> exists e, In e (ringEdges ring)
                /\ getSegmentIntersectionPoint p1 q1 (fst e) (snd e) = Some c.
Proof.
  unfold ringIntersections. rewrite in_flat_map. split.
  - intros (e & He & Hc). exists e. split; [exact He|].
    destruct (getSegmentIntersectionPoint p1 q1 (fst e) (snd e)) as [r|];
      [|destruct Hc]. destruct Hc as [<-|[]]. reflexivity.
  - intros (e & He & Hc). exists e. split; [exact He|]. rewrite Hc. now left.
Qed.

Lemma edgeIntersections_In (polygon : Polygon) (c : Point) :
  In c (edgeIntersections p1 q1 polygon)
  <-> exists e, In e (boundaryEdges polygon)
                /\ getSegmentIntersectionPoint p1 q1 (fst e) (snd e) = Some c.
Proof.
  unfold edgeIntersections, boundaryEdges. rewrite in_app_iff, in_flat_map.
  rewrite ringIntersections_In. split.
  - intros [(e & He & Hc)|(hole & Hh & Hc)].
    + exists e. split; [apply in_or_app; now left|exact Hc].
    + apply ringIntersections_In in Hc. destruct Hc as (e & He & Hc).
      exists e. split; [|exact Hc]. apply in_or_app. right.
      apply in_flat_map. eauto.
  - intros (e & He & Hc). apply in_app_or in He. destruct He as [He|He].
    + left. eauto.
    + right. apply in_flat_map in He. destruct He as (hole & Hh & He).
      exists hole. split; [exact Hh|]. apply ringIntersections_In. eauto.
Qed.

(** The points the segment is intersected in are the points in which it
    crosses an edge of the boundary. *)
Lemma edgeIntersections_crosses (polygon : Polygon) (c : Point) :
  In c (edgeIntersections p1 q1 polygon) ->
  exists e, In e (boundaryEdges polygon) /\ crosses p1 q1 e c.
Proof.
  intro Hc. apply edgeIntersections_In in Hc. destruct Hc as (e & He & Hc).
  exists e. split; [exact He|]. unfold crosses.
  split; [now apply getSegmentIntersectionPoint_not_parallel in Hc|].
  now apply getSegmentIntersectionPoint_sound in Hc.
Qed.

Lemma crosses_edgeIntersections (polygon : Polygon) (e : Point * Point)
  (s : Point) :
  In e (boundaryEdges polygon) -> crosses p1 q1 e s ->
  exists c, In c (edgeIntersections p1 q1 polygon)
            /\ Point.x c == Point.x s /\ Point.y c == Point.y s.
Proof.
  intros He (Hcross & Hs1 & Hs2).
  destruct (getSegmentIntersectionPoint_crossing p1 q1 (fst e) (snd e))
    as [_ Hhit].
  destruct (Hhit Hcross s Hs1 Hs2) as (r & Hr & Hx & Hy).
  exists r. split; [apply edgeIntersections_In; eauto|]. split; assumption.
Qed.

Lemma edgeIntersections_onBoundary (polygon : Polygon) (c : Point) :
  In c (edgeIntersections p1 q1 polygon) ->
  onSegment c p1 q1 /\ onBoundary polygon c.
Proof.
  intro Hc. destruct (edgeIntersections_crosses _ _ Hc) as (e & He & _ & H1 & H2).
  split; [exact H1|]. exists e. split; assumption.
Qed.

(** one more intersection for the running minimum *)
Lemma nearestHit_step seen acc hit :
  nearestHit p1 seen acc ->
  nearestHit p1 (seen ++ [hit])
    (if Num.lt_ext (getDistanceSquared p1 hit) (snd acc)
     then (Some hit, getDistanceSquared p1 hit) else acc).
Proof.
  destruct acc as [[r|] [m|]]; cbn [nearestHit snd]; try contradiction.
  - intros (Hr & Hin & Hmin).
    destruct (Num.lt_ext _ _) eqn:C.
    + destruct (getDistanceSquared p1 hit) as [a|] eqn:Hd; [|discriminate C].
      cbn [Num.lt_ext] in C. apply ltb_lt in C. cbn [nearestHit].
      split; [first [exact Hd|reflexivity]|].
      split; [apply in_or_app; right; now left|].
      intros c Hc. apply in_app_or in Hc. destruct Hc as [Hc|[<-|[]]].
      * apply lt_ext_lower with (1 := C). now apply Hmin.
      * rewrite ?Hd. apply lt_ext_irrefl.
    + cbn [nearestHit]. split; [exact Hr|].
      split; [apply in_or_app; now left|].
      intros c Hc. apply in_app_or in Hc. destruct Hc as [Hc|[<-|[]]].
      * now apply Hmin.
      * exact C.
  - intros Hall.
    destruct (getDistanceSquared p1 hit) as [a|] eqn:Hd;
      cbn [Num.lt_ext nearestHit].
    + split; [first [exact Hd|reflexivity]|].
      split; [apply in_or_app; right; now left|].
      intros c Hc. apply in_app_or in Hc. destruct Hc as [Hc|[<-|[]]].
      * rewrite (Hall c Hc). reflexivity.
      * rewrite ?Hd. apply lt_ext_irrefl.
    + intros c Hc. apply in_app_or in Hc. destruct Hc as [Hc|[<-|[]]].
      * now apply Hall.
      * first [exact Hd|reflexivity].
Qed.

Lemma findOnEdges_nearestHit ring :
  forall seen acc,
    nearestHit p1 seen acc ->
    nearestHit p1 (seen ++ ringIntersections p1 q1 ring) (findOnEdges p1 q1 ring acc).
Proof.
  unfold findOnEdges, ringIntersections.
  induction (ringEdges ring) as [|e l IH]; intros seen acc H;
    cbn [fold_left flat_map].
  - now rewrite app_nil_r.
  - destruct (getSegmentIntersectionPoint p1 q1 (fst e) (snd e))
      as [hit|]; [|cbn [app]; now apply IH].
    replace (seen ++ [hit] ++ flat_map _ l)
      with ((seen ++ [hit]) ++
            flat_map (fun e => match getSegmentIntersectionPoint p1 q1 (fst e) (snd e) with
                               | Some intersection => [intersection]
                               | None => []
                               end) l)
      by (rewrite <- app_assoc; reflexivity).
    apply IH. cbv zeta. now apply nearestHit_step.
Qed.

Lemma findOnHoles_nearestHit hs :
  forall seen acc,
    nearestHit p1 seen acc ->
    nearestHit p1 (seen ++ flat_map (fun hole => ringIntersections p1 q1 (points hole)) hs)
               (fold_left (fun acc hole => findOnEdges p1 q1 (points hole) acc)
                          hs acc).
Proof.
  induction hs as [|h hs IH]; intros seen acc H; cbn [fold_left flat_map].
  - now rewrite app_nil_r.
  - rewrite app_assoc. apply IH. now apply findOnEdges_nearestHit.
Qed.

(** Whatever the library's squared distance is,
    [findIntersectionWithPolygon] returns nothing when no intersection is
    at a finite squared distance from [p1], and otherwise an intersection
    at a finite squared distance that none of the others is below. *)
Lemma findIntersectionWithPolygon_running (polygon : Polygon) :
  match findIntersectionWithPolygon p1 q1 polygon with
  | None =>
      forall c, In c (edgeIntersections p1 q1 polygon) ->
                getDistanceSquared p1 c = Num.Infinity
  | Some r =>
      In r (edgeIntersections p1 q1 polygon)
      /\ getDistanceSquared p1 r <> Num.Infinity
      /\ forall c, In c (edgeIntersections p1 q1 polygon) ->
                   Num.lt_ext (getDistanceSquared p1 c)
                              (getDistanceSquared p1 r) = false
  end.
Proof.
  unfold findIntersectionWithPolygon, edgeIntersections.
  assert (H0 : nearestHit p1 [] (None, Num.Infinity)) by (intros c []).
  pose proof (@findOnHoles_nearestHit (holes polygon)
                ([] ++ ringIntersections p1 q1 (points polygon))
                (findOnEdges p1 q1 (points polygon) (None, Num.Infinity))
                (@findOnEdges_nearestHit (points polygon) []
                   (None, Num.Infinity) H0)) as H.
  cbn [app] in H.
  destruct (fold_left _ _ _) as [[r|] [m|]]; cbn [nearestHit fst] in *;
    try contradiction.
  - destruct H as (Hr & Hin & Hmin). split; [exact Hin|]. rewrite Hr.
    split; [discriminate|exact Hmin].
  - exact H.
Qed.


End RayClip.

(** In the square with a square hole, the segment from (10,10) to (53,35)
    meets the lower edge of the hole at (18.6, 15) before it meets the outer
    ring at x = 50: the ray-clip goal is the point on the hole. *)
Example projectGoal_ray_clip_holed :
  projectGoal (Sample.P 10 10) (Sample.P 53 35) Sample.holed true
  = Sample.P (9300 # 500) (7500 # 500)
  /\ In (Sample.P (9300 # 500) (7500 # 500))
        (ringIntersections (Sample.P 10 10) (Sample.P 53 35)
           [Sample.P 15 15; Sample.P 35 15; Sample.P 35 35; Sample.P 15 35]).
Proof.
  split; [vm_compute; reflexivity|]. left. vm_compute. reflexivity.
Qed.



(** ** The projected goal lies on the boundary *)

Section GoalOnBoundary.

Context {provider : Provider}.


End GoalOnBoundary.


(** ** The straight path *)

Section StraightPath.

Context {provider : Provider}.


End StraightPath.


(** ** The two variants of the funnel

    The earlier variant differs from the later one in the sign of
    [triArea2] and in the tolerance of [pointsEqual].  A reflection undoes
    the first difference and a change of unit the second: the earlier
    funnel is the later funnel run on the mirrored points. *)

Lemma bool_eq_iff (b1 b2 : bool) : (b1 = true <-> b2 = true) -> b1 = b2.
Proof. destruct b1, b2; intros [H1 H2]; auto; symmetry; auto. Qed.

Lemma triArea2_mirror (a b c : Point) :
  triArea2 (mirror a) (mirror b) (mirror c) == 100 * Early.triArea2 a b c.
Proof. unfold triArea2, Early.triArea2, mirror. cbn [Point.x Point.y]. ring. Qed.

Lemma triArea2_mirror_leb (a b c : Point) :
  (triArea2 (mirror a) (mirror b) (mirror c) <=? 0)%num
  = (Early.triArea2 a b c <=? 0)%num.
Proof.
  apply bool_eq_iff. rewrite !leb_le, triArea2_mirror. split; intro; lra.
Qed.

Lemma triArea2_mirror_geb (a b c : Point) :
  (triArea2 (mirror a) (mirror b) (mirror c) >=? 0)%num
  = (Early.triArea2 a b c >=? 0)%num.
Proof.
  apply bool_eq_iff. rewrite !geb_ge, triArea2_mirror. split; intro; lra.
Qed.

Lemma triArea2_mirror_gtb (a b c : Point) :
  (triArea2 (mirror a) (mirror b) (mirror c) >? 0)%num
  = (Early.triArea2 a b c >? 0)%num.
Proof.
  apply bool_eq_iff. rewrite !gtb_gt, triArea2_mirror. split; intro; lra.
Qed.

Lemma triArea2_mirror_ltb (a b c : Point) :
  (triArea2 (mirror a) (mirror b) (mirror c) <? 0)%num
  = (Early.triArea2 a b c <? 0)%num.
Proof.
  apply bool_eq_iff. rewrite !ltb_lt, triArea2_mirror. split; intro; lra.
Qed.

Lemma pointsEqual_mirror (p q : Point) :
  pointsEqual (mirror p) (mirror q) = Early.pointsEqual p q.
Proof.
  unfold pointsEqual, Early.pointsEqual, mirror, epsilon, Early.epsilon.
  cbn [Point.x Point.y].
  f_equal; apply bool_eq_iff; rewrite !ltb_lt, !Qabs_Qlt_condition;
    split; intro; lra.
Qed.

Lemma last_map_mirror (l : list Point) (d : Point) :
  List.last (map mirror l) (mirror d) = mirror (List.last l d).
Proof.
  induction l as [|p [|q l] IH]; [reflexivity..|].
  change (List.last (map mirror (q :: l)) (mirror d)
          = mirror (List.last (q :: l) d)). exact IH.
Qed.

Lemma funnelBody_mirror (i : Z) (portal : Portal) (st : FunnelState) :
  funnelBody i (mirrorPortal portal) (mirrorState st)
  = (fst (EarlyFunnel.funnelBody i portal st),
     mirrorState (snd (EarlyFunnel.funnelBody i portal st))).
Proof.
  unfold funnelBody, EarlyFunnel.funnelBody, mirrorPortal, mirrorState.
  cbn [pleft pright path apex apexIndex left leftIndex right rightIndex].
  rewrite triArea2_mirror_leb, triArea2_mirror_gtb, pointsEqual_mirror.
  destruct (Early.triArea2 (apex st) (right st) (pright portal) <=? 0)%num.
  - destruct (Early.pointsEqual (apex st) (right st)
              || (Early.triArea2 (apex st) (left st) (pright portal) >? 0)%num).
    + cbn [path apex apexIndex left leftIndex right rightIndex].
      rewrite triArea2_mirror_geb, triArea2_mirror_ltb, pointsEqual_mirror.
      destruct (Early.triArea2 (apex st) (left st) (pleft portal) >=? 0)%num;
        [|reflexivity].
      destruct (Early.pointsEqual (apex st) (left st)
                || (Early.triArea2 (apex st) (pright portal) (pleft portal) <? 0)%num);
        [reflexivity|].
      unfold restartAt.
      cbn [fst snd path apex apexIndex left leftIndex right rightIndex].
      rewrite map_app. reflexivity.
    + unfold restartAt.
      cbn [fst snd path apex apexIndex left leftIndex right rightIndex].
      rewrite map_app. reflexivity.
  - cbn [path apex apexIndex left leftIndex right rightIndex].
    rewrite triArea2_mirror_geb, triArea2_mirror_ltb, pointsEqual_mirror.
    destruct (Early.triArea2 (apex st) (left st) (pleft portal) >=? 0)%num;
      [|reflexivity].
    destruct (Early.pointsEqual (apex st) (left st)
              || (Early.triArea2 (apex st) (right st) (pleft portal) <? 0)%num);
      [reflexivity|].
    unfold restartAt.
    cbn [fst snd path apex apexIndex left leftIndex right rightIndex].
    rewrite map_app. reflexivity.
Qed.

Lemma funnelLoop_mirror (portals : list Portal) :
  forall fuel i st,
    funnelLoop fuel (map mirrorPortal portals) i (mirrorState st)
    = option_map mirrorState (EarlyFunnel.funnelLoop fuel portals i st).
Proof.
  induction fuel as [|fuel IH]; intros i st; [reflexivity|].
  cbn [funnelLoop EarlyFunnel.funnelLoop]. rewrite length_map.
  destruct (i <? Z.of_nat (length portals))%Z; [|reflexivity].
  destruct (i <? 0)%Z; [reflexivity|].
  rewrite nth_error_map.
  destruct (nth_error portals (Z.to_nat i)) as [portal|]; [|reflexivity].
  cbn [option_map]. rewrite funnelBody_mirror.
  destruct (EarlyFunnel.funnelBody i portal st) as [i' st1]. cbn [fst snd].
  apply IH.
Qed.

Lemma funnelOn_mirror (fuel : nat) (start end_ : Point) (portals0 : list Portal) :
  funnelOn fuel (mirror start) (mirror end_) (map mirrorPortal portals0)
  = option_map (map mirror) (EarlyFunnel.funnelOn fuel start end_ portals0).
Proof.
  unfold funnelOn, EarlyFunnel.funnelOn.
  change ({| pleft := mirror end_; pright := mirror end_ |})
    with (mirrorPortal {| pleft := end_; pright := end_ |}).
  change [mirrorPortal {| pleft := end_; pright := end_ |}]
    with (map mirrorPortal [{| pleft := end_; pright := end_ |}]).
  rewrite <- map_app.
  change {| path := [mirror start]; apex := mirror start; apexIndex := -1;
            left := mirror start; leftIndex := -1;
            right := mirror start; rightIndex := -1 |}
    with (mirrorState {| path := [start]; apex := start; apexIndex := -1;
                         left := start; leftIndex := -1;
                         right := start; rightIndex := -1 |}).
  rewrite funnelLoop_mirror.
  destruct (EarlyFunnel.funnelLoop _ _ _ _) as [st'|]; [|reflexivity].
  cbn [option_map mirrorState path].
  rewrite last_map_mirror, pointsEqual_mirror.
  destruct (Early.pointsEqual (List.last (path st') start) end_);
    cbn [negb option_map]; [reflexivity|].
  rewrite map_app. reflexivity.
Qed.

Section FunnelMirror.

Context {provider : Provider}.

Lemma sharedPoints_mirror (triangle1 triangle2 : TPolygon) :
  @sharedPoints (mirrored provider) triangle1 triangle2
  = map mirror (EarlyFunnel.sharedPoints triangle1 triangle2).
Proof.
  unfold sharedPoints, EarlyFunnel.sharedPoints.
  cbn [mainTriangle mirrored].
  destruct (mainTriangle triangle1) as [[a1 b1] c1].
  destruct (mainTriangle triangle2) as [[a2 b2] c2].
  cbn [filter existsb]. rewrite !pointsEqual_mirror.
  repeat match goal with
         | |- context [if ?c then _ else _] => destruct c
         end; reflexivity.
Qed.

Lemma getSharedEdge_mirror (triangle1 triangle2 : TPolygon) :
  @getSharedEdge (mirrored provider) triangle1 triangle2
  = option_map mirrorPortal (EarlyFunnel.getSharedEdge triangle1 triangle2).
Proof.
  unfold getSharedEdge, EarlyFunnel.getSharedEdge.
  rewrite sharedPoints_mirror.
  destruct (EarlyFunnel.sharedPoints triangle1 triangle2)
    as [|s0 [|s1 [|s2 l]]]; cbn [map]; try reflexivity.
  unfold getTriangleCenter. cbn [centerPoint mirrored].
  rewrite triArea2_mirror_gtb.
  destruct (_ >? _)%num; reflexivity.
Qed.

Lemma getPortalEdges_mirror (trianglePath : list TPolygon) :
  @getPortalEdges (mirrored provider) trianglePath
  = map mirrorPortal (EarlyFunnel.getPortalEdges trianglePath).
Proof.
  induction trianglePath as [|t1 [|t2 rest] IH]; [reflexivity..|].
  change (@getPortalEdges (mirrored provider) (t1 :: t2 :: rest))
    with (match @getSharedEdge (mirrored provider) t1 t2 with
          | Some sharedEdge =>
              sharedEdge :: @getPortalEdges (mirrored provider) (t2 :: rest)
          | None => @getPortalEdges (mirrored provider) (t2 :: rest)
          end).
  change (EarlyFunnel.getPortalEdges (t1 :: t2 :: rest))
    with (match EarlyFunnel.getSharedEdge t1 t2 with
          | Some sharedEdge => sharedEdge :: EarlyFunnel.getPortalEdges (t2 :: rest)
          | None => EarlyFunnel.getPortalEdges (t2 :: rest)
          end).
  rewrite getSharedEdge_mirror, IH.
  destruct (EarlyFunnel.getSharedEdge t1 t2); reflexivity.
Qed.

Lemma funnel_mirror (start end_ : Point) (trianglePath : list TPolygon) :
  @funnel (mirrored provider) (mirror start) (mirror end_) trianglePath
  = option_map (map mirror) (EarlyFunnel.funnel start end_ trianglePath).
Proof.
  unfold funnel, EarlyFunnel.funnel.
  rewrite getPortalEdges_mirror, length_map. apply funnelOn_mirror.
Qed.

Lemma mirror_injective (p q : Point) : mirror p = mirror q -> p = q.
Proof.
  destruct p as [[xn xd] [yn yd]], q as [[xn' xd'] [yn' yd']].
  unfold mirror. cbn [Point.x Point.y]. intro H.
  pose proof (f_equal Point.x H) as Hx. pose proof (f_equal Point.y H) as Hy.
  cbn [Point.x Point.y] in Hx, Hy.
  assert (Hxn : (10 * xn = 10 * xn')%Z) by exact (f_equal Qnum Hx).
  assert (Hxd : xd = xd') by exact (f_equal Qden Hx).
  assert (Hyn : (- (10 * yn) = - (10 * yn'))%Z) by exact (f_equal Qnum Hy).
  assert (Hyd : yd = yd') by exact (f_equal Qden Hy).
  assert (xn = xn') by lia. assert (yn = yn') by lia.
  now subst.
Qed.

Lemma EarlyFunnel_shape (start end_ : Point) (trianglePath : list TPolygon)
  (result : list Point) :
  EarlyFunnel.funnel start end_ trianglePath = Some result ->
  exists tl,
    result = start :: tl
    /\ Early.pointsEqual (List.last result start) end_ = true
    /\ (tl = [] -> Early.pointsEqual start end_ = true).
Proof.
  intro Hrun. pose proof (funnel_mirror start end_ trianglePath) as E.
  rewrite Hrun in E. cbn [option_map] in E. unfold funnel in E.
  destruct (funnelOn_shape _ _ _ _ E) as (tl' & Htl & Hlast & Hone).
  destruct result as [|r0 rest]; [discriminate Htl|].
  assert (H0 : mirror r0 = mirror start)
    by exact (f_equal (fun l => List.hd (mirror start) l) Htl).
  apply mirror_injective in H0. subst r0.
  exists rest. split; [reflexivity|].
  rewrite last_map_mirror, pointsEqual_mirror in Hlast.
  split; [exact Hlast|]. intros ->. rewrite <- pointsEqual_mirror.
  apply Hone. cbn [map] in Htl. now injection Htl as <-.
Qed.

(** X28: in the earlier variant too, the path that [funnel] returns
    starts with the start, each of its points is the start, the end or an
    end of a portal extracted from the corridor, and it has at most one
    point per portal besides the start and the end. *)
Theorem EarlyFunnel_waypoints (start end_ : Point) (trianglePath : list TPolygon)
  (result : list Point) :
  EarlyFunnel.funnel start end_ trianglePath = Some result ->
  (exists tl, result = start :: tl)
  /\ (forall q, In q result ->
        q = start \/ q = end_
        \/ exists portal, In portal (EarlyFunnel.getPortalEdges trianglePath)
                          /\ (q = pleft portal \/ q = pright portal))
  /\ (length result <= length (EarlyFunnel.getPortalEdges trianglePath) + 2)%nat.
Proof.
  intro Hrun. pose proof (funnel_mirror start end_ trianglePath) as E.
  rewrite Hrun in E. cbn [option_map] in E. unfold funnel in E.
  split; [|split].
  - destruct (funnelOn_shape _ _ _ _ E) as (tl & Htl & _).
    destruct result as [|r0 rest]; [discriminate Htl|].
    assert (H0 : mirror r0 = mirror start)
      by exact (f_equal (fun l => List.hd (mirror start) l) Htl).
    apply mirror_injective in H0. subst r0. eauto.
  - intros q Hq. pose proof (funnelOn_givenPoints _ _ _ _ E) as Hall.
    rewrite Forall_forall in Hall.
    destruct (Hall (mirror q) (in_map mirror _ _ Hq))
      as [H|[H|(portal' & Hin & H)]].
    + left. now apply mirror_injective.
    + right; left. now apply mirror_injective.
    + right; right. rewrite getPortalEdges_mirror in Hin.
      apply in_map_iff in Hin. destruct Hin as (portal & <- & Hin).
      exists portal. split; [exact Hin|].
      destruct H as [H|H]; [left|right]; now apply mirror_injective.
  - destruct (funnelOn_in_portal_order _ _ _ _ E) as (_ & _ & _ & Hlen).
    rewrite getPortalEdges_mirror, !length_map in Hlen. exact Hlen.
Qed.

End FunnelMirror.

(** the earlier funnel on the L-shaped corridor of the sample *)
Lemma EarlyFunnel_waypoints_witness :
  (exists tl,
      [Sample.P 18 5; Sample.P 10 10; Sample.P 5 18] = Sample.P 18 5 :: tl)
  /\ (forall q, In q [Sample.P 18 5; Sample.P 10 10; Sample.P 5 18] ->
        q = Sample.P 18 5 \/ q = Sample.P 5 18
        \/ exists portal,
            In portal (@EarlyFunnel.getPortalEdges Sample.provider
                         [4%nat; 5%nat; 6%nat; 7%nat; 8%nat; 9%nat])
            /\ (q = pleft portal \/ q = pright portal))
  /\ (length [Sample.P 18 5; Sample.P 10 10; Sample.P 5 18]
      <= length (@EarlyFunnel.getPortalEdges Sample.provider
                   [4%nat; 5%nat; 6%nat; 7%nat; 8%nat; 9%nat]) + 2)%nat.
Proof.
  apply (@EarlyFunnel_waypoints Sample.provider (Sample.P 18 5) (Sample.P 5 18)
           [4%nat; 5%nat; 6%nat; 7%nat; 8%nat; 9%nat]).
  vm_compute. reflexivity.
Defined.

(** ** The query of the earlier variant *)

Section EarlyQueryFacts.

Context {provider : Provider}.

Variable nm : NavMesh2d.

Lemma Early_findPath_located fuel a b startTriangle goal goalTriangle :
  EarlyQuery.findTriangleContainingPoint nm a = Some startTriangle ->
  EarlyQuery.resolveTarget nm b startTriangle = Some (goal, goalTriangle) ->
  EarlyQuery.findPath fuel nm a b =
  if same startTriangle goalTriangle then Some [a; goal]
  else
    match findTrianglePath fuel startTriangle goalTriangle with
    | None => None
    | Some [] => Some []
    | Some trianglePath =>
        EarlyFunnel.funnel a goal (startTriangle :: trianglePath)
    end.
Proof.
  intros Hloc Hres. unfold EarlyQuery.findPath. rewrite Hloc, Hres.
  destruct (same startTriangle goalTriangle) eqn:Hsame; [reflexivity|].
  destruct (findTrianglePath fuel startTriangle goalTriangle)
    as [[|t trianglePath]|] eqn:Hrun; try reflexivity.
  apply same_false in Hsame.
  rewrite (isNeighbor_unreachable
             (@findTrianglePath_complete_aux _ _ _ _ Hsame Hrun)).
  reflexivity.
Qed.

(** X29: in the earlier variant a non-empty result of [findPath]
    starts with [a] itself and ends within the tolerance 1e-10 of the
    effective goal ([b] when [b] is in a triangle, otherwise the centre of
    the nearest triangle of the start polygon); it is [[a]] alone only if
    [a] is that close to the goal. *)
Theorem Early_findPath_ends (fuel : nat) (a b : Point) (result : list Point) :
  EarlyQuery.findPath fuel nm a b = Some result ->
  result <> [] ->
  exists startTriangle goal goalTriangle tl,
    EarlyQuery.findTriangleContainingPoint nm a = Some startTriangle
    /\ EarlyQuery.resolveTarget nm b startTriangle = Some (goal, goalTriangle)
    /\ result = a :: tl
    /\ Early.pointsEqual (List.last result a) goal = true
    /\ (tl = [] -> Early.pointsEqual a goal = true).
Proof.
  intros Hrun Hne.
  destruct (EarlyQuery.findTriangleContainingPoint nm a)
    as [startTriangle|] eqn:Hloc.
  2:{ unfold EarlyQuery.findPath in Hrun. rewrite Hloc in Hrun.
      injection Hrun as <-. contradiction. }
  destruct (EarlyQuery.resolveTarget nm b startTriangle)
    as [[goal goalTriangle]|] eqn:Hres.
  2:{ unfold EarlyQuery.findPath in Hrun. rewrite Hloc, Hres in Hrun.
      injection Hrun as <-. contradiction. }
  rewrite (@Early_findPath_located fuel a b _ _ _ Hloc Hres) in Hrun.
  exists startTriangle, goal, goalTriangle.
  assert (Hrefl : Early.pointsEqual goal goal = true).
  { rewrite <- pointsEqual_mirror. apply pointsEqual_refl. }
  destruct (same startTriangle goalTriangle).
  { injection Hrun as <-. exists [goal]. repeat split; auto. discriminate. }
  destruct (findTrianglePath fuel startTriangle goalTriangle)
    as [[|t trianglePath]|]; [|  |discriminate Hrun].
  - injection Hrun as <-. contradiction.
  - destruct (EarlyFunnel_shape _ _ _ Hrun) as (tl & ? & ? & ?).
    exists tl. auto.
Qed.

End EarlyQueryFacts.

Lemma Early_findPath_ends_witness :
  exists startTriangle goal goalTriangle tl,
    EarlyQuery.findTriangleContainingPoint Sample.ellMesh (Sample.P 18 5)
    = Some startTriangle
    /\ EarlyQuery.resolveTarget Sample.ellMesh (Sample.P 5 18) startTriangle
       = Some (goal, goalTriangle)
    /\ [Sample.P 18 5; Sample.P 10 10; Sample.P 5 18] = Sample.P 18 5 :: tl
    /\ Early.pointsEqual
         (List.last [Sample.P 18 5; Sample.P 10 10; Sample.P 5 18]
                    (Sample.P 18 5)) goal = true
    /\ (tl = [] -> Early.pointsEqual (Sample.P 18 5) goal = true).
Proof.
  apply (@Early_findPath_ends Sample.provider Sample.ellMesh 7
           (Sample.P 18 5) (Sample.P 5 18)).
  - vm_compute. reflexivity.
  - discriminate.
Defined.

(** ** Doubles: point equality and the funnel loop *)

Section DoubleProperties.

Import PrimFloat SpecFloat FloatOps FloatAxioms DoubleVocabulary.

#[local] Open Scope float_scope.

Lemma Prim2SF_zero : Prim2SF 0 = S754_zero false.
Proof. reflexivity. Qed.

Lemma Prim2SF_infinity : Prim2SF infinity = S754_infinity false.
Proof. reflexivity. Qed.

Lemma Prim2SF_epsilon :
  Prim2SF Double.epsilon = S754_finite false 4835703278458517 (-82).
Proof. reflexivity. Qed.

Lemma is_finite_regular (f : float) : is_finite f = true -> regular (Prim2SF f).
Proof.
  unfold is_finite, is_nan, is_infinity.
  rewrite !eqb_spec, abs_spec, Prim2SF_infinity.
  destruct (Prim2SF f) as [s|s| |s m e]; cbn; try discriminate; auto.
  rewrite orb_true_r. discriminate.
Qed.

Lemma IntDef_sub_diag (e : Z) : IntDef.Z.sub e e = 0%Z.
Proof. exact (Z.sub_diag e). Qed.

Lemma SFsub_self (s : spec_float) :
  regular s -> SF64sub s s = S754_zero false.
Proof.
  destruct s as [s|s| |s m e]; intro H; try contradiction H.
  - destruct s; reflexivity.
  - unfold SF64sub, SFsub, shl_align.
    rewrite !IntDef_sub_diag. reflexivity.
Qed.

(** the difference of a double with itself is finite only if the double is *)
Lemma sub_self_regular (f : float) :
  is_finite (f - f) = true -> regular (Prim2SF f).
Proof.
  intro H. apply is_finite_regular in H. rewrite sub_spec in H.
  destruct (Prim2SF f) as [s|s| |s m e]; cbn; auto.
  destruct s; exact H.
Qed.

Lemma sub_self (f : float) :
  is_finite (f - f) = true -> Prim2SF (f - f) = S754_zero false.
Proof.
  intro H. rewrite sub_spec. apply SFsub_self. now apply sub_self_regular.
Qed.

Lemma SFmul_zero_r (u z : spec_float) :
  regular u -> isZero z -> isZero (SF64mul u z).
Proof.
  destruct u as [s|s| |s m e]; cbn; try contradiction;
    destruct z as [t|t| |t m' e']; cbn; try contradiction; auto.
Qed.

Lemma SFmul_zero_l (z v : spec_float) :
  isZero z -> regular v -> isZero (SF64mul z v).
Proof.
  destruct z as [t|t| |t m' e']; cbn; try contradiction;
    destruct v as [s|s| |s m e]; cbn; try contradiction; auto.
Qed.

Lemma SFsub_zeros (z1 z2 : spec_float) :
  isZero z1 -> isZero z2 -> isZero (SF64sub z1 z2).
Proof.
  destruct z1 as [s| | |]; cbn; try contradiction;
    destruct z2 as [t| | |]; cbn; try contradiction.
  destruct s, t; cbn; auto.
Qed.

Lemma isZero_leb (f : float) :
  isZero (Prim2SF f) -> (f <=? 0) = true /\ (0 <=? f) = true.
Proof.
  intro H. rewrite !leb_spec, Prim2SF_zero.
  destruct (Prim2SF f); cbn in *; try contradiction. split; reflexivity.
Qed.

(** [triArea2 a a c] is a zero when no difference overflows: the loop then
    takes the branches it takes on exact numbers *)
Lemma triArea2_apex_twice_zero (a c : Double.Point) :
  finiteDifference a a = true -> finiteDifference a c = true ->
  isZero (Prim2SF (Double.triArea2 a a c)).
Proof.
  unfold finiteDifference. rewrite !andb_true_iff.
  intros [Hax Hay] [Hcx Hcy]. unfold Double.triArea2.
  rewrite sub_spec, !mul_spec.
  rewrite (sub_self _ Hay), (sub_self _ Hax).
  apply SFsub_zeros.
  - apply SFmul_zero_r; [now apply is_finite_regular|exact I].
  - apply SFmul_zero_l; [exact I|now apply is_finite_regular].
Qed.

Lemma pointsEqual_refl_finite (a : Double.Point) :
  finiteDifference a a = true -> Double.pointsEqual a a = true.
Proof.
  unfold finiteDifference, Double.pointsEqual. rewrite !andb_true_iff.
  intros [Hx Hy].
  rewrite !ltb_spec, !abs_spec, (sub_self _ Hx), (sub_self _ Hy),
    Prim2SF_epsilon.
  split; reflexivity.
Qed.

End DoubleProperties.

(** *** Point equality on doubles *)

Section DoublePointsEqual.

Import PrimFloat DoubleVocabulary.

#[local] Open Scope float_scope.

(** C8, as the code has it: [pointsEqual p q] holds exactly when the two
    differences of coordinates, each rounded to a double, are below the
    double nearest to one billionth in magnitude; that double is
    4835703278458517 / 2^82, just above one billionth.  The earlier variant
    does the same with the double nearest to 10^-10. *)
Theorem Double_pointsEqual_iff (p q : Double.Point) :
  (Double.pointsEqual p q = true
   <-> (abs (Double.x p - Double.x q) <? 1e-9) = true
       /\ (abs (Double.y p - Double.y q) <? 1e-9) = true)
  /\ (Double.Early_pointsEqual p q = true
      <-> (abs (Double.x p - Double.x q) <? 1e-10) = true
          /\ (abs (Double.y p - Double.y q) <? 1e-10) = true)
  /\ (exact Double.epsilon == 4835703278458517 # (2 ^ 82))%Q
  /\ (1 # 1000000000 < exact Double.epsilon)%Q.
Proof.
  split; [apply andb_true_iff|]. split; [apply andb_true_iff|].
  split; vm_compute; reflexivity.
Qed.

(** C8, at two points on the x axis, at the doubles nearest to 10^-9 and to
    8 * 10^-26: the two abscissas differ by less than one billionth and the
    ordinates are equal, but the difference is rounded to the double
    nearest to 10^-9, which is not below itself, and [pointsEqual] answers
    no. *)
Lemma Double_pointsEqual_counterexample :
  let p := Double.new 1e-9 0 in
  let q := Double.new 8e-26 0 in
  (Qabs (exact (Double.x p) - exact (Double.x q))
   < 1 # 1000000000)%Q
  /\ (Qabs (exact (Double.y p) - exact (Double.y q))
      < 1 # 1000000000)%Q
  /\ Double.pointsEqual p q = false.
Proof.
  cbv zeta. split; [vm_compute; reflexivity|].
  split; vm_compute; reflexivity.
Qed.

End DoublePointsEqual.

(** *** The funnel loop on doubles *)

Section DoubleFunnel.

Import PrimFloat SpecFloat FloatOps FloatAxioms DoubleVocabulary.

#[local] Open Scope float_scope.

Variable pts : list Double.Point.

Hypothesis pts_tame : tame pts = true.

Variable portals : list Double.Portal.

Hypothesis portals_in :
  forall portal, In portal portals ->
                 In (Double.pleft portal) pts /\ In (Double.pright portal) pts.

Lemma tame_pair (a c : Double.Point) :
  In a pts -> In c pts -> finiteDifference a c = true.
Proof.
  intros Ha Hc. unfold tame in pts_tame.
  rewrite forallb_forall in pts_tame. specialize (pts_tame a Ha).
  rewrite forallb_forall in pts_tame. now apply pts_tame.
Qed.

(** Right after a restart the body sets both sides at the portal. *)
Lemma Double_funnelBody_after_restart i portal st :
  In portal portals -> In (Double.apex st) pts ->
  Double.left st = Double.apex st -> Double.right st = Double.apex st ->
  Double.funnelBody i portal st =
  (i, {| Double.path := Double.path st; Double.apex := Double.apex st;
         Double.apexIndex := Double.apexIndex st;
         Double.left := Double.pleft portal; Double.leftIndex := i;
         Double.right := Double.pright portal; Double.rightIndex := i |}).
Proof.
  intros Hportal Hapex HL HR. destruct (portals_in portal Hportal) as [Hl Hr].
  unfold Double.funnelBody. rewrite HR, HL.
  pose proof (@tame_pair _ _ Hapex Hapex) as Haa.
  destruct (@isZero_leb _ (@triArea2_apex_twice_zero _ _ Haa
                               (@tame_pair _ _ Hapex Hr)))
    as [Hle _].
  destruct (@isZero_leb _ (@triArea2_apex_twice_zero _ _ Haa
                               (@tame_pair _ _ Hapex Hl)))
    as [_ Hge].
  rewrite Hle, (@pointsEqual_refl_finite _ Haa).
  cbn [orb Double.apex Double.left Double.right].
  rewrite Hge, (@pointsEqual_refl_finite _ Haa). reflexivity.
Qed.

(** Case analysis on the branches of the body. *)
Ltac double_body_cases :=
  unfold Double.funnelBody, Double.restartAt;
  repeat match goal with
         | |- context [if ?c then _ else _] => destruct c eqn:?
         end;
  cbn [fst snd Double.path Double.apex Double.apexIndex Double.left
       Double.leftIndex Double.right Double.rightIndex].

Lemma Double_funnelBody_holds i portal st :
  In portal portals -> holds pts st ->
  holds pts (snd (Double.funnelBody i portal st)).
Proof.
  intros Hportal (Ha & Hl & Hr). destruct (portals_in portal Hportal) as [Hpl Hpr].
  unfold holds. double_body_cases; repeat split; assumption.
Qed.

Lemma Double_funnelBody_progress i portal st :
  In portal portals -> holds pts st -> progress i st ->
  let '(i', st') := Double.funnelBody i portal st in
  progress (i' + 1) st' /\
  ((i' = i /\ Double.apexIndex st' = Double.apexIndex st)
   \/ (Double.apexIndex st < Double.apexIndex st' <= i
       /\ i' = Double.apexIndex st')%Z).
Proof.
  intros Hportal (Ha & _ & _) [Hlow [(HL & HR & Hi)|(HL & HR)]].
  - rewrite (@Double_funnelBody_after_restart i _ st Hportal Ha HL HR).
    unfold progress.
    cbn [Double.apexIndex Double.leftIndex Double.rightIndex Double.left
         Double.right Double.apex].
    split; [split; [assumption|right; lia]|left; split; reflexivity].
  - unfold progress. double_body_cases; (split; [split; [lia|]|]);
      try (left; repeat split; reflexivity);
      try (right; lia);
      try (left; split; [reflexivity|lia]);
      try (left; split; reflexivity).
Qed.

Lemma Double_funnelLoop_enough_fuel :
  forall fuel i st,
    holds pts st -> progress i st ->
    (i <= Z.of_nat (length portals))%Z ->
    (remaining portals i st < Z.of_nat fuel)%Z ->
    exists st', Double.funnelLoop fuel portals i st = Some st'.
Proof.
  induction fuel as [|fuel IH]; intros i st Hh Hp Hi Hfuel.
  - exfalso. unfold remaining in Hfuel.
    destruct Hp as [Hlow [(_ & _ & E)|(HL & _)]]; nia.
  - cbn [Double.funnelLoop].
    destruct (i <? Z.of_nat (length portals))%Z eqn:Hlt.
    + apply Z.ltb_lt in Hlt.
      assert (0 <= i)%Z as Hi0
          by (destruct Hp as [Hlow [(_ & _ & E)|(HL & _)]]; lia).
      destruct (i <? 0)%Z eqn:Hneg; [apply Z.ltb_lt in Hneg; lia|].
      destruct (nth_error portals (Z.to_nat i)) as [portal|] eqn:Hnth.
      * pose proof (nth_error_In _ _ Hnth) as Hportal.
        pose proof (@Double_funnelBody_progress i _ _ Hportal Hh Hp) as Hstep.
        pose proof (@Double_funnelBody_holds i _ _ Hportal Hh) as Hh'.
        destruct (Double.funnelBody i portal st) as [i' st1].
        destruct Hstep as [Hp' Hcase]. cbn [snd] in Hh'.
        apply IH; [assumption|assumption| |].
        -- destruct Hcase as [[-> _]|[? ->]]; lia.
        -- unfold remaining in *.
           destruct Hcase as [[-> ->]|[? ->]]; [lia|].
           destruct Hp as [Hlow _]. nia.
      * exfalso. apply nth_error_None in Hnth. lia.
    + eauto.
Qed.

End DoubleFunnel.

(** More fuel than needed does not change the result. *)
Lemma Double_funnelLoop_more_fuel (portals : list Double.Portal) :
  forall fuel i st st',
    Double.funnelLoop fuel portals i st = Some st' ->
    forall fuel', (fuel <= fuel')%nat ->
                  Double.funnelLoop fuel' portals i st = Some st'.
Proof.
  induction fuel as [|fuel IH]; intros i st st' Hrun fuel' Hle.
  - discriminate Hrun.
  - destruct fuel' as [|fuel']; [lia|].
    cbn [Double.funnelLoop] in *.
    destruct (i <? Z.of_nat (length portals))%Z; [|assumption].
    destruct (i <? 0)%Z; [discriminate Hrun|].
    destruct (nth_error portals (Z.to_nat i)); [|discriminate Hrun].
    destruct (Double.funnelBody i p st) as [i' st1].
    apply (IH _ _ _ Hrun). lia.
Qed.

Lemma Double_funnelOn_total (start end_ : Double.Point)
  (portals0 : list Double.Portal) :
  DoubleVocabulary.tame
    (start :: end_ :: DoubleVocabulary.portalEnds portals0) = true ->
  exists result,
    forall extra,
      Double.funnelOn (funnelFuel (S (length portals0)) + extra)
                      start end_ portals0
      = Some result.
Proof.
  intro Htame.
  set (pts := start :: end_ :: DoubleVocabulary.portalEnds portals0) in *.
  set (portals := portals0 ++ [{| Double.pleft := end_; Double.pright := end_ |}]).
  set (st := {| Double.path := [start];
                Double.apex := start; Double.apexIndex := (-1)%Z;
                Double.left := start; Double.leftIndex := (-1)%Z;
                Double.right := start; Double.rightIndex := (-1)%Z |}).
  assert (Hin : forall portal, In portal portals ->
                  In (Double.pleft portal) pts /\ In (Double.pright portal) pts).
  { intros portal Hp. unfold portals in Hp. apply in_app_or in Hp.
    destruct Hp as [Hp|[<-|[]]].
    - unfold pts, DoubleVocabulary.portalEnds.
      split; right; right; apply in_flat_map; exists portal;
        (split; [exact Hp|]); [left|right; left]; reflexivity.
    - cbn [Double.pleft Double.pright]. split; right; left; reflexivity. }
  destruct (@Double_funnelLoop_enough_fuel pts Htame portals Hin
              (funnelFuel (S (length portals0))) 0%Z st) as [st' Hst'].
  - unfold DoubleVocabulary.holds, st, pts; cbn.
    repeat split; left; reflexivity.
  - unfold DoubleVocabulary.progress, st; cbn. split; [lia|left; auto].
  - lia.
  - unfold DoubleVocabulary.remaining, funnelFuel, st, portals;
      cbn [Double.apexIndex].
    rewrite length_app; cbn [length]. lia.
  - exists (if negb (Double.pointsEqual (List.last (Double.path st') start) end_)
            then Double.path st' ++ [end_] else Double.path st').
    intro extra. unfold Double.funnelOn. fold portals. fold st.
    rewrite (@Double_funnelLoop_more_fuel _ _ _ _ _ Hst'
               (funnelFuel (S (length portals0)) + extra)) by lia.
    destruct (negb _); reflexivity.
Qed.

(** C9, as the code has it: on doubles the loop of the funnel ends, within
    [funnelFuel] iterations, for every start, end and portal list such that
    no difference of coordinates between two of these points overflows;
    allowing more iterations gives the same path. *)
Theorem Double_funnel_terminates (start end_ : Double.Point)
  (portals0 : list Double.Portal) :
  DoubleVocabulary.tame
    (start :: end_ :: DoubleVocabulary.portalEnds portals0) = true ->
  exists result,
    forall extra,
      Double.funnelOn (funnelFuel (S (length portals0)) + extra)
                      start end_ portals0
      = Some result.
Proof. apply Double_funnelOn_total. Qed.

Section DoubleFunnelExamples.

Import PrimFloat DoubleVocabulary DoubleSample.

#[local] Open Scope float_scope.

Lemma Double_funnel_terminates_witness :
  exists result,
    forall extra,
      Double.funnelOn (funnelFuel (S (length ellPortals)) + extra)
                      (Double.new 18 5) (Double.new 5 18) ellPortals
      = Some result.
Proof.
  apply (@Double_funnel_terminates (Double.new 18 5) (Double.new 5 18) ellPortals).
  vm_compute. reflexivity.
Defined.

(** on doubles too the route turns at the inner corner *)
Example Double_funnel_ell :
  Double.funnelOn 50 (Double.new 18 5) (Double.new 5 18) ellPortals
  = Some [Double.new 18 5; Double.new 10 10; Double.new 5 18].
Proof. vm_compute. reflexivity. Qed.

Lemma Double_funnelLoop_turning :
  forall fuel i st,
    turning i st -> Double.funnelLoop fuel farPortals i st = None.
Proof.
  induction fuel as [|fuel IH]; intros i st Hturn; [reflexivity|].
  destruct st as [path apex apexIndex left leftIndex right rightIndex].
  destruct Hturn as (Ha & Hai & Hl & Hli & Hcase).
  cbn [Double.apex Double.apexIndex Double.left Double.leftIndex
       Double.right Double.rightIndex] in *.
  subst apex apexIndex left leftIndex.
  destruct Hcase as [(-> & -> & ->)|(-> & -> & ->)].
  - change (Double.funnelLoop (S fuel) farPortals 0 _)
      with (let '(i', st') :=
              Double.funnelBody 0 farPortal
                {| Double.path := path; Double.apex := farStart;
                   Double.apexIndex := -1; Double.left := farStart;
                   Double.leftIndex := -1; Double.right := farStart;
                   Double.rightIndex := -1 |} in
            Double.funnelLoop fuel farPortals (i' + 1)%Z st').
    replace (Double.funnelBody 0 farPortal _)
      with (0%Z, {| Double.path := path; Double.apex := farStart;
                    Double.apexIndex := -1; Double.left := farStart;
                    Double.leftIndex := -1;
                    Double.right := Double.pright farPortal;
                    Double.rightIndex := 0 |})
      by (vm_compute; reflexivity).
    apply IH. unfold turning. cbn. repeat split. right. repeat split.
  - change (Double.funnelLoop (S fuel) farPortals 1 _)
      with (let '(i', st') :=
              Double.funnelBody 1
                {| Double.pleft := farEnd; Double.pright := farEnd |}
                {| Double.path := path; Double.apex := farStart;
                   Double.apexIndex := -1; Double.left := farStart;
                   Double.leftIndex := -1;
                   Double.right := Double.pright farPortal;
                   Double.rightIndex := 0 |} in
            Double.funnelLoop fuel farPortals (i' + 1)%Z st').
    replace (Double.funnelBody 1 _ _)
      with ((-1)%Z, {| Double.path := path ++ [farStart];
                       Double.apex := farStart;
                       Double.apexIndex := -1; Double.left := farStart;
                       Double.leftIndex := -1;
                       Double.right := farStart;
                       Double.rightIndex := -1 |})
      by (vm_compute; reflexivity).
    apply IH. unfold turning. cbn. repeat split. left. repeat split.
Qed.

(** C9, at the start (-1e308, 0), the end (0, 0) and the single portal from
    (1e308, 1) to (0, -1): the difference 1e308 - (-1e308) overflows,
    [triArea2] of the apex taken twice and the left end of the portal is
    NaN, the left side of the funnel is never set, and every pass over the
    goal restarts the loop at the first portal: no number of iterations
    gives a path. *)
Lemma Double_funnel_counterexample :
  is_nan (Double.triArea2 farStart farStart (Double.pleft farPortal)) = true
  /\ ~ exists fuel result,
         Double.funnelOn fuel farStart farEnd [farPortal] = Some result.
Proof.
  split; [vm_compute; reflexivity|].
  intros (fuel & result & Hrun). unfold Double.funnelOn in Hrun.
  change ([farPortal] ++ [{| Double.pleft := farEnd; Double.pright := farEnd |}])
    with farPortals in Hrun.
  rewrite Double_funnelLoop_turning in Hrun; [discriminate Hrun|].
  unfold turning. cbn. repeat split. left. repeat split.
Qed.

End DoubleFunnelExamples.
